(** * Messaging client: the view layer and its reconciliation state

    A shallow embedding of the parts of the TypeScript client that decide
    how posts, replies, reactions, container names and the error banner
    behave:

    - [src/components/container-item.ts]  (class [ContainerItem], [submit])
    - [src/views/error-view.ts]           (class [ErrorView])
    - [src/components/post-element.ts]    (class [PostElement])
    - [src/views/view.ts]                 (class [View])

    and, around them, the body of a post ([parseMessage], [escapeHtml]),
    the text areas and send handlers of

    - [src/components/channel-content.ts] (class [ChannelContent])
    - [src/components/reply-box.ts]       (class [ReplyBox])

    the side lists of [View] with the other methods of [ContainerItem],
    and the create buttons of

    - [src/views/channel-view.ts]         (class [ChannelView])
    - [src/views/workspace-view.ts]       (class [WorkspaceView])

    Objects with identity (post elements, reply boxes, timers) live in
    explicit stores indexed by natural numbers; JS [Map]s are finite maps;
    DOM child lists are lists of node references. *)

From Stdlib Require Import ZArith List String Ascii Bool Lia.
From Stdlib Require Import Sorting.Sorted DecimalString.
From stdpp Require Import base option list gmap strings sorting.

Local Open Scope Z_scope.

(** ** JavaScript primitives used by the code *)

Module Js.

(** [haystack.includes(needle)]: substring test. *)
Fixpoint includes (needle hay : string) : bool :=
  String.prefix needle hay
  || match hay with
     | EmptyString => false
     | String _ rest => includes needle rest
     end.

(** [arr.includes(x)] on an array of strings. *)
Definition array_includes (x : string) (arr : list string) : bool :=
  existsb (String.eqb x) arr.

(** The double quote character, code point 34. *)
Definition dquote : ascii := ascii_of_nat 34.

Definition str1 (c : ascii) : string := String c EmptyString.

(** Canonical decimal rendering of an array index. *)
Definition index_name (i : nat) : string :=
  NilEmpty.string_of_uint (Nat.to_uint i).

(** Property names every array inherits from [Array.prototype] and
    [Object.prototype]. *)
Definition array_prototype_names : list string :=
  [ "constructor"; "at"; "concat"; "copyWithin"; "fill"; "find"; "findIndex";
    "findLast"; "findLastIndex"; "lastIndexOf"; "pop"; "push"; "reverse";
    "shift"; "unshift"; "slice"; "sort"; "splice"; "includes"; "indexOf";
    "join"; "keys"; "entries"; "values"; "forEach"; "filter"; "flat";
    "flatMap"; "map"; "every"; "some"; "reduce"; "reduceRight";
    "toLocaleString"; "toString"; "toReversed"; "toSorted"; "toSpliced";
    "with"; "hasOwnProperty"; "isPrototypeOf"; "propertyIsEnumerable";
    "valueOf"; "__proto__"; "__defineGetter__"; "__defineSetter__";
    "__lookupGetter__"; "__lookupSetter__" ]%string.

(** [key in arr] for an array [arr]: the operator asks whether [key] is a
    property NAME of the array (an index, [length], or an inherited
    member), not whether it is one of its elements. *)
Definition in_array {A} (key : string) (arr : list A) : bool :=
  existsb (fun i => String.eqb key (index_name i)) (seq 0 (length arr))
  || String.eqb key "length"
  || existsb (String.eqb key) array_prototype_names.

End Js.

(** ** [ContainerItem]: a workspace or channel entry of a side list *)

Module ContainerItem.

Inductive ContainerType := Workspace | Channel.

Definition type_name (t : ContainerType) : string :=
  match t with Workspace => "Workspace" | Channel => "Channel" end.

(** The DOM events [submit] is registered for: [keyup] on the input and
    [click] on the confirm button. *)
Inductive UiEvent :=
  | KeyboardEvent (key : string)
  | MouseEvent
  | OtherEvent.

(** [new CustomEvent(name, {detail: {workspaceName, channelName, uuid}})]. *)
Record CustomEvent := mkEvent {
  ev_name : string;
  ev_workspaceName : string;
  ev_channelName : string;
  ev_uuid : string
}.

Record t := mkItem {
  type : ContainerType;
  disabled : bool;
  parentName : string;
  data_id : string;                 (* dataset.id *)
  tabIndex : Z;
  class_waiting : bool;
  class_spinner : bool;
  input_value : string;
  input_hidden : bool;
  input_class_error : bool;
  label_text : string;              (* containerNameLabel.textContent *)
  label_hidden : bool;
  inputBox_hidden : bool;
  inputBox_class_show : bool;
  errorDisplay : string;            (* errorDisplay.innerText *)
  dismissBtn_class_show : bool;
  errorIcon_class_show : bool;
  errorIcon_icon : string;          (* errorIcon.dataset.icon *)
  trashBtn_disabled : bool;
  trashBtn_tabIndex : Z;
  createBtn_disabled : bool;
  createBtn_tabIndex : Z;
  removed : bool                    (* this.remove() was called *)
}.

Definition showError (m : string) (it : t) : t :=
  mkItem (type it) (disabled it) (parentName it) (data_id it) (tabIndex it)
    (class_waiting it) (class_spinner it)
    (input_value it) (input_hidden it) true
    (label_text it) (label_hidden it)
    (inputBox_hidden it) (inputBox_class_show it)
    m true true "material-symbols:dangerous"
    (trashBtn_disabled it) (trashBtn_tabIndex it)
    (createBtn_disabled it) (createBtn_tabIndex it) (removed it).

Definition removeError (it : t) : t :=
  mkItem (type it) (disabled it) (parentName it) (data_id it) (tabIndex it)
    (class_waiting it) (class_spinner it)
    (input_value it) (input_hidden it) false
    (label_text it) (label_hidden it)
    (inputBox_hidden it) (inputBox_class_show it)
    "" false false ""
    (trashBtn_disabled it) (trashBtn_tabIndex it)
    (createBtn_disabled it) (createBtn_tabIndex it) (removed it).

Definition disableItem (it : t) : t :=
  mkItem (type it) true (parentName it) (data_id it) (-1)
    true true
    (input_value it) (input_hidden it) (input_class_error it)
    (label_text it) (label_hidden it)
    (inputBox_hidden it) (inputBox_class_show it)
    (errorDisplay it) (dismissBtn_class_show it) (errorIcon_class_show it)
    (errorIcon_icon it)
    true (-1) true (-1) (removed it).

Definition remove (it : t) : t :=
  mkItem (type it) (disabled it) (parentName it) (data_id it) (tabIndex it)
    (class_waiting it) (class_spinner it)
    (input_value it) (input_hidden it) (input_class_error it)
    (label_text it) (label_hidden it)
    (inputBox_hidden it) (inputBox_class_show it)
    (errorDisplay it) (dismissBtn_class_show it) (errorIcon_class_show it)
    (errorIcon_icon it)
    (trashBtn_disabled it) (trashBtn_tabIndex it)
    (createBtn_disabled it) (createBtn_tabIndex it) true.

(** The label takes the input's value and the editor is put away. *)
Definition settle_label (it : t) : t :=
  mkItem (type it) (disabled it) (parentName it) (data_id it) (tabIndex it)
    (class_waiting it) (class_spinner it)
    (input_value it) true (input_class_error it)
    (input_value it) false
    true false
    (errorDisplay it) (dismissBtn_class_show it) (errorIcon_class_show it)
    (errorIcon_icon it)
    (trashBtn_disabled it) (trashBtn_tabIndex it)
    (createBtn_disabled it) (createBtn_tabIndex it) (removed it).

Definition invalid_char_message : string :=
  String.append "Contains invalid character. Cannot contain '/', '.', '"
    (String Js.dquote "' or '\'").

Definition create_event (it : t) : CustomEvent :=
  let v := input_value it in
  match type it with
  | Workspace => mkEvent "createWorkspaceEvent" v "" (data_id it)
  | Channel => mkEvent "createChannelEvent" (parentName it) v (data_id it)
  end.

(** [submit(event)]: the result is the item after the call and the events
    dispatched on [document], in order. *)
Definition submit (event : UiEvent) (it : t) : t * list CustomEvent :=
  let is_escape :=
    match event with KeyboardEvent k => String.eqb k "Escape" | _ => false end in
  let is_submit :=
    match event with
    | KeyboardEvent k => String.eqb k "Enter"
    | MouseEvent => true
    | OtherEvent => false
    end in
  if is_escape then (remove it, [])
  else if is_submit then
    if disabled it then (it, [])
    else if String.eqb (input_value it) "" then (showError "Empty input" it, [])
    else if Js.includes "/" (input_value it)
            || String.eqb (input_value it) "."
            || String.eqb (input_value it) ".."
            || Js.includes "\" (input_value it)
            || Js.includes (Js.str1 Js.dquote) (input_value it)
    then (showError invalid_char_message it, [])
    else
      let it1 := settle_label (disableItem (removeError it)) in
      (it1, [create_event it])
  else (it, []).

(** The names the specification rejects, in its own words: the empty
    name, the names [.] and [..], and every name with a slash, a
    backslash or a double quote among its characters. *)
Definition rejected_name (v : string) : Prop :=
  v = ""%string \/ v = "."%string \/ v = ".."%string
  \/ In "/"%char (list_ascii_of_string v)
  \/ In "\"%char (list_ascii_of_string v)
  \/ In Js.dquote (list_ascii_of_string v).

Definition sample_item (ty : ContainerType) (v : string) : t :=
  mkItem ty false "cs-team" "uuid-1" 0 false false v false false
    "" true false true "" false false "" false 0 false 0 false.

End ContainerItem.

(** ** [PostElement]: the web component of one post *)

Module PostElement.

Inductive ReactionKind := Smile | Frown | Like | Celebrate.

(** The [id] attribute of the button of a kind, sent as [reactionType]. *)
Definition button_id (k : ReactionKind) : string :=
  match k with
  | Smile => "smile" | Frown => "frown" | Like => "like"
  | Celebrate => "celebrate"
  end.

(** [PostReactions] / [ViewReactions]: the users who reacted, per kind.
    The payload may leave a kind out, which the code tests for. *)
Record PostReactions := mkReactions {
  smile : option (list string);
  frown : option (list string);
  like : option (list string);
  celebrate : option (list string)
}.

Definition reaction (k : ReactionKind) (r : PostReactions)
  : option (list string) :=
  match k with
  | Smile => smile r | Frown => frown r | Like => like r
  | Celebrate => celebrate r
  end.

(** A reaction button: its [disabled] property and whether its class list
    holds [clicked]. *)
Record Button := mkButton { disabled : bool; clicked : bool }.

(** A child of a post's reply list or of the channel's post list: a post
    element or a reply box, by object identity. *)
Inductive Node := PostNode (id : nat) | ReplyBoxNode (id : nat).

#[global] Instance Node_eq_dec : EqDecision Node.
Proof. solve_decision. Defined.

(** The fields of a [PostElement] that the view reads or writes.  The
    header and body paragraphs only carry rendered text and are left
    out; a count paragraph is the number whose decimal it shows. *)
Record t := mkPost {
  postId : string;
  currUser : string;
  channelName : string;
  workspaceName : string;
  createdAt : Z;
  smileBtn : Button;     smileCnt : nat;
  frownBtn : Button;     frownCnt : nat;
  likeBtn : Button;      likeCnt : nat;
  celebrateBtn : Button; celebrateCnt : nat;
  replies : list Node;   (* children of the #post-replies list *)
  replyMode : bool
}.

Definition btn (k : ReactionKind) (el : t) : Button :=
  match k with
  | Smile => smileBtn el | Frown => frownBtn el | Like => likeBtn el
  | Celebrate => celebrateBtn el
  end.

Definition cnt (k : ReactionKind) (el : t) : nat :=
  match k with
  | Smile => smileCnt el | Frown => frownCnt el | Like => likeCnt el
  | Celebrate => celebrateCnt el
  end.

(** Constructor, reaction part: a kind present in [reactionsObj] shows
    its length and is [clicked] when it lists the current user. *)
Definition initial_count (users : option (list string)) : nat :=
  match users with Some l => length l | None => 0%nat end.

Definition initial_button (user : string) (users : option (list string))
  : Button :=
  match users with
  | Some l => mkButton false (Js.array_includes user l)
  | None => mkButton false false
  end.

Definition new (reactionsObj : option PostReactions)
    (postId currUser channelName workspaceName : string) (createdAt : Z) : t :=
  match reactionsObj with
  | Some r =>
      mkPost postId currUser channelName workspaceName createdAt
        (initial_button currUser (smile r)) (initial_count (smile r))
        (initial_button currUser (frown r)) (initial_count (frown r))
        (initial_button currUser (like r)) (initial_count (like r))
        (initial_button currUser (celebrate r)) (initial_count (celebrate r))
        [] false
  | None =>
      mkPost postId currUser channelName workspaceName createdAt
        (mkButton false false) 0 (mkButton false false) 0
        (mkButton false false) 0 (mkButton false false) 0
        [] false
  end.

Definition set_replies (l : list Node) (el : t) : t :=
  mkPost (postId el) (currUser el) (channelName el) (workspaceName el)
    (createdAt el) (smileBtn el) (smileCnt el) (frownBtn el) (frownCnt el)
    (likeBtn el) (likeCnt el) (celebrateBtn el) (celebrateCnt el)
    l (replyMode el).

Definition set_replyMode (b : bool) (el : t) : t :=
  mkPost (postId el) (currUser el) (channelName el) (workspaceName el)
    (createdAt el) (smileBtn el) (smileCnt el) (frownBtn el) (frownCnt el)
    (likeBtn el) (likeCnt el) (celebrateBtn el) (celebrateCnt el)
    (replies el) b.

Definition set_btn (k : ReactionKind) (b : Button) (el : t) : t :=
  mkPost (postId el) (currUser el) (channelName el) (workspaceName el)
    (createdAt el)
    (match k with Smile => b | _ => smileBtn el end) (smileCnt el)
    (match k with Frown => b | _ => frownBtn el end) (frownCnt el)
    (match k with Like => b | _ => likeBtn el end) (likeCnt el)
    (match k with Celebrate => b | _ => celebrateBtn el end) (celebrateCnt el)
    (replies el) (replyMode el).

Definition closeReplyMode (el : t) : t := set_replyMode false el.

(** [reactEvent]'s detail. *)
Record ReactEvent := mkReactEvent {
  reactionType : string;
  re_postId : string;
  re_clicked : bool
}.

(** [react(event)] for a click that lands on the button of kind [k] (or
    on the icon inside it): the button is disabled and the event tells
    whether the button was [clicked].  Neither a count nor the class
    list is written. *)
Definition react (k : ReactionKind) (el : t) : t * ReactEvent :=
  let button := btn k el in
  (set_btn k (mkButton true (clicked button)) el,
   mkReactEvent (button_id k) (postId el) (clicked button)).

(** A browser delivers no click to a disabled button. *)
Definition click (k : ReactionKind) (el : t) : t * option ReactEvent :=
  if disabled (btn k el) then (el, None)
  else let '(el', ev) := react k el in (el', Some ev).

(** One of the four stanzas of [renderReactions]. *)
Definition render_button (b : Button) (inKind : bool) : Button :=
  if disabled b && negb (Bool.eqb (clicked b) inKind) then
    (* the server disagrees with a pending button: take its value and
       give the button back *)
    let b1 := if inKind then mkButton (disabled b) true
              else mkButton (disabled b) false in
    mkButton false (clicked b1)
  else
    if inKind then mkButton (disabled b) true
    else mkButton (disabled b) false.

Definition renderReactions
    (smileCnt' : nat) (inSmile : bool) (frownCnt' : nat) (inFrown : bool)
    (likeCnt' : nat) (inLike : bool) (celebrateCnt' : nat) (inCelebrate : bool)
    (el : t) : t :=
  mkPost (postId el) (currUser el) (channelName el) (workspaceName el)
    (createdAt el)
    (render_button (smileBtn el) inSmile) smileCnt'
    (render_button (frownBtn el) inFrown) frownCnt'
    (render_button (likeBtn el) inLike) likeCnt'
    (render_button (celebrateBtn el) inCelebrate) celebrateCnt'
    (replies el) (replyMode el).

End PostElement.

(** ** [View]: channel content, active posts, reply buffer, reply mode *)

Module View.

Export PostElement (Node, PostNode, ReplyBoxNode).

(** [ViewPost] / [PostUpdateEvent]: what the store sends for a post. *)
Record Doc := mkDoc {
  msg : string;
  parent : option string;
  reactions : option PostElement.PostReactions;
  extensions : bool                  (* whether the key is present *)
}.

Record Meta := mkMeta {
  createdAt : Z;
  createdBy : string;
  lastModifiedAt : Z;
  lastModifiedBy : string
}.

Record ViewPost := mkViewPost { path : string; doc : Doc; meta : Meta }.

(** [Object.keys(doc)] *)
Definition doc_keys (d : Doc) : list string :=
  ["msg"%string]
  ++ match parent d with Some _ => ["parent"%string] | None => [] end
  ++ match reactions d with Some _ => ["reactions"%string] | None => [] end
  ++ (if extensions d then ["extensions"%string] else []).

(** Truthiness of an optional string: [undefined] and the empty string
    are falsy. *)
Definition truthy (o : option string) : bool :=
  match o with Some v => negb (String.eqb v "") | None => false end.

(** How a call ends.  [Threw] is a JavaScript exception reaching the
    caller, with the state as the exception left it.  [Stuck] is not a
    behaviour of the program: the recursion budget of the model ran out,
    or a reference named an object that was never constructed. *)
Inductive outcome := Returned | Threw (name : string) | Stuck.

Record t := mkView {
  heap : gmap nat PostElement.t;     (* post elements, by identity *)
  nextId : nat;                      (* identity of the next object *)
  currContent : string * string;     (* channel and workspace of currContent *)
  topLevelPosts : list Node;         (* currContent.getTopLevelPosts().children *)
  postBoxVisible : bool;             (* currContent's post form *)
  activePosts : gmap string nat;
  replyBuffer : gmap string nat;
  activeReply : option string;
  activeReplyBox : option nat
}.

(** [new View(...)] *)
Definition init : t :=
  mkView ∅ 0 ("no channel"%string, "no workspace"%string) [] true ∅ ∅ None None.

Definition set_heap (h : gmap nat PostElement.t) (s : t) : t :=
  mkView h (nextId s) (currContent s) (topLevelPosts s) (postBoxVisible s)
    (activePosts s) (replyBuffer s) (activeReply s) (activeReplyBox s).

Definition set_topLevelPosts (l : list Node) (s : t) : t :=
  mkView (heap s) (nextId s) (currContent s) l (postBoxVisible s)
    (activePosts s) (replyBuffer s) (activeReply s) (activeReplyBox s).

Definition set_postBoxVisible (b : bool) (s : t) : t :=
  mkView (heap s) (nextId s) (currContent s) (topLevelPosts s) b
    (activePosts s) (replyBuffer s) (activeReply s) (activeReplyBox s).

Definition set_activePosts (m : gmap string nat) (s : t) : t :=
  mkView (heap s) (nextId s) (currContent s) (topLevelPosts s)
    (postBoxVisible s) m (replyBuffer s) (activeReply s) (activeReplyBox s).

Definition set_replyBuffer (m : gmap string nat) (s : t) : t :=
  mkView (heap s) (nextId s) (currContent s) (topLevelPosts s)
    (postBoxVisible s) (activePosts s) m (activeReply s) (activeReplyBox s).

Definition set_reply (r : option string) (b : option nat) (s : t) : t :=
  mkView (heap s) (nextId s) (currContent s) (topLevelPosts s)
    (postBoxVisible s) (activePosts s) (replyBuffer s) r b.

(** [new PostElement(...)]: the object gets the next identity. *)
Definition alloc (el : PostElement.t) (s : t) : t :=
  mkView (<[nextId s := el]> (heap s)) (S (nextId s)) (currContent s)
    (topLevelPosts s) (postBoxVisible s) (activePosts s) (replyBuffer s)
    (activeReply s) (activeReplyBox s).

(** [new ReplyBox(...)]: only its identity matters here. *)
Definition alloc_box (s : t) : t :=
  mkView (heap s) (S (nextId s)) (currContent s)
    (topLevelPosts s) (postBoxVisible s) (activePosts s) (replyBuffer s)
    (activeReply s) (activeReplyBox s).

(** *** The DOM operations the view performs *)

(** The child list named by a parent: the channel's post list for
    [None], the reply list of a post element otherwise. *)
Definition children (target : option nat) (s : t) : option (list Node) :=
  match target with
  | None => Some (topLevelPosts s)
  | Some p => PostElement.replies <$> heap s !! p
  end.

Definition set_children (target : option nat) (l : list Node) (s : t) : t :=
  match target with
  | None => set_topLevelPosts l s
  | Some p => set_heap (alter (PostElement.set_replies l) p (heap s)) s
  end.

Definition remove_node (n : Node) (l : list Node) : list Node :=
  filter (λ m, m ≠ n) l.

(** A node has one parent: putting it somewhere takes it out of the
    list it is in, and [node.remove()] does only that. *)
Definition detach (n : Node) (s : t) : t :=
  set_topLevelPosts (remove_node n (topLevelPosts s))
    (set_heap
       ((λ el, PostElement.set_replies
                 (remove_node n (PostElement.replies el)) el) <$> heap s)
       s).

(** Whether post element [a] is [x] or has [x] below it (a
    host-including inclusive ancestor: the reply list lives in the
    element's shadow tree). *)
Fixpoint contains (fuel : nat) (h : gmap nat PostElement.t) (a x : nat)
  : bool :=
  Nat.eqb a x
  || match fuel with
     | O => false
     | S fuel' =>
         match h !! a with
         | Some el =>
             existsb (λ n, match n with
                           | PostNode c => contains fuel' h c x
                           | ReplyBoxNode _ => false
                           end) (PostElement.replies el)
         | None => false
         end
     end.

(** Pre-insertion validity: a node cannot go below itself. *)
Definition hierarchy_error (n : Node) (target : option nat) (s : t) : bool :=
  match n, target with
  | PostNode a, Some p => contains (size (heap s)) (heap s) a p
  | _, _ => false
  end.

(** [parent.append(n)] *)
Definition append (target : option nat) (n : Node) (s : t) : outcome * t :=
  if hierarchy_error n target s then (Threw "HierarchyRequestError", s)
  else
    let s1 := detach n s in
    match children target s1 with
    | Some l => (Returned, set_children target (l ++ [n]) s1)
    | None => (Stuck, s)
    end.

(** The list with [n] put right before [ref]. *)
Fixpoint place_before (ref n : Node) (l : list Node) : list Node :=
  match l with
  | [] => [n]
  | m :: rest =>
      if decide (m = ref) then n :: m :: rest
      else m :: place_before ref n rest
  end.

(** [ref.insertAdjacentElement("beforebegin", n)], where [ref] is a child
    of [target]. *)
Definition insert_before (target : option nat) (ref n : Node) (s : t)
  : outcome * t :=
  if hierarchy_error n target s then (Threw "HierarchyRequestError", s)
  else
    let s1 := detach n s in
    match children target s1 with
    | Some l => (Returned, set_children target (place_before ref n l) s1)
    | None => (Stuck, s)
    end.

(** *** Reactions *)

Definition reactionCnt (users : option (list string)) : nat :=
  match users with Some l => length l | None => 0%nat end.

Definition inReaction (username : string) (users : option (list string))
  : bool :=
  match users with Some l => Js.array_includes username l | None => false end.

Definition updateReactions (newReactions : PostElement.PostReactions)
    (postId username : string) (s : t) : t :=
  let smileCnt := reactionCnt (PostElement.smile newReactions) in
  let inSmile := inReaction username (PostElement.smile newReactions) in
  let frownCnt := reactionCnt (PostElement.frown newReactions) in
  let inFrown := inReaction username (PostElement.frown newReactions) in
  let likeCnt := reactionCnt (PostElement.like newReactions) in
  let inLike := inReaction username (PostElement.like newReactions) in
  let celebrateCnt := reactionCnt (PostElement.celebrate newReactions) in
  let inCelebrate :=
    inReaction username (PostElement.celebrate newReactions) in
  match activePosts s !! postId with
  | Some targetPost =>
      set_heap
        (alter (PostElement.renderReactions smileCnt inSmile frownCnt inFrown
                  likeCnt inLike celebrateCnt inCelebrate)
               targetPost (heap s)) s
  | None => s
  end.

(** *** Reply mode *)

Definition remove_box (b : option nat) (s : t) : t :=
  match b with Some i => detach (ReplyBoxNode i) s | None => s end.

Definition replyModeOn (postId channelName workspaceName : string) (s : t)
  : outcome * t :=
  let s0 := set_postBoxVisible false s in
  let s1 :=
    if truthy (activeReply s0) then
      match activePosts s0 !! default ""%string (activeReply s0) with
      | Some currReplyTarget =>
          remove_box (activeReplyBox s0)
            (set_heap (alter PostElement.closeReplyMode currReplyTarget
                         (heap s0)) s0)
      | None => s0
      end
    else s0 in
  match activePosts s1 !! postId with
  | Some targetPost =>
      let replyBox := nextId s1 in
      let s2 := set_reply (Some postId) (Some replyBox) (alloc_box s1) in
      append (Some targetPost) (ReplyBoxNode replyBox) s2
  | None => (Returned, s1)
  end.

Definition replyModeOff (postId : string) (s : t) : t :=
  let s0 := set_postBoxVisible true s in
  match activePosts s0 !! postId with
  | Some targetPost =>
      set_reply None None
        (remove_box (activeReplyBox s0)
           (set_heap (alter PostElement.closeReplyMode targetPost (heap s0))
              s0))
  | None => s0
  end.

(** *** Inserting a post element among its siblings *)

(** The body of the [forEach] of [insertPost]: [acc] is
    ([earliestDate], [insertHere]), with [None] for [Infinity] and for
    [null]. *)
Definition scan_step (h : gmap nat PostElement.t) (newDate : Z)
    (acc : option Z * option Node) (reply : Node) : option Z * option Node :=
  match reply with
  | PostNode r =>
      match h !! r with
      | Some el =>
          let currDate := PostElement.createdAt el in
          if (newDate <? currDate)
             && match fst acc with
                | None => true
                | Some earliestDate => currDate <? earliestDate
                end
          then (Some currDate, Some reply)
          else acc
      | None => acc
      end
  | ReplyBoxNode _ => acc
  end.

Definition find_insertHere (h : gmap nat PostElement.t) (newDate : Z)
    (postList : list Node) : option Node :=
  snd (fold_left (scan_step h newDate) postList (None, None)).

(** The first half of [insertPost]: the scan for [insertHere], then the
    insertion before it, or at the end of the parent's list when the
    scan found nothing. *)
Definition place (newPostElement : nat) (parentPost : option nat)
    (newDate : Z) (postList : list Node) (s : t) : outcome * t :=
  match find_insertHere (heap s) newDate postList with
  | Some insertHere =>
      insert_before parentPost insertHere (PostNode newPostElement) s
  | None => append parentPost (PostNode newPostElement) s
  end.

(** [insertPost(newPostElement, parentPost, postList)], where [postList]
    is the child list of [parentPost] (of the channel for [None]) at the
    time of the call.  The reply buffer is not written while it is
    walked, and a [Map] has one entry per key, so the [forEach] that acts
    on the entries whose key is the new path is a lookup. *)
Fixpoint insertPost (fuel : nat) (newPostElement : nat)
    (parentPost : option nat) (s : t) : outcome * t :=
  match fuel with
  | O => (Stuck, s)
  | S fuel' =>
      match heap s !! newPostElement, children parentPost s with
      | Some el, Some postList =>
          match place newPostElement parentPost (PostElement.createdAt el)
                  postList s with
          | (Returned, s1) =>
              match replyBuffer s1 !! PostElement.postId el with
              | Some value => insertPost fuel' value (Some newPostElement) s1
              | None => (Returned, s1)
              end
          | r => r
          end
      | _, _ => (Stuck, s)
      end
  end.

(** Every nested call of [insertPost] puts a buffered element below the
    element of the call before, and the DOM refuses to put an element
    below itself: a run deeper than the number of elements ends in an
    exception first.  What is proved below about [insertPost] holds for
    every budget. *)
Definition insert_budget (s : t) : nat := S (size (heap s)).

(** The end of [handleUpdate]: after the insertion, a reply written by
    the current user turns reply mode off for its parent and is scrolled
    into view. *)
Definition scroll_to_new (post : ViewPost) (username : string)
    (r : outcome * t) : outcome * t :=
  match r with
  | (Returned, s2) =>
      if truthy (parent (doc post))
         && String.eqb (createdBy (meta post)) username
      then (Returned, replyModeOff (default ""%string (parent (doc post))) s2)
      else r
  | _ => r
  end.

(** [handleUpdate] past its first test: the update is taken for a new
    post.  An element is constructed and indexed; with a parent that is
    not in the index it goes to the reply buffer, otherwise it is
    inserted below its parent or among the top-level posts. *)
Definition insert_update (channelName : string) (post : ViewPost)
    (workspaceName username : string) (s : t) : outcome * t :=
  let newPostElement := nextId s in
  let el := PostElement.new (reactions (doc post)) (path post) username
              channelName workspaceName (createdAt (meta post)) in
  let s1 := set_activePosts (<[path post := newPostElement]> (activePosts s))
              (alloc el s) in
  if truthy (parent (doc post)) then
    let parentPath := default ""%string (parent (doc post)) in
    match activePosts s1 !! parentPath with
    | None =>
        (Returned,
         set_replyBuffer (<[parentPath := newPostElement]> (replyBuffer s1))
           s1)
    | Some parentPost =>
        scroll_to_new post username
          (insertPost (insert_budget s1) newPostElement (Some parentPost) s1)
    end
  else
    scroll_to_new post username
      (insertPost (insert_budget s1) newPostElement None s1).


(** [handleUpdate(channelName, post, workspaceName, username)] *)
Definition handleUpdate (channelName : string) (post : ViewPost)
    (workspaceName username : string) (s : t) : outcome * t :=
  match activePosts s !! path post, reactions (doc post) with
  | Some _, Some newReactions =>
      (Returned, updateReactions newReactions (path post) username s)
  | _, _ => insert_update channelName post workspaceName username s
  end.

(** *** Loading a channel *)

(** [structuredPosts]: each entry is a post with its [children] array.
    A child is the very object that sits in [structuredPosts], so a
    [children] array holds positions of [structuredPosts]. *)
Definition structured := list (ViewPost * list nat).

(** The body of the first [forEach] of [displayChannelContent]. *)
Definition add_structured (structuredPosts : structured) (post : ViewPost)
  : structured :=
  let newViewPost := length structuredPosts in
  let pushed := structuredPosts ++ [(post, [])] in
  if Js.in_array "parent" (doc_keys (doc post))
     && negb (match parent (doc post) with
              | Some p => String.eqb p ""
              | None => false
              end)
  then
    map (λ entry : ViewPost * list nat,
           if match parent (doc post) with
              | Some p => String.eqb p (path (fst entry))
              | None => false
              end
           then (fst entry, snd entry ++ [newViewPost])
           else entry) pushed
  else pushed.

(** [createNestedPosts(post, ...)] for the entry at position [post];
    the result carries the element it returns. *)
Fixpoint createNestedPosts (fuel : nat) (structuredPosts : structured)
    (post : nat) (username channelName workspaceName : string) (s : t)
  : outcome * t * nat :=
  match fuel with
  | O => (Stuck, s, O)
  | S fuel' =>
      match structuredPosts !! post with
      | None => (Stuck, s, O)
      | Some (p, childPosts) =>
          let newPostElement := nextId s in
          let el := PostElement.new (reactions (doc p)) (path p) username
                      channelName workspaceName (createdAt (meta p)) in
          let s1 := set_activePosts
                      (<[path p := newPostElement]> (activePosts s))
                      (alloc el s) in
          let r :=
            fold_left
              (λ (acc : outcome * t) (child : nat),
                 match acc with
                 | (Returned, sa) =>
                     match createNestedPosts fuel' structuredPosts child
                             username channelName workspaceName sa with
                     | (Returned, sb, childPostElement) =>
                         append (Some newPostElement)
                           (PostNode childPostElement) sb
                     | (o, sb, _) => (o, sb)
                     end
                 | _ => acc
                 end)
              childPosts (Returned, s1) in
          (fst r, snd r, newPostElement)
      end
  end.

(** [!post.doc.parent]: the post counts as a top-level post. *)
Definition is_top_level (post : ViewPost) : bool :=
  negb (truthy (parent (doc post))).

(** The state in which [displayChannelContent] starts to render: empty
    content for the channel and an empty active index. *)
Definition cleared (channelName workspaceName : string) (s : t) : t :=
  mkView (heap s) (nextId s) (channelName, workspaceName) [] true
    ∅ (replyBuffer s) (activeReply s) (activeReplyBox s).

(** [displayChannelContent(channelName, posts, workspaceName, username)] *)
Definition displayChannelContent (channelName : string)
    (posts : list ViewPost) (workspaceName username : string) (s : t)
  : outcome * t :=
  let s0 := cleared channelName workspaceName s in
  let structuredPosts := fold_left add_structured posts [] in
  fold_left
    (λ (acc : outcome * t) (i : nat),
       match acc, structuredPosts !! i with
       | (Returned, sa), Some (post, _) =>
           if is_top_level post then
             match createNestedPosts (S (length structuredPosts))
                     structuredPosts i username channelName workspaceName
                     sa with
             | (Returned, sb, newPostElement) =>
                 append None (PostNode newPostElement) sb
             | (o, sb, _) => (o, sb)
             end
           else acc
       | _, _ => acc
       end)
    (seq 0 (length structuredPosts)) (Returned, s0).

(** Rendering a top-level post that has no children: its element is
    constructed, indexed and put at the end of the channel's list. *)
Definition display_root (channelName workspaceName username : string)
    (s : t) (post : ViewPost) : t :=
  let newPostElement := nextId s in
  let s1 := set_activePosts (<[path post := newPostElement]> (activePosts s))
              (alloc (PostElement.new (reactions (doc post)) (path post)
                        username channelName workspaceName
                        (createdAt (meta post))) s) in
  let s2 := detach (PostNode newPostElement) s1 in
  set_topLevelPosts (topLevelPosts s2 ++ [PostNode newPostElement]) s2.

(** *** What is on display *)

(** The post elements met when walking down from a node, in document
    order, each as often as it is met. *)
Fixpoint subtree (fuel : nat) (h : gmap nat PostElement.t) (n : Node)
  : list nat :=
  match n with
  | ReplyBoxNode _ => []
  | PostNode id =>
      id :: match fuel with
            | O => []
            | S fuel' =>
                match h !! id with
                | Some el => flat_map (subtree fuel' h) (PostElement.replies el)
                | None => []
                end
            end
  end.

(** The elements reachable from the roots of the channel's post list. *)
Definition displayed (s : t) : list nat :=
  flat_map (subtree (size (heap s)) (heap s)) (topLevelPosts s).

Definition path_of (s : t) (id : nat) : option string :=
  PostElement.postId <$> heap s !! id.

(** How often the post with a path is on display. *)
Definition times_displayed (p : string) (s : t) : nat :=
  length (filter (λ id, path_of s id = Some p) (displayed s)).

(** The paths of the post elements in a child list, in order. *)
Definition paths_of (s : t) (l : list Node) : list string :=
  omap (λ n, match n with
             | PostNode id => path_of s id
             | ReplyBoxNode _ => None
             end) l.

(** The creation date a child of a list shows, if it is a post element. *)
Definition date_of (h : gmap nat PostElement.t) (n : Node) : option Z :=
  match n with
  | PostNode id => PostElement.createdAt <$> h !! id
  | ReplyBoxNode _ => None
  end.

(** The creation dates of the post elements in a child list, in order. *)
Definition dates_of (h : gmap nat PostElement.t) (l : list Node) : list Z :=
  omap (date_of h) l.

(** The attributes of a post element that no operation writes. *)
Definition attrs (el : PostElement.t) : string * Z :=
  (PostElement.postId el, PostElement.createdAt el).

(** The list an insertion makes of the parent's list without the node:
    the node goes before [ref], or to the end when there is none. *)
Definition inserted (ref : option Node) (n : Node) (l0 : list Node)
  : list Node :=
  match ref with
  | Some r => place_before r n l0
  | None => l0 ++ [n]
  end.

(** *** Invariants of the state *)

Definition node_known (h : gmap nat PostElement.t) (n : Node) : Prop :=
  match n with
  | PostNode id => is_Some (h !! id)
  | ReplyBoxNode _ => True
  end.

(** A property of every child list: the channel's and each element's. *)
Definition every_list (P : list Node → Prop) (s : t) : Prop :=
  P (topLevelPosts s)
  ∧ map_Forall (λ _ el, P (PostElement.replies el)) (heap s).

(** Every reference names a constructed object: identities are below
    [nextId], and the child lists, the reply buffer and the active index
    hold constructed post elements only. *)
Definition well_formed (s : t) : Prop :=
  map_Forall (λ id _, (id < nextId s)%nat) (heap s)
  ∧ every_list (Forall (node_known (heap s))) s
  ∧ map_Forall (λ _ v, is_Some (heap s !! v)) (replyBuffer s)
  ∧ map_Forall (λ _ v, is_Some (heap s !! v)) (activePosts s).

(** P2: every child list is in non-decreasing order of creation date. *)
Definition chronological (s : t) : Prop :=
  every_list (λ l, StronglySorted Z.le (dates_of (heap s) l)) s.

#[global] Instance node_known_dec h n : Decision (node_known h n).
Proof. destruct n; simpl; apply _. Defined.

#[global] Instance every_list_dec (P : list Node → Prop)
    `{!∀ l, Decision (P l)} s : Decision (every_list P s).
Proof. unfold every_list. apply _. Defined.

#[global] Instance well_formed_dec s : Decision (well_formed s).
Proof. unfold well_formed. apply _. Defined.

#[global] Instance chronological_dec s : Decision (chronological s).
Proof. unfold chronological. apply _. Defined.

(** Whether a post element is a child of a parent. *)
Definition child_of (x : nat) (parentPost : option nat) (s : t) : Prop :=
  ∃ l, children parentPost s = Some l ∧ PostNode x ∈ l.




(** Delivering a run of updates, one [handleUpdate] each.  A handler
    that ends in an exception does not stop later events. *)
Definition deliver (channelName workspaceName username : string)
    (updates : list ViewPost) (s : t) : t :=
  fold_left (λ sa u, snd (handleUpdate channelName u workspaceName username sa))
    updates s.

End View.

(** ** [ErrorView]: the notification bar with its retry countdown *)

Module ErrorView.

(** An [Event] object is known by its name. *)
Definition Event := string.

Inductive ButtonName := CancelBtn | RetryBtn.

#[global] Instance ButtonName_eq_dec : EqDecision ButtonName.
Proof. solve_decision. Defined.

(** The three closures the class registers as click listeners or timer
    callbacks. *)
Inductive Handler :=
  | CloseHandler                      (* (e) => { e.stopPropagation(); this.close() } *)
  | AbortCloseHandler (reverseEvent : Event)
  | RetryHandler (event : Event).

Record Listener := mkListener {
  target : ButtonName;
  handler : Handler;
  signal : option nat                 (* the controller whose signal was given *)
}.

Record t := mkErrorView {
  errorMsg : string;                  (* errorMsg.innerText *)
  msg : string;
  shown : bool;                       (* errorBox.style.display is "flex" *)
  retryHidden : bool;
  cancelHidden : bool;
  timeoutId : option nat;
  controller : nat;                   (* identity of this.controller *)
  nextController : nat;
  listeners : list Listener;          (* click listeners still registered *)
  timeouts : list (nat * Event);      (* pending [setTimeout]s: id, event to retry *)
  intervals : list (nat * nat);       (* running [setInterval]s: id, timeRemaining *)
  nextTimer : nat;                    (* timer ids are positive and shared *)
  dispatched : list Event             (* document.dispatchEvent, oldest first *)
}.

(** The state after the constructor, for a bar that is not on display. *)
Definition init : t :=
  mkErrorView "" "" false false false None 0 1 [] [] [] 1 [].

(** [this.controller.abort()]: the listeners registered with its signal
    go away.  Timers take no signal. *)
Definition abort (s : t) : t :=
  mkErrorView (errorMsg s) (msg s) (shown s) (retryHidden s) (cancelHidden s)
    (timeoutId s) (controller s) (nextController s)
    (filter (λ l, signal l ≠ Some (controller s)) (listeners s))
    (timeouts s) (intervals s) (nextTimer s) (dispatched s).

(** [this.controller = new AbortController()] *)
Definition new_controller (s : t) : t :=
  mkErrorView (errorMsg s) (msg s) (shown s) (retryHidden s) (cancelHidden s)
    (timeoutId s) (nextController s) (S (nextController s))
    (listeners s) (timeouts s) (intervals s) (nextTimer s) (dispatched s).

Definition addEventListener (l : Listener) (s : t) : t :=
  mkErrorView (errorMsg s) (msg s) (shown s) (retryHidden s) (cancelHidden s)
    (timeoutId s) (controller s) (nextController s)
    (listeners s ++ [l])
    (timeouts s) (intervals s) (nextTimer s) (dispatched s).

Definition dispatchEvent (e : Event) (s : t) : t :=
  mkErrorView (errorMsg s) (msg s) (shown s) (retryHidden s) (cancelHidden s)
    (timeoutId s) (controller s) (nextController s) (listeners s)
    (timeouts s) (intervals s) (nextTimer s) (dispatched s ++ [e]).

Definition clearTimeout (id : nat) (s : t) : t :=
  mkErrorView (errorMsg s) (msg s) (shown s) (retryHidden s) (cancelHidden s)
    (timeoutId s) (controller s) (nextController s) (listeners s)
    (filter (λ p, fst p ≠ id) (timeouts s)) (intervals s) (nextTimer s)
    (dispatched s).

(** [close(reverseEvent)] *)
Definition close (reverseEvent : option Event) (s : t) : t :=
  let s1 := match reverseEvent with
            | Some e => dispatchEvent e s
            | None => s
            end in
  let s2 := match timeoutId s1 with
            | Some id => clearTimeout id s1
            | None => s1
            end in
  mkErrorView (errorMsg s2) (msg s2) false (retryHidden s2) (cancelHidden s2)
    (timeoutId s2) (controller s2) (nextController s2) (listeners s2)
    (timeouts s2) (intervals s2) (nextTimer s2) (dispatched s2).

(** [retry(event)] *)
Definition retry (event : Event) (s : t) : t :=
  close None (abort (dispatchEvent event s)).

(** [abortClose(event, reverseEvent)] *)
Definition abortClose (reverseEvent : Event) (s : t) : t :=
  close (Some reverseEvent) (abort s).

Definition run (h : Handler) (s : t) : t :=
  match h with
  | CloseHandler => close None s
  | AbortCloseHandler reverseEvent => abortClose reverseEvent s
  | RetryHandler event => retry event s
  end.

(** [show(msg)] *)
Definition show (m : string) (s : t) : t :=
  let s1 := new_controller (abort s) in
  let s2 :=
    mkErrorView m m true true (cancelHidden s1)
      (timeoutId s1) (controller s1) (nextController s1) (listeners s1)
      (timeouts s1) (intervals s1) (nextTimer s1) (dispatched s1) in
  addEventListener (mkListener CancelBtn CloseHandler None) s2.

(** [startCountdown(seconds)] *)
Definition startCountdown (seconds : nat) (s : t) : t :=
  mkErrorView (errorMsg s) (msg s) (shown s) (retryHidden s) (cancelHidden s)
    (timeoutId s) (controller s) (nextController s) (listeners s)
    (timeouts s) (intervals s ++ [(nextTimer s, seconds)]) (S (nextTimer s))
    (dispatched s).

(** [showRetriableError(event, msg, reverseEvent, secondsBeforeRetry)].
    The third argument of [setTimeout] is handed to the callback; it
    does not tie the timer to the signal. *)
Definition showRetriableError (event : Event) (m : string)
    (reverseEvent : Event) (secondsBeforeRetry : nat) (s : t) : t :=
  let s1 := new_controller (abort s) in
  let s2 :=
    mkErrorView m m true false false
      (timeoutId s1) (controller s1) (nextController s1) (listeners s1)
      (timeouts s1) (intervals s1) (nextTimer s1) (dispatched s1) in
  let s3 := addEventListener
              (mkListener CancelBtn (AbortCloseHandler reverseEvent)
                 (Some (controller s2))) s2 in
  let s4 := addEventListener
              (mkListener RetryBtn (RetryHandler event)
                 (Some (controller s3))) s3 in
  let s5 :=
    mkErrorView (errorMsg s4) (msg s4) (shown s4) (retryHidden s4)
      (cancelHidden s4)
      (Some (nextTimer s4)) (controller s4) (nextController s4) (listeners s4)
      (timeouts s4 ++ [(nextTimer s4, event)]) (intervals s4)
      (S (nextTimer s4)) (dispatched s4) in
  startCountdown secondsBeforeRetry s5.

(** A pending timeout comes due: it leaves the pending list and its
    callback, [retry] bound to its event, runs. *)
Definition fire_timeout (id : nat) (s : t) : t :=
  match List.find (λ p, Nat.eqb (fst p) id) (timeouts s) with
  | Some (_, event) =>
      retry event
        (mkErrorView (errorMsg s) (msg s) (shown s) (retryHidden s)
           (cancelHidden s) (timeoutId s) (controller s) (nextController s)
           (listeners s) (filter (λ p, fst p ≠ id) (timeouts s))
           (intervals s) (nextTimer s) (dispatched s))
  | None => s
  end.

(** One turn of the countdown started by [startCountdown]: at zero the
    interval clears itself, otherwise the message shows the seconds left. *)
Definition tick (id : nat) (s : t) : t :=
  match List.find (λ p, Nat.eqb (fst p) id) (intervals s) with
  | Some (_, timeRemaining) =>
      match timeRemaining with
      | O =>
          mkErrorView (errorMsg s) (msg s) (shown s) (retryHidden s)
            (cancelHidden s) (timeoutId s) (controller s) (nextController s)
            (listeners s) (timeouts s)
            (filter (λ p, fst p ≠ id) (intervals s))
            (nextTimer s) (dispatched s)
      | S rest =>
          mkErrorView
            (String.append (msg s)
               (String.append ". Retrying in "
                  (String.append (Js.index_name timeRemaining) " seconds")))
            (msg s) (shown s) (retryHidden s)
            (cancelHidden s) (timeoutId s) (controller s) (nextController s)
            (listeners s) (timeouts s)
            (map (λ p, if Nat.eqb (fst p) id then (id, rest) else p)
               (intervals s))
            (nextTimer s) (dispatched s)
      end
  | None => s
  end.

(** A click on a button runs the listeners registered on it at that
    moment, in order of registration. *)
Definition click (b : ButtonName) (s : t) : t :=
  fold_left (λ sa l, run (handler l) sa)
    (filter (λ l, target l = b) (listeners s)) s.

End ErrorView.

(** ** Concrete runs used below *)

Module Scenario.

Import View.

Definition post (p : string) (parent : option string) (date : Z)
    (author : string) : ViewPost :=
  mkViewPost p (mkDoc "hello" parent None false) (mkMeta date author date author).

(** A top-level post and two replies to it. *)
Definition p1 : ViewPost := post "/w/channels/c/posts/p1" None 0 "bob".
Definition r1 : ViewPost :=
  post "/w/channels/c/posts/r1" (Some "/w/channels/c/posts/p1"%string) 5 "bob".
Definition r2 : ViewPost :=
  post "/w/channels/c/posts/r2" (Some "/w/channels/c/posts/p1"%string) 6 "carol".


Definition run (updates : list ViewPost) : t :=
  deliver "c" "w" "alice" updates init.

(** Both replies arrive before their parent. *)
Definition two_orphans : t := run [r1; r2; p1].




(** A channel of one post and one reply, loaded in one go. *)
Definition loaded : outcome * t :=
  displayChannelContent "c" [p1; r1] "w" "alice" init.

(** A channel with a post on display, a reply editor open on it and an
    orphan waiting; then another channel is loaded. *)
Definition before_switch : t :=
  snd (replyModeOn "/w/channels/c/posts/p1" "c" "w"
         (run [p1; post "/w/channels/c/posts/r9"
                     (Some "/w/channels/c/posts/p9"%string) 9 "bob"])).

Definition after_switch : outcome * t :=
  displayChannelContent "d" [] "w" "alice" before_switch.

(** The user clicks the reaction button of kind [k] on the element [id]. *)
Definition user_clicks (k : PostElement.ReactionKind) (id : nat) (s : t) : t :=
  set_heap (alter (λ el, fst (PostElement.click k el)) id (heap s)) s.

(** A patch of [p1] that reports nobody under smile. *)
Definition p1_nobody_smiles : ViewPost :=
  mkViewPost "/w/channels/c/posts/p1"
    (mkDoc "hello" None
       (Some (PostElement.mkReactions (Some []) None None None)) false)
    (mkMeta 0 "bob" 1 "alice").

Definition clicked_smile : t := user_clicks PostElement.Smile 0 (run [p1]).

Definition stale_patch_after_click : outcome * t :=
  handleUpdate "c" p1_nobody_smiles "w" "alice" clicked_smile.

(** Scenario A: three top-level posts, the middle one arriving last. *)
Definition a1 : ViewPost := post "/w/channels/c/posts/a1" None 0 "bob".
Definition a2 : ViewPost := post "/w/channels/c/posts/a2" None 10 "bob".
Definition a3 : ViewPost := post "/w/channels/c/posts/a3" None 20 "bob".

Definition a2_element : PostElement.t :=
  PostElement.new None (path a2) "alice" "c" "w" 10.

(** The state in which [handleUpdate] calls [insertPost] for [a2]. *)
Definition placing_a2 : t :=
  set_activePosts (<[path a2 := 2%nat]> (activePosts (run [a1; a3])))
    (alloc a2_element (run [a1; a3])).

(** Two requests fail one after the other while the first banner still
    counts down. *)
Definition two_banners : ErrorView.t :=
  ErrorView.showRetriableError "reactEvent" "Server not responding" "" 10
    (ErrorView.showRetriableError "createPostEvent" "Server not responding"
       "" 10 ErrorView.init).

(** A plain message replaces a banner that still counts down. *)
Definition banner_then_show : ErrorView.t :=
  ErrorView.show "Channel not found in server"
    (ErrorView.showRetriableError "createPostEvent" "Server not responding"
       "" 10 ErrorView.init).

End Scenario.

(** ** The body of a post: [PostElement.parseMessage] and [escapeHtml] *)

Module Message.

(** A text is the sequence of the bytes of its UTF-8 encoding.  The
    characters the patterns and replacements of this file name are all
    ASCII, one byte each, and no byte of a longer character is an ASCII
    byte. *)

(** Line feed and carriage return. *)
Definition lf : ascii := ascii_of_nat 10.
Definition cr : ascii := ascii_of_nat 13.

(** The line separator U+2028 and the paragraph separator U+2029. *)
Definition line_separator : string :=
  String (ascii_of_nat 226) (String (ascii_of_nat 128)
    (String (ascii_of_nat 168) EmptyString)).
Definition paragraph_separator : string :=
  String (ascii_of_nat 226) (String (ascii_of_nat 128)
    (String (ascii_of_nat 169) EmptyString)).

(** The line terminators of the language. *)
Definition line_terminators : list string :=
  [ Js.str1 lf; Js.str1 cr; line_separator; paragraph_separator ].

Definition quoted (s : string) : string :=
  String Js.dquote (s +:+ Js.str1 Js.dquote).

Fixpoint drop_chars (n : nat) (s : string) : string :=
  match n, s with
  | S k, String _ rest => drop_chars k rest
  | _, _ => s
  end.

(** [text.replace(/c/g, by)] for a pattern that is one literal
    character. *)
Fixpoint replace_char (c : ascii) (by_text : string) (text : string)
  : string :=
  match text with
  | EmptyString => EmptyString
  | String a rest =>
      if Ascii.eqb a c then by_text +:+ replace_char c by_text rest
      else String a (replace_char c by_text rest)
  end.

(** [escapeHtml(text)] *)
Definition escapeHtml (text : string) : string :=
  replace_char "'" "&#039;"
    (replace_char Js.dquote "&quot;"
       (replace_char ">" "&gt;"
          (replace_char "<" "&lt;"
             (replace_char "&" "&amp;" text)))).

(** [text.replace(re, ...)] with the [g] flag, for a pattern that never
    matches the empty string and looks at nothing before the place it
    is tried at.  [match_here s] tells whether the pattern matches at
    the start of [s]: the text that takes the place of the match and the
    number of characters the match spans.  The scan goes from left to
    right and starts again right after a match; [skip] counts the
    characters of the last match that are still to be passed over. *)
Fixpoint replace_matches (match_here : string -> option (string * nat))
    (skip : nat) (text : string) : string :=
  match text with
  | EmptyString => EmptyString
  | String a rest =>
      match skip with
      | S k => replace_matches match_here k rest
      | O =>
          match match_here text with
          | Some (replacement, span) =>
              replacement +:+ replace_matches match_here (pred span) rest
          | None => String a (replace_matches match_here O rest)
          end
      end
  end.

(** Whether [.] matches the character a text starts with: a pattern
    without the [s] flag matches every character but a line
    terminator. *)
Definition dot (s : string) : bool :=
  negb (existsb (fun t => String.prefix t s) line_terminators).

Arguments dot : simpl never.

(** [(.+?)] followed by the literal [stop]: the shortest run of one or
    more [.] characters at the start of [s] that [stop] follows. *)
Fixpoint lazy_until (stop : string) (s : string) : option string :=
  match s with
  | EmptyString => None
  | String c rest =>
      if dot s then
        if String.prefix stop rest then Some (Js.str1 c)
        else String c <$> lazy_until stop rest
      else None
  end.

(** [/\*\*(.+?)\*\*/] and [/\*(.+?)\*/] with the replacements
    ["<strong>$1</strong>"] and ["<em>$1</em>"]: a delimiter, the
    group, the delimiter again. *)
Definition delimited (delim open_tag close_tag : string) (s : string)
  : option (string * nat) :=
  if String.prefix delim s then
    match lazy_until delim (drop_chars (String.length delim) s) with
    | Some group =>
        Some (open_tag +:+ group +:+ close_tag,
              (2 * String.length delim + String.length group)%nat)
    | None => None
    end
  else None.

(** [(.+?)\]\((.+?)\)]: the text and the address of a link, for [s] the
    characters after the opening bracket.  The text is the shortest run
    after which the rest of the pattern matches. *)
Fixpoint link_parts (s : string) : option (string * string) :=
  match s with
  | EmptyString => None
  | String c rest =>
      if dot s then
        match (if String.prefix "](" rest
               then lazy_until ")" (drop_chars 2 rest) else None) with
        | Some url => Some (Js.str1 c, url)
        | None =>
            match link_parts rest with
            | Some (text, url) => Some (String c text, url)
            | None => None
            end
        end
      else None
  end.

Definition lower (c : ascii) : ascii :=
  let n := nat_of_ascii c in
  if (65 <=? n)%nat && (n <=? 90)%nat then ascii_of_nat (n + 32) else c.

Fixpoint lower_string (s : string) : string :=
  match s with
  | EmptyString => EmptyString
  | String c rest => String (lower c) (lower_string rest)
  end.

(** [/^https?:\/\//i.test(url)] *)
Definition has_scheme (url : string) : bool :=
  String.prefix "http://" (lower_string url)
  || String.prefix "https://" (lower_string url).

(** The callback of the link replacement. *)
Definition anchor (text url : string) : string :=
  let url := if has_scheme url then url else "http://" +:+ url in
  "<a href=" +:+ quoted url +:+ " target=" +:+ quoted "_blank" +:+ ">"
  +:+ text +:+ "</a>".

(** [/\[(.+?)\]\((.+?)\)/] with its callback. *)
Definition link (s : string) : option (string * nat) :=
  match s with
  | String "[" rest =>
      match link_parts rest with
      | Some (text, url) =>
          Some (anchor text url,
                (4 + String.length text + String.length url)%nat)
      | None => None
      end
  | _ => None
  end.

(** A pattern that is a literal text, such as [/:smile:/]. *)
Definition literal (pattern by_text : string) (s : string)
  : option (string * nat) :=
  if String.prefix pattern s then Some (by_text, String.length pattern)
  else None.

Definition icon (name : string) : string :=
  "<iconify-icon icon=" +:+ quoted name +:+ " width=" +:+ quoted "1.25em"
  +:+ " height=" +:+ quoted "1.25em" +:+ "></iconify-icon>".

(** [parseMessage(message)] *)
Definition parseMessage (message : string) : string :=
  let escapedText := escapeHtml message in
  let escapedText := replace_char lf "<br>" escapedText in
  let escapedText :=
    replace_matches (delimited "**" "<strong>" "</strong>") 0 escapedText in
  let escapedText :=
    replace_matches (delimited "*" "<em>" "</em>") 0 escapedText in
  let escapedText := replace_matches link 0 escapedText in
  let escapedText :=
    replace_matches (literal ":smile:" (icon "fa-regular:smile")) 0
      escapedText in
  let escapedText :=
    replace_matches (literal ":frown:" (icon "fa-regular:frown")) 0
      escapedText in
  let escapedText :=
    replace_matches (literal ":like:" (icon "mdi:like")) 0 escapedText in
  let escapedText :=
    replace_matches (literal ":celebrate:" (icon "mingcute:celebrate-fill")) 0
      escapedText in
  escapedText.

(** *** Vocabulary of the properties *)

(** The characters [escapeHtml] replaces. *)
Definition html_special (c : ascii) : Prop :=
  c = "&"%char \/ c = "<"%char \/ c = ">"%char \/ c = Js.dquote
  \/ c = "'"%char.

(** What [escapeHtml] makes of one character. *)
Definition escaped_char (a : ascii) : string := escapeHtml (Js.str1 a).

(** A text that holds no line terminator. *)
Fixpoint one_line (x : string) : bool :=
  match x with
  | EmptyString => true
  | String _ rest => dot x && one_line rest
  end.

(** A character that occurs in no line terminator. *)
Definition plain_char (d : ascii) : Prop :=
  Forall (fun t => Forall (fun c => c <> d) (list_ascii_of_string t))
    line_terminators.

(** A character no step of [parseMessage] reacts to. *)
Definition inert (c : ascii) : Prop :=
  ~ html_special c /\ c <> lf /\ c <> "*"%char /\ c <> "["%char
  /\ c <> ":"%char.

Definition all_chars (P : ascii -> Prop) (s : string) : Prop :=
  Forall P (list_ascii_of_string s).

(** The code of a reaction in a message and the icon shown for it. *)
Definition reaction_code (k : PostElement.ReactionKind) : string :=
  ":" +:+ PostElement.button_id k +:+ ":".

Definition reaction_icon (k : PostElement.ReactionKind) : string :=
  match k with
  | PostElement.Smile => icon "fa-regular:smile"
  | PostElement.Frown => icon "fa-regular:frown"
  | PostElement.Like => icon "mdi:like"
  | PostElement.Celebrate => icon "mingcute:celebrate-fill"
  end.

(** The texts with which the tags that [parseMessage] writes start. *)
Definition tag_openers : list string :=
  [ "<br>"; "<strong>"; "</strong>"; "<em>"; "</em>";
    "<a href=" +:+ Js.str1 Js.dquote; "</a>";
    "<iconify-icon icon=" +:+ Js.str1 Js.dquote; "</iconify-icon>" ].

(** Whether every [<] of a text is the first character of one of these
    openers. *)
Fixpoint tags_ok (s : string) : bool :=
  match s with
  | EmptyString => true
  | String c rest =>
      (if Ascii.eqb c "<"
       then existsb (fun t => String.prefix t s) tag_openers
       else true)
      && tags_ok rest
  end.

(** The same, as a way to read the text from left to right: characters
    other than [<], and openers. *)
Inductive tags_known : string -> Prop :=
  | tags_nil : tags_known ""
  | tags_char (c : ascii) (s : string) :
      c <> "<"%char -> tags_known s -> tags_known (String c s)
  | tags_opener (t s : string) :
      In t tag_openers -> tags_known s -> tags_known (t +:+ s).

(** A pattern that can only match at a given first character. *)
Definition starts_with (c : ascii)
    (match_here : string -> option (string * nat)) : Prop :=
  forall a rest, a <> c -> match_here (String a rest) = None.

(** A character that occurs in an opener. *)
Definition opener_char (d : ascii) : Prop :=
  Exists (fun t => d ∈ list_ascii_of_string t) tag_openers.

#[global] Instance opener_char_dec d : Decision (opener_char d).
Proof. unfold opener_char. apply _. Defined.

#[global] Instance html_special_dec c : Decision (html_special c).
Proof. unfold html_special. apply _. Defined.

#[global] Instance inert_dec c : Decision (inert c).
Proof. unfold inert. apply _. Defined.

#[global] Instance plain_char_dec d : Decision (plain_char d).
Proof. unfold plain_char. apply _. Defined.

#[global] Instance all_chars_dec (P : ascii -> Prop)
    `{!forall c, Decision (P c)} s : Decision (all_chars P s).
Proof. unfold all_chars. apply _. Defined.

End Message.

(** ** The text areas of [ChannelContent] and [ReplyBox] *)

Module Textarea.

Import View.

(** An [HTMLTextAreaElement]: its value and its selection.  A caret is
    a selection of no characters. *)
Record t := mkTextarea {
  value : string;
  selectionStart : nat;
  selectionEnd : nat;
  disabled : bool
}.

Fixpoint take_chars (n : nat) (s : string) : string :=
  match n, s with
  | S k, String c rest => String c (take_chars k rest)
  | _, _ => EmptyString
  end.

(** [s.substring(a, b)]: both ends are brought into the text and put in
    order. *)
Definition substring (a b : nat) (s : string) : string :=
  let a := Nat.min a (String.length s) in
  let b := Nat.min b (String.length s) in
  take_chars (Nat.max a b - Nat.min a b)
    (Message.drop_chars (Nat.min a b) s).

(** [input.value = v]: the caret goes to the end of the new text. *)
Definition set_value (v : string) (ta : t) : t :=
  mkTextarea v (String.length v) (String.length v) (disabled ta).

(** [input.setRangeText(replacement, start, end, "end")] *)
Definition setRangeText (replacement : string) (start end_ : nat) (ta : t)
  : outcome * t :=
  if (end_ <? start)%nat then (Threw "IndexSizeError", ta)
  else
    let start := Nat.min start (String.length (value ta)) in
    let end_ := Nat.min end_ (String.length (value ta)) in
    let newEnd := (start + String.length replacement)%nat in
    (Returned,
     mkTextarea
       (take_chars start (value ta) +:+ replacement
        +:+ Message.drop_chars end_ (value ta))
       newEnd newEnd (disabled ta)).

(** [input.setSelectionRange(start, end)] *)
Definition setSelectionRange (start end_ : nat) (ta : t) : t :=
  let start := Nat.min start (String.length (value ta)) in
  let end_ := Nat.min end_ (String.length (value ta)) in
  mkTextarea (value ta) start (Nat.max end_ start) (disabled ta).

(** [insertFormatting(symbol)] of [ChannelContent], and of [ReplyBox]
    with its own text area. *)
Definition insertFormatting (symbol : string) (input : t) : outcome * t :=
  let start := selectionStart input in
  let end_ := selectionEnd input in
  let selectedText := substring start end_ (value input) in
  if negb (String.eqb selectedText "") then
    let newText := symbol +:+ selectedText +:+ symbol in
    match setRangeText newText start end_ input with
    | (Returned, input1) =>
        let cursorPosition := (start + String.length newText)%nat in
        (Returned, setSelectionRange cursorPosition cursorPosition input1)
    | r => r
    end
  else
    let newText := symbol +:+ symbol in
    match setRangeText newText start start input with
    | (Returned, input1) =>
        let cursorPosition := (start + String.length symbol)%nat in
        (Returned, setSelectionRange cursorPosition cursorPosition input1)
    | r => r
    end.

(** [insertAtCursor(text)] *)
Definition insertAtCursor (text : string) (input : t) : outcome * t :=
  let start := selectionStart input in
  let end_ := selectionEnd input in
  match setRangeText text start end_ input with
  | (Returned, input1) =>
      let cursorPosition := (start + String.length text)%nat in
      (Returned, setSelectionRange cursorPosition cursorPosition input1)
  | r => r
  end.

(** [handleLinkClick] and [handleReplyLinkClick] *)
Definition handleLinkClick (input : t) : outcome * t :=
  let start := selectionStart input in
  let end_ := selectionEnd input in
  let selectedText := substring start end_ (value input) in
  if negb (String.eqb selectedText "") then
    let newText := "[" +:+ selectedText +:+ "]()" in
    match setRangeText newText start end_ input with
    | (Returned, input1) =>
        let cursorPosition := (start + String.length newText - 1)%nat in
        (Returned, setSelectionRange cursorPosition cursorPosition input1)
    | r => r
    end
  else
    let newText := "[]()" in
    match setRangeText newText start start input with
    | (Returned, input1) =>
        let cursorPosition := (start + 1)%nat in
        (Returned, setSelectionRange cursorPosition cursorPosition input1)
    | r => r
    end.

(** The handlers of the formatting and reaction buttons. *)
Definition handleBoldClick : t -> outcome * t := insertFormatting "**".
Definition handleItalicClick : t -> outcome * t := insertFormatting "*".
Definition handleReactionClick (k : PostElement.ReactionKind)
  : t -> outcome * t :=
  insertAtCursor (Message.reaction_code k).

(** A text area whose selection is [selected], with [before] in front
    of it and [after] behind. *)
Definition selecting (before selected after : string) (off : bool) : t :=
  mkTextarea (before +:+ selected +:+ after) (String.length before)
    (String.length before + String.length selected) off.

(** A text area with the caret at a place. *)
Definition caret_at (text : string) (place : nat) (off : bool) : t :=
  mkTextarea text place place off.

End Textarea.

(** ** Sending a post or a reply *)

Module Composer.

(** What [createPost], [createReply] and [quitReply] are registered
    for: clicks, and key presses in the text area. *)
Inductive UiEvent :=
  | MouseEvent
  | KeyboardEvent (key : string) (shiftKey : bool).

(** The events these components dispatch on [document]. *)
Inductive Dispatched :=
  | CreatePostEvent (postMsg channelName workspaceName : string)
  | CreateReplyEvent (postMsg channelName workspaceName parent : string)
  | ReplyModeOffEvent (postId : string).

(** The fields of a [ChannelContent] that [createPost] reads or
    writes. *)
Record ChannelContent := mkChannelContent {
  inputBox : Textarea.t;
  channelTitle : string;            (* channelTitle.textContent *)
  workspaceTitle : string
}.

(** The fields of a [ReplyBox] that [createReply] and [quitReply] read
    or write. *)
Record ReplyBox := mkReplyBox {
  replyInputBox : Textarea.t;
  parentPost : string;
  channelName : string;
  workspaceName : string;
  replyQuitBtn_disabled : bool
}.

(** The first test of [createPost] and [createReply]: a key press that
    is not a plain Enter. *)
Definition other_key (event : UiEvent) : bool :=
  match event with
  | KeyboardEvent key shiftKey => shiftKey || negb (String.eqb key "Enter")
  | MouseEvent => false
  end.

(** A click, or Enter without shift. *)
Definition sends (event : UiEvent) : Prop :=
  event = MouseEvent \/ event = KeyboardEvent "Enter" false.

(** [createPost(event)]: the component after the call and what was
    dispatched. *)
Definition createPost (event : UiEvent) (c : ChannelContent)
  : ChannelContent * list Dispatched :=
  if other_key event then (c, [])
  else if String.eqb (Textarea.value (inputBox c)) "" then (c, [])
  else
    let createPostEvent :=
      CreatePostEvent (Textarea.value (inputBox c)) (channelTitle c)
        (workspaceTitle c) in
    (mkChannelContent (Textarea.set_value "" (inputBox c)) (channelTitle c)
       (workspaceTitle c),
     [createPostEvent]).

(** [createReply(event)] *)
Definition createReply (event : UiEvent) (b : ReplyBox)
  : ReplyBox * list Dispatched :=
  if other_key event || Textarea.disabled (replyInputBox b) then (b, [])
  else if String.eqb (Textarea.value (replyInputBox b)) "" then (b, [])
  else
    let createReplyEvent :=
      CreateReplyEvent (Textarea.value (replyInputBox b)) (channelName b)
        (workspaceName b) (parentPost b) in
    (mkReplyBox (Textarea.set_value "" (replyInputBox b)) (parentPost b)
       (channelName b) (workspaceName b) (replyQuitBtn_disabled b),
     [createReplyEvent]).

(** [quitReply(event)] *)
Definition quitReply (b : ReplyBox) : ReplyBox * list Dispatched :=
  if replyQuitBtn_disabled b then (b, [])
  else
    (mkReplyBox (replyInputBox b) (parentPost b) (channelName b)
       (workspaceName b) true,
     [ReplyModeOffEvent (parentPost b)]).

(** A run of clicks on the quit button. *)
Fixpoint quit_clicks (n : nat) (b : ReplyBox) : ReplyBox * list Dispatched :=
  match n with
  | O => (b, [])
  | S k =>
      let '(b1, d1) := quitReply b in
      let '(b2, d2) := quit_clicks k b1 in
      (b2, d1 ++ d2)
  end.

End Composer.

(** ** The side lists of workspaces and channels *)

Module ContainerList.

Import ContainerItem View.

(** *** The other methods of [ContainerItem]

    The [hidden] flags of the error icon and of the trash and confirm
    buttons are not among the fields of the model, and neither is the
    class [show] of the item itself; the writes to them are left out. *)

(** [new ContainerItem(type)], with [uuid] for what
    [crypto.randomUUID()] returns.  The icon has no [data-icon] yet,
    shown as the empty text. *)
Definition new (ty : ContainerType) (uuid : string) : ContainerItem.t :=
  mkItem ty false "" uuid 0 false false "" true false "" false true false
    "" false false "" false 0 false 0 false.

(** [setParentName(name)] *)
Definition setParentName (name : string) (it : ContainerItem.t)
  : ContainerItem.t :=
  mkItem (type it) (disabled it) name (data_id it) (tabIndex it)
    (class_waiting it) (class_spinner it)
    (input_value it) (input_hidden it) (input_class_error it)
    (label_text it) (label_hidden it)
    (inputBox_hidden it) (inputBox_class_show it)
    (errorDisplay it) (dismissBtn_class_show it) (errorIcon_class_show it)
    (errorIcon_icon it)
    (trashBtn_disabled it) (trashBtn_tabIndex it)
    (createBtn_disabled it) (createBtn_tabIndex it) (removed it).

(** [containerNameLabel.textContent = text] *)
Definition set_label (text : string) (it : ContainerItem.t)
  : ContainerItem.t :=
  mkItem (type it) (disabled it) (parentName it) (data_id it) (tabIndex it)
    (class_waiting it) (class_spinner it)
    (input_value it) (input_hidden it) (input_class_error it)
    text (label_hidden it)
    (inputBox_hidden it) (inputBox_class_show it)
    (errorDisplay it) (dismissBtn_class_show it) (errorIcon_class_show it)
    (errorIcon_icon it)
    (trashBtn_disabled it) (trashBtn_tabIndex it)
    (createBtn_disabled it) (createBtn_tabIndex it) (removed it).

(** The user types into the input. *)
Definition type_text (v : string) (it : ContainerItem.t) : ContainerItem.t :=
  mkItem (type it) (disabled it) (parentName it) (data_id it) (tabIndex it)
    (class_waiting it) (class_spinner it)
    v (input_hidden it) (input_class_error it)
    (label_text it) (label_hidden it)
    (inputBox_hidden it) (inputBox_class_show it)
    (errorDisplay it) (dismissBtn_class_show it) (errorIcon_class_show it)
    (errorIcon_icon it)
    (trashBtn_disabled it) (trashBtn_tabIndex it)
    (createBtn_disabled it) (createBtn_tabIndex it) (removed it).

(** [getName()]: the label's text; a label's [textContent] is never
    [null]. *)
Definition getName (it : ContainerItem.t) : string := label_text it.

(** [enableItem()].  The [tabIndex] of the item and of the edit button,
    which [disableItem] set to [-1], are not written. *)
Definition enableItem (it : ContainerItem.t) : ContainerItem.t :=
  let it := mkItem (type it) false (parentName it) (data_id it) (tabIndex it)
              false false
              (input_value it) (input_hidden it) (input_class_error it)
              (label_text it) (label_hidden it)
              (inputBox_hidden it) (inputBox_class_show it)
              (errorDisplay it) (dismissBtn_class_show it)
              (errorIcon_class_show it) (errorIcon_icon it)
              (trashBtn_disabled it) (trashBtn_tabIndex it)
              (createBtn_disabled it) (createBtn_tabIndex it) (removed it) in
  let it := removeError it in
  mkItem (type it) (disabled it) (parentName it) (data_id it) (tabIndex it)
    (class_waiting it) (class_spinner it)
    (input_value it) (input_hidden it) (input_class_error it)
    (label_text it) (label_hidden it)
    (inputBox_hidden it) (inputBox_class_show it)
    (errorDisplay it) (dismissBtn_class_show it) (errorIcon_class_show it)
    (errorIcon_icon it)
    false 0 false (createBtn_tabIndex it) (removed it).

(** [create(event)]: the editor is opened and the label emptied. *)
Definition create (it : ContainerItem.t) : ContainerItem.t :=
  mkItem (type it) (disabled it) (parentName it) (data_id it) (tabIndex it)
    (class_waiting it) (class_spinner it)
    (input_value it) false (input_class_error it)
    "" (label_hidden it)
    false true
    (errorDisplay it) (dismissBtn_class_show it) (errorIcon_class_show it)
    (errorIcon_icon it)
    (trashBtn_disabled it) (trashBtn_tabIndex it)
    (createBtn_disabled it) (createBtn_tabIndex it) (removed it).

(** [clickEditBtn()]: [createBtn.click()] runs [create] unless the
    button is disabled. *)
Definition clickEditBtn (it : ContainerItem.t) : ContainerItem.t :=
  if createBtn_disabled it then it else create it.

(** The detail of the event an item dispatches for itself. *)
Definition own_event (kind : string) (it : ContainerItem.t) : CustomEvent :=
  match type it with
  | Workspace =>
      mkEvent (kind +:+ "WorkspaceEvent") (label_text it) "" (data_id it)
  | Channel =>
      mkEvent (kind +:+ "ChannelEvent") (parentName it) (label_text it)
        (data_id it)
  end.

(** [delete(event)], for a click that reaches the trash button (a
    disabled button gets none). *)
Definition delete (it : ContainerItem.t) : ContainerItem.t * list CustomEvent :=
  if disabled it then (it, [])
  else if negb (input_hidden it) then (remove it, [])
  else
    let it1 := disableItem (removeError it) in
    (it1, [own_event "delete" it]).

(** [selectContainer()] *)
Definition selectContainer (it : ContainerItem.t) : list CustomEvent :=
  if negb (input_hidden it) then []
  else [own_event "select" it].

(** *** The lists of the view *)

(** A child of a list: an item, or the paragraph that
    [workspacesError] and [channelError] put there. *)
Inductive Child :=
  | Item (it : ContainerItem.t)
  | Paragraph (message : string).

Record t := mkLists {
  workspaceList : list Child;
  channelList : list Child;
  nextUuid : nat                   (* the next [crypto.randomUUID()] *)
}.

Definition uuid (n : nat) : string := Js.index_name n.

(** [s.split("/")] *)
Fixpoint split (sep : ascii) (s : string) : list string :=
  match s with
  | EmptyString => [EmptyString]
  | String c rest =>
      if Ascii.eqb c sep then EmptyString :: split sep rest
      else match split sep rest with
           | seg :: segs => String c seg :: segs
           | [] => [String c EmptyString]
           end
  end.

(** [path.split("/")[n]], [None] for [undefined]. *)
Definition segment (n : nat) (path : string) : option string :=
  split "/" path !! n.

(** [name !== existing.getName()] for a name that may be [undefined]. *)
Definition differs (name : option string) (existing : string) : bool :=
  match name with
  | Some n => negb (String.eqb n existing)
  | None => true
  end.

(** The first loop of [displayAllWorkspaces] and of
    [displayAllChannels]: [i] walks the children next to [names] (the
    fourth segment of each path); a child with another name is removed
    and [i] stays, since [i--] undoes the loop's [i++].  [message] is
    what is thrown for a child that is no item. *)
Fixpoint keep_matching (fuel : nat) (message : string)
    (names : list (option string)) (i : nat) (children : list Child)
  : outcome * (nat * list Child) :=
  match fuel with
  | O => (Stuck, (i, children))
  | S fuel' =>
      if (i <? Nat.min (length children) (length names))%nat then
        match children !! i, names !! i with
        | Some (Item existing), Some name =>
            if differs name (getName existing)
            then keep_matching fuel' message names i
                   (base.delete i children)
            else keep_matching fuel' message names (S i) children
        | Some (Paragraph _), _ => (Threw message, (i, children))
        | _, _ => (Stuck, (i, children))
        end
      else (Returned, (i, children))
  end.

(** The last loop: the children from [i] on are removed. *)
Fixpoint remove_extras (fuel : nat) (i : nat) (children : list Child)
  : outcome * list Child :=
  match fuel with
  | O => (Stuck, children)
  | S fuel' =>
      if (i <? length children)%nat then
        match children !! i with
        | Some (Item _) => remove_extras fuel' i (base.delete i children)
        | Some (Paragraph _) => (Threw "channel not found", children)
        | None => (Stuck, children)
        end
      else (Returned, children)
  end.

(** The middle loop: an item is appended for each of [labels], which
    are [undefined] where the path has no such segment; the label then
    shows the empty text. *)
Fixpoint append_new (ty : ContainerType) (parent : option string)
    (labels : list (option string)) (next : nat) (children : list Child)
  : nat * list Child :=
  match labels with
  | [] => (next, children)
  | label :: rest =>
      let item := new ty (uuid next) in
      let item := match parent with
                  | Some name => setParentName name item
                  | None => item
                  end in
      let item := set_label (default ""%string label) item in
      append_new ty parent rest (S next) (children ++ [Item item])
  end.

(** The body shared by [displayAllWorkspaces] and [displayAllChannels]. *)
Definition display_all (ty : ContainerType) (message : string)
    (parent : option string) (label_segment : nat) (paths : list string)
    (next : nat) (children : list Child) : outcome * (nat * list Child) :=
  let names := segment 3 <$> paths in
  match keep_matching (S (length children)) message names 0 children with
  | (Returned, (i, children1)) =>
      if (i <? length paths)%nat then
        (Returned,
         append_new ty parent (drop i (segment label_segment <$> paths))
           next children1)
      else if (i <? length children1)%nat then
        match remove_extras (S (length children1)) i children1 with
        | (o, children2) => (o, (next, children2))
        end
      else (Returned, (next, children1))
  | (o, (_, children1)) => (o, (next, children1))
  end.

(** [displayAllWorkspaces(workspaces)], for the paths of the
    workspaces. *)
Definition displayAllWorkspaces (workspaces : list string) (s : t)
  : outcome * t :=
  match display_all Workspace "workspace not found[object HTMLParagraphElement]"
          None 1 workspaces (nextUuid s) (workspaceList s) with
  | (o, (next, children)) => (o, mkLists children (channelList s) next)
  end.

(** [displayAllChannels(channels, workspaceName)] *)
Definition displayAllChannels (channels : list string) (workspaceName : string)
    (s : t) : outcome * t :=
  match display_all Channel "channel not found" (Some workspaceName) 3
          channels (nextUuid s) (channelList s) with
  | (o, (next, children)) => (o, mkLists (workspaceList s) children next)
  end.

(** [list.querySelector(`[data-id="${uuid}"]`)]: the place of the first
    child with this [data-id].  The items keep their own elements in
    shadow trees, which the search does not enter, and a paragraph has
    no [data-id].  The identifier is written between the quotes of the
    selector as it is: this is the search for an identifier that needs
    no escaping there ([uuid_text] below). *)
Fixpoint find_child (id : string) (children : list Child)
  : option (nat * ContainerItem.t) :=
  match children with
  | [] => None
  | Item it :: rest =>
      if String.eqb (data_id it) id then Some (O, it)
      else (fun p : nat * ContainerItem.t => (S (fst p), snd p))
             <$> find_child id rest
  | Paragraph _ :: rest =>
      (fun p : nat * ContainerItem.t => (S (fst p), snd p))
        <$> find_child id rest
  end.

Definition is_type (ty : ContainerType) (it : ContainerItem.t) : bool :=
  match ty, type it with
  | Workspace, Workspace | Channel, Channel => true
  | _, _ => false
  end.

(** What [updateWorkspace], [reopenWorkspace], [deleteWorkspace] and
    their channel counterparts share: the item is looked up and must be
    of the list's type; [act] then gives what takes its place, [None]
    for removal. *)
Definition with_item (ty : ContainerType) (message : string) (id : string)
    (act : ContainerItem.t -> option ContainerItem.t)
    (children : list Child) : outcome * list Child :=
  match find_child id children with
  | Some (i, it) =>
      if is_type ty it then
        (Returned,
         match act it with
         | Some it' => <[i := Item it']> children
         | None => base.delete i children
         end)
      else (Threw message, children)
  | None => (Threw message, children)
  end.

Definition on_workspaces (r : list Child -> outcome * list Child) (s : t)
  : outcome * t :=
  match r (workspaceList s) with
  | (o, children) => (o, mkLists children (channelList s) (nextUuid s))
  end.

Definition on_channels (r : list Child -> outcome * list Child) (s : t)
  : outcome * t :=
  match r (channelList s) with
  | (o, children) => (o, mkLists (workspaceList s) children (nextUuid s))
  end.

(** [if (msg) item.showError(msg)] *)
Definition show_message (m : option string) (it : ContainerItem.t)
  : ContainerItem.t :=
  if truthy m then showError (default ""%string m) it else it.

Definition updateWorkspace (id : string) (m : option string)
  : t -> outcome * t :=
  on_workspaces
    (with_item Workspace "in View, workspace not found" id
       (fun it => Some (show_message m (enableItem it)))).

Definition updateChannel (id : string) (m : option string)
  : t -> outcome * t :=
  on_channels
    (with_item Channel "in View, channel not found" id
       (fun it => Some (show_message m (enableItem it)))).

Definition reopenWorkspace (id errorMsg : string) : t -> outcome * t :=
  on_workspaces
    (with_item Workspace "in View, workspace not found" id
       (fun it => Some (showError errorMsg (clickEditBtn (enableItem it))))).

Definition reopenChannel (id errorMsg : string) : t -> outcome * t :=
  on_channels
    (with_item Channel "in View, workspace not found" id
       (fun it => Some (showError errorMsg (clickEditBtn (enableItem it))))).

Definition deleteWorkspace (id : string) : t -> outcome * t :=
  on_workspaces
    (with_item Workspace "in View, workspace not found" id (fun _ => None)).

Definition deleteChannel (id : string) : t -> outcome * t :=
  on_channels
    (with_item Channel "in View, channel not found" id (fun _ => None)).

(** [workspacesError(message)] and [channelError(message)]: the list's
    children make place for what the parser makes of
    [<p>message</p>], a paragraph for a message without markup. *)
Definition workspacesError (message : string) (s : t) : t :=
  mkLists [Paragraph message] (channelList s) (nextUuid s).

Definition channelError (message : string) (s : t) : t :=
  mkLists (workspaceList s) [Paragraph message] (nextUuid s).

(** [clearChannelList()] *)
Definition clearChannelList (s : t) : t :=
  mkLists (workspaceList s) [] (nextUuid s).

(** [create()] of [ChannelView] and of [WorkspaceView], with the
    factory [main.ts] hands them: a new item goes to the end of the
    list, a channel with the current workspace as its parent, and the
    click on its edit button opens its editor. *)
Definition ChannelView_create (currWorkspace : string) (s : t) : t :=
  let channelItem := new Channel (uuid (nextUuid s)) in
  let channelItem := setParentName currWorkspace channelItem in
  mkLists (workspaceList s)
    (channelList s ++ [Item (clickEditBtn channelItem)]) (S (nextUuid s)).

Definition WorkspaceView_create (s : t) : t :=
  let workspaceItem := new Workspace (uuid (nextUuid s)) in
  mkLists (workspaceList s ++ [Item (clickEditBtn workspaceItem)])
    (channelList s) (S (nextUuid s)).

(** The user types [v] into the editor of the child at place [i] and
    presses Enter: what the list is then, and what was dispatched. *)
Definition type_and_enter (i : nat) (v : string) (children : list Child)
  : list Child * list CustomEvent :=
  match children !! i with
  | Some (Item it) =>
      let r := submit (KeyboardEvent "Enter") (type_text v it) in
      (<[i := Item (fst r)]> children, snd r)
  | _ => (children, [])
  end.

(** *** Vocabulary of the properties *)

(** A child shows a name of the server's list. *)
Definition agrees (c : Child) (name : option string) : Prop :=
  exists it, c = Item it /\ name = Some (getName it).

(** The item the middle loop makes for a label. *)
Definition fresh_item (ty : ContainerType) (parent : option string)
    (next : nat) (label : option string) : Child :=
  Item (set_label (default ""%string label)
          (match parent with
           | Some name => setParentName name (new ty (uuid next))
           | None => new ty (uuid next)
           end)).

(** Whether a child carries a [data-id]. *)
Definition has_id (id : string) (c : Child) : bool :=
  match c with
  | Item it => String.eqb (data_id it) id
  | Paragraph _ => false
  end.

(** The characters of an identifier as [crypto.randomUUID()] gives
    it: digits, lower-case letters and hyphens. *)
Definition uuid_char (c : ascii) : bool :=
  let n := nat_of_ascii c in
  ((48 <=? n)%nat && (n <=? 57)%nat) || ((97 <=? n)%nat && (n <=? 122)%nat)
  || Ascii.eqb c "-".

Definition uuid_text (id : string) : Prop :=
  Message.all_chars (fun c => uuid_char c = true) id.

#[global] Instance uuid_text_dec id : Decision (uuid_text id).
Proof. unfold uuid_text. apply _. Defined.

(** Whether a child is an item of a type. *)
Definition item_of (ty : ContainerType) (c : Child) : Prop :=
  match c with
  | Item it => type it = ty
  | Paragraph _ => False
  end.

#[global] Instance ContainerType_eq_dec : EqDecision ContainerType.
Proof. solve_decision. Defined.

#[global] Instance item_of_dec ty c : Decision (item_of ty c).
Proof. destruct c; simpl; apply _. Defined.

Definition is_item (c : Child) : Prop :=
  match c with Item _ => True | Paragraph _ => False end.

#[global] Instance is_item_dec c : Decision (is_item c).
Proof. destruct c; simpl; apply _. Defined.

(** The names the items of a list show, in order. *)
Definition names_shown (children : list Child) : list string :=
  omap (fun c => match c with
                 | Item it => Some (getName it)
                 | Paragraph _ => None
                 end) children.

(** The [data-id]s of the items of a list, in order. *)
Definition ids (children : list Child) : list string :=
  omap (fun c => match c with
                 | Item it => Some (data_id it)
                 | Paragraph _ => None
                 end) children.

End ContainerList.

(** ** Histories of the notification bar *)

Module ErrorHistory.

Import ErrorView.

(** What happens to an [ErrorView] after its construction: the calls
    [main.ts] makes, the clicks of the user, and the timers coming
    due. *)
Inductive Action :=
  | Show (m : string)
  | ShowRetriableError (event : Event) (m : string) (reverseEvent : Event)
      (secondsBeforeRetry : nat)
  | Close
  | Click (b : ButtonName)
  | TimeoutDue (id : nat)
  | IntervalDue (id : nat).

#[global] Instance Action_eq_dec : EqDecision Action.
Proof. solve_decision. Defined.

Definition step (a : Action) (s : ErrorView.t) : ErrorView.t :=
  match a with
  | Show m => show m s
  | ShowRetriableError event m reverseEvent secondsBeforeRetry =>
      showRetriableError event m reverseEvent secondsBeforeRetry s
  | Close => close None s
  | Click b => click b s
  | TimeoutDue id => fire_timeout id s
  | IntervalDue id => tick id s
  end.

(** The bar after a history, from its construction on. *)
Definition after (history : list Action) : ErrorView.t :=
  fold_left (fun s a => step a s) history init.



(** [k] turns of the interval [id] with nothing in between. *)
Definition ticks (k id : nat) (s : ErrorView.t) : ErrorView.t :=
  Nat.iter k (tick id) s.

(** The text a turn of the countdown writes. *)
Definition countdown_text (m : string) (timeRemaining : nat) : string :=
  m +:+ ". Retrying in " +:+ Js.index_name timeRemaining +:+ " seconds".

(** A listener that [show] registered. *)
Definition unsignalled (l : Listener) : Prop :=
  signal l = None /\ target l = CancelBtn /\ handler l = CloseHandler.

(** The listeners of a bar are those of its current controller and
    the ones [show] registered; no timer has an identifier that is
    still to be given out. *)
Definition listener_ok (s : ErrorView.t) (l : Listener) : Prop :=
  signal l = Some (controller s) \/ unsignalled l.

Definition consistent (s : ErrorView.t) : Prop :=
  Forall (listener_ok s) (listeners s)
  /\ Forall (fun p => (fst p < nextTimer s)%nat) (timeouts s)
  /\ Forall (fun p => (fst p < nextTimer s)%nat) (intervals s).



End ErrorHistory.

(** * Properties *)

(** ** Name validation in [ContainerItem.submit] *)

Section NameValidation.

Import ContainerItem.

Lemma includes_char (c : ascii) (v : string) :
  Js.includes (Js.str1 c) v = true <-> In c (list_ascii_of_string v).
Proof.
  unfold Js.str1.
  induction v as [|a v IH]; simpl.
  - split; [discriminate | tauto].
  - destruct (ascii_dec c a) as [->|Hne]; simpl.
    + split; [now left | intros _; destruct v; reflexivity].
    + rewrite IH. split; [now right | intros [H|H]; [congruence | exact H]].
Qed.

Lemma rejected_name_test (v : string) :
  rejected_name v <->
  (String.eqb v "" = true
   \/ (Js.includes "/" v || String.eqb v "." || String.eqb v ".."
       || Js.includes "\" v || Js.includes (Js.str1 Js.dquote) v) = true).
Proof.
  unfold rejected_name.
  rewrite !orb_true_iff, !String.eqb_eq.
  rewrite <- (includes_char "/" v), <- (includes_char "\" v),
    <- (includes_char Js.dquote v).
  change (Js.str1 "/") with "/"%string.
  change (Js.str1 "\") with "\"%string.
  tauto.
Qed.

Lemma invalid_char_message_not_empty : invalid_char_message <> ""%string.
Proof. discriminate. Qed.

(** C8.  On Enter or a click of the confirm button, an item that is not
    already waiting for the server rejects exactly the names that are
    empty, equal to [.] or [..], or contain a slash, a backslash or a
    double quote: a rejected name leaves an error message on the item
    and dispatches nothing, any other name dispatches the create event
    of the item's type.  The name [/] gets the invalid-character
    message. *)
Theorem C8_submit_validates_name (it : ContainerItem.t) (ev : UiEvent) :
  ev = KeyboardEvent "Enter" \/ ev = MouseEvent ->
  disabled it = false ->
  let v := input_value it in
  let it' := fst (submit ev it) in
  let events := snd (submit ev it) in
  (rejected_name v ->
     events = []
     /\ errorDisplay it' =
          (if String.eqb v "" then "Empty input"%string
           else invalid_char_message)
     /\ errorDisplay it' <> ""%string)
  /\ (~ rejected_name v ->
        events = [create_event it]
        /\ ev_name (create_event it)
           = String.append "create" (String.append (type_name (type it)) "Event")
        /\ errorDisplay it' = ""%string)
  /\ (v = "/"%string -> events = [] /\ errorDisplay it' = invalid_char_message).
Proof.
  intros Hev Hdis v it' events.
  assert (Hsub : submit ev it =
    if String.eqb v "" then (showError "Empty input" it, [])
    else if Js.includes "/" v || String.eqb v "." || String.eqb v ".."
            || Js.includes "\" v || Js.includes (Js.str1 Js.dquote) v
    then (showError invalid_char_message it, [])
    else (settle_label (disableItem (removeError it)), [create_event it])).
  { unfold submit. destruct Hev as [-> | ->]; simpl; rewrite Hdis; reflexivity. }
  subst it' events. rewrite Hsub. clear Hsub.
  pose proof (rejected_name_test v) as Hrej.
  destruct (String.eqb v "") eqn:He.
  - assert (Hr : rejected_name v) by (apply Hrej; now left).
    apply String.eqb_eq in He. simpl.
    split; [|split].
    + intros _. repeat split. discriminate.
    + intros Hn. contradiction.
    + intros Hv. rewrite Hv in He. discriminate.
  - destruct (Js.includes "/" v || String.eqb v "." || String.eqb v ".."
              || Js.includes "\" v || Js.includes (Js.str1 Js.dquote) v)
      eqn:Hc.
    + simpl.
      assert (Hr : rejected_name v) by (apply Hrej; now right).
      split; [|split].
      * intros _. repeat split. apply invalid_char_message_not_empty.
      * intros Hn. contradiction.
      * intros _. split; reflexivity.
    + assert (Hnr : ~ rejected_name v).
      { rewrite Hrej. intros [H|H]; congruence. }
      simpl. split; [|split].
      * intros Hr. contradiction.
      * intros _. repeat split.
        unfold create_event. destruct (type it); reflexivity.
      * intros Hv. exfalso. apply Hnr. unfold rejected_name.
        rewrite Hv. simpl. tauto.
Qed.

(** The theorem at the workspace name [/] and at the channel name
    [general]. *)
Lemma C8_submit_validates_name_witness :
  snd (submit MouseEvent (sample_item Workspace "/")) = []
  /\ errorDisplay (fst (submit MouseEvent (sample_item Workspace "/")))
     = invalid_char_message
  /\ snd (submit (KeyboardEvent "Enter") (sample_item Channel "general"))
     = [mkEvent "createChannelEvent" "cs-team" "general" "uuid-1"].
Proof.
  pose proof (C8_submit_validates_name (sample_item Workspace "/") MouseEvent
                (or_intror eq_refl) eq_refl) as H1.
  pose proof (C8_submit_validates_name (sample_item Channel "general")
                (KeyboardEvent "Enter") (or_introl eq_refl) eq_refl) as H2.
  cbv zeta in H1, H2.
  destruct H1 as (_ & _ & H1). destruct (H1 eq_refl) as [H1a H1b].
  destruct H2 as (_ & H2 & _).
  split; [exact H1a | split; [exact H1b |]].
  apply H2. unfold rejected_name. simpl.
  intros [H|[H|[H|[H|[H|H]]]]]; try discriminate H;
    repeat (destruct H as [H|H]; [discriminate H|]); exact H.
Defined.

End NameValidation.

(** ** Reactions *)

Section Reactions.

Import PostElement View.

Lemma array_includes_elem_of (x : string) (l : list string) :
  Js.array_includes x l = bool_decide (x ∈ l).
Proof.
  unfold Js.array_includes.
  destruct (existsb (String.eqb x) l) eqn:E; symmetry.
  - apply bool_decide_eq_true. apply existsb_exists in E as (y & Hy & Hxy).
    apply String.eqb_eq in Hxy. subst y. now apply list_elem_of_In.
  - apply bool_decide_eq_false. intros Hin.
    apply list_elem_of_In in Hin.
    assert (existsb (String.eqb x) l = true) as E'.
    { apply existsb_exists. exists x. split; [exact Hin | apply String.eqb_refl]. }
    congruence.
Qed.

Lemma reactionCnt_length (users : option (list string)) :
  reactionCnt users = length (default [] users).
Proof. now destruct users. Qed.

Lemma inReaction_elem_of (username : string) (users : option (list string)) :
  inReaction username users = bool_decide (username ∈ default [] users).
Proof.
  destruct users as [l|]; simpl.
  - apply array_includes_elem_of.
  - reflexivity.
Qed.

(** What one stanza of [renderReactions] does to a button. *)
Lemma render_button_spec (b : Button) (inKind : bool) :
  clicked (render_button b inKind) = inKind
  /\ disabled (render_button b inKind)
     = (if disabled b && negb (Bool.eqb (clicked b) inKind) then false
        else disabled b).
Proof.
  unfold render_button.
  destruct (disabled b), (clicked b), inKind; simpl; auto.
Qed.

(** C5.  An update for a post of the active index that carries
    reactions is merged by [updateReactions]: for each of the four kinds
    the element then shows the number of users listed for the kind (none
    if the kind is missing) and is [clicked] exactly when the current
    user is listed; a button that was disabled and showed the other
    membership is enabled again, every other button keeps its disabled
    state. *)
Theorem C5_reaction_merge (channelName workspaceName username : string)
    (post : ViewPost) (s : View.t) (id : nat) (el : PostElement.t)
    (r : PostReactions) :
  activePosts s !! path post = Some id ->
  heap s !! id = Some el ->
  reactions (doc post) = Some r ->
  exists el',
    handleUpdate channelName post workspaceName username s
      = (Returned, updateReactions r (path post) username s)
    /\ heap (updateReactions r (path post) username s) !! id = Some el'
    /\ forall k : ReactionKind,
         let users := default [] (reaction k r) in
         let selfReacted := bool_decide (username ∈ users) in
         cnt k el' = length users
         /\ clicked (btn k el') = selfReacted
         /\ disabled (btn k el')
            = (if disabled (btn k el)
                  && negb (Bool.eqb (clicked (btn k el)) selfReacted)
               then false else disabled (btn k el)).
Proof.
  intros Hact Hheap Hr.
  eexists. split; [|split].
  - unfold handleUpdate. rewrite Hact, Hr. reflexivity.
  - unfold updateReactions. rewrite Hact. simpl.
    rewrite lookup_alter_eq, Hheap. reflexivity.
  - intros k users selfReacted. subst users selfReacted.
    rewrite <- !inReaction_elem_of, <- reactionCnt_length.
    destruct k; simpl; (split; [reflexivity|]); apply render_button_spec.
Qed.

(** The theorem for the smile patch that reaches [p1] after a click. *)
Lemma C5_reaction_merge_witness :
  exists el',
    heap (snd Scenario.stale_patch_after_click) !! 0%nat = Some el'
    /\ cnt Smile el' = 0%nat /\ clicked (btn Smile el') = false.
Proof.
  destruct (C5_reaction_merge "c" "w" "alice" Scenario.p1_nobody_smiles
              Scenario.clicked_smile 0
              (fst (PostElement.click Smile
                      (PostElement.new None "/w/channels/c/posts/p1" "alice"
                         "c" "w" 0)))
              (mkReactions (Some []) None None None)
              ltac:(vm_compute; reflexivity) ltac:(vm_compute; reflexivity)
              eq_refl)
    as (el' & Hrun & Hheap & Hk).
  exists el'. split.
  - unfold Scenario.stale_patch_after_click. rewrite Hrun. exact Hheap.
  - destruct (Hk Smile) as (Hc & Hm & _). split; [exact Hc | exact Hm].
Defined.

(** C6, as the code has it.  A click on a reaction button changes no
    count on display and no [clicked] class: it only disables the
    button that was clicked, leaving the other buttons and the rest of
    the element as they were, and dispatches one [reactEvent] that
    carries the button's id, the post's path and whether the button
    showed [clicked].  The next reaction patch always puts the server's
    count on display; when the patch reports the membership that is on
    display the button stays disabled, and when it reports the other
    membership that one is shown and the button is enabled again. *)
Theorem C6_click_then_patch (el : PostElement.t) (k : ReactionKind)
    (cnts : ReactionKind -> nat) (ins : ReactionKind -> bool) :
  let el1 := fst (react k el) in
  let el2 := renderReactions (cnts Smile) (ins Smile) (cnts Frown) (ins Frown)
               (cnts Like) (ins Like) (cnts Celebrate) (ins Celebrate) el1 in
  (forall k', cnt k' el1 = cnt k' el)
  /\ (forall k', clicked (btn k' el1) = clicked (btn k' el))
  /\ disabled (btn k el1) = true
  /\ (forall k', k' <> k -> disabled (btn k' el1) = disabled (btn k' el))
  /\ (PostElement.postId el1, PostElement.currUser el1,
      PostElement.channelName el1, PostElement.workspaceName el1,
      PostElement.createdAt el1, PostElement.replies el1,
      PostElement.replyMode el1)
     = (PostElement.postId el, PostElement.currUser el,
        PostElement.channelName el, PostElement.workspaceName el,
        PostElement.createdAt el, PostElement.replies el,
        PostElement.replyMode el)
  /\ snd (react k el)
     = mkReactEvent (button_id k) (PostElement.postId el)
         (clicked (btn k el))
  /\ cnt k el2 = cnts k
  /\ clicked (btn k el2) = ins k
  /\ disabled (btn k el2) = Bool.eqb (ins k) (clicked (btn k el)).
Proof.
  destruct el as [? ? ? ? ? [d1 c1] ? [d2 c2] ? [d3 c3] ? [d4 c4] ? ? ?].
  cbv zeta.
  split; [intros k'; destruct k, k'; reflexivity|].
  split; [intros k'; destruct k, k'; reflexivity|].
  split; [destruct k; reflexivity|].
  split; [intros k' Hk; destruct k, k'; try reflexivity; congruence|].
  split; [destruct k; reflexivity|].
  split; [destruct k; reflexivity|].
  destruct k; simpl; unfold render_button; simpl;
    [ destruct c1, (ins Smile) | destruct c2, (ins Frown)
    | destruct c3, (ins Like) | destruct c4, (ins Celebrate) ];
    simpl; repeat split.
Qed.

(** C6 fails as stated: after the click on smile the count of [p1] is
    still 0, not 1, and the patch that reports nobody under smile leaves
    0 on display. *)
Lemma C6_click_shows_no_increment :
  cnt Smile <$> heap Scenario.clicked_smile !! 0%nat = Some 0%nat
  /\ cnt Smile <$> heap Scenario.clicked_smile !! 0%nat <> Some 1%nat
  /\ fst Scenario.stale_patch_after_click = Returned
  /\ cnt Smile <$> heap (snd Scenario.stale_patch_after_click) !! 0%nat
     <> Some 1%nat.
Proof. vm_compute. repeat split; discriminate. Qed.

End Reactions.

(** ** The retry timer of [ErrorView] *)

Section RetryTimer.

Import ErrorView.

(** Nothing in [abort] reaches the pending timeouts. *)
Lemma abort_keeps_timeouts (s : ErrorView.t) : timeouts (abort s) = timeouts s.
Proof. reflexivity. Qed.

(** [showRetriableError] adds a timeout and cancels none. *)
Lemma showRetriableError_timeouts (event m reverseEvent : string)
    (seconds : nat) (s : ErrorView.t) :
  timeouts (showRetriableError event m reverseEvent seconds s)
  = timeouts s ++ [(nextTimer s, event)].
Proof. reflexivity. Qed.

(** [show] cancels no timeout either. *)
Lemma show_timeouts (m : string) (s : ErrorView.t) :
  timeouts (show m s) = timeouts s.
Proof. reflexivity. Qed.

(** C9 at its failing input.  After a second retriable error replaced
    the banner of the first, both timeouts are pending, and when the
    first comes due it dispatches the first event again and clears the
    timeout of the second; the same happens when [show] replaced the
    banner. *)
Theorem C9_old_timer_still_fires :
  timeouts Scenario.two_banners = [(1%nat, "createPostEvent"%string);
                                   (3%nat, "reactEvent"%string)]
  /\ timeoutId Scenario.two_banners = Some 3%nat
  /\ dispatched (fire_timeout 1 Scenario.two_banners)
     = ["createPostEvent"%string]
  /\ timeouts (fire_timeout 1 Scenario.two_banners) = []
  /\ timeouts Scenario.banner_then_show = [(1%nat, "createPostEvent"%string)]
  /\ dispatched (fire_timeout 1 Scenario.banner_then_show)
     = ["createPostEvent"%string].
Proof. vm_compute. repeat split. Qed.

End RetryTimer.

(** ** Loading a channel *)

Section LoadChannel.

Import View.

(** The test [("parent" in Object.keys(doc))] asks an array of key names
    for a property called [parent]; no array has one. *)
Lemma parent_key_test_never_holds (d : Doc) :
  Js.in_array "parent" (doc_keys d) = false.
Proof.
  destruct d as [m [p|] [r|] [|]]; reflexivity.
Qed.

(** So no post ever enters a [children] array. *)
Lemma add_structured_pushes (sp : structured) (post : ViewPost) :
  add_structured sp post = sp ++ [(post, [])].
Proof.
  unfold add_structured. now rewrite parent_key_test_never_holds.
Qed.

Lemma structured_no_children (posts : list ViewPost) (sp : structured) :
  fold_left add_structured posts sp = sp ++ map (λ p, (p, [])) posts.
Proof.
  revert sp. induction posts as [|p posts IH]; intros sp; simpl.
  - now rewrite app_nil_r.
  - rewrite IH, add_structured_pushes, <- app_assoc. reflexivity.
Qed.

End LoadChannel.

(** ** Updates that arrive out of order: concrete runs *)

Section OutOfOrder.

Import View.

(** C1 at its failing input.  Two replies to [p1] arrive before [p1]:
    all three posts are in the active index, the buffer holds the second
    reply only, and once [p1] has arrived the first reply is on display
    nowhere. *)
Theorem C1_first_of_two_orphans_is_lost :
  size (activePosts Scenario.two_orphans) = 3%nat
  /\ activePosts Scenario.two_orphans !! path Scenario.r1 = Some 0%nat
  /\ replyBuffer Scenario.two_orphans !! path Scenario.p1 = Some 1%nat
  /\ times_displayed (path Scenario.p1) Scenario.two_orphans = 1%nat
  /\ times_displayed (path Scenario.r2) Scenario.two_orphans = 1%nat
  /\ times_displayed (path Scenario.r1) Scenario.two_orphans = 0%nat.
Proof. vm_compute. repeat split. Qed.



End OutOfOrder.
(** ** How the DOM operations change the state *)

Section DomFacts.

Import View.

Lemma heap_detach (n : Node) (s : View.t) (id : nat) :
  heap (detach n s) !! id
  = (λ el, PostElement.set_replies
             (remove_node n (PostElement.replies el)) el) <$> heap s !! id.
Proof. unfold detach. simpl. apply lookup_fmap. Qed.

Lemma heap_set_children (target : option nat) (l : list Node) (s : View.t)
    (id : nat) :
  heap (set_children target l s) !! id
  = if decide (target = Some id)
    then PostElement.set_replies l <$> heap s !! id
    else heap s !! id.
Proof.
  destruct target as [p|]; simpl.
  - rewrite lookup_alter. destruct (decide (p = id)) as [->|Hne].
    + rewrite decide_True by reflexivity. reflexivity.
    + rewrite decide_False by congruence. reflexivity.
  - reflexivity.
Qed.

Lemma children_detach (n : Node) (target : option nat) (s : View.t) :
  children target (detach n s) = remove_node n <$> children target s.
Proof.
  destruct target as [p|]; [|reflexivity].
  unfold children. rewrite heap_detach.
  destruct (heap s !! p); reflexivity.
Qed.

Lemma children_set_children_eq (target : option nat) (l l0 : list Node)
    (s : View.t) :
  children target s = Some l0 ->
  children target (set_children target l s) = Some l.
Proof.
  destruct target as [p|]; simpl; [|reflexivity].
  rewrite lookup_alter_eq. destruct (heap s !! p); [reflexivity|discriminate].
Qed.

Lemma children_set_children_ne (target target' : option nat) (l : list Node)
    (s : View.t) :
  target' <> target ->
  children target' (set_children target l s) = children target' s.
Proof.
  intros Hne. destruct target' as [q|]; destruct target as [p|]; simpl;
    try reflexivity; try congruence.
  rewrite lookup_alter_ne by congruence. reflexivity.
Qed.

Lemma place_Returned (new : nat) (parentPost : option nat) (d : Z)
    (l : list Node) (s s' : View.t) :
  place new parentPost d l s = (Returned, s') ->
  hierarchy_error (PostNode new) parentPost s = false
  /\ exists l0,
       children parentPost (detach (PostNode new) s) = Some l0
       /\ s' = set_children parentPost
                 (inserted (find_insertHere (heap s) d l) (PostNode new) l0)
                 (detach (PostNode new) s).
Proof.
  unfold place, insert_before, append.
  destruct (find_insertHere (heap s) d l) as [ref|];
    destruct (hierarchy_error (PostNode new) parentPost s); try discriminate;
    destruct (children parentPost (detach (PostNode new) s)) as [l0|];
    try discriminate; intros [= <-]; (split; [reflexivity|]);
    exists l0; split; reflexivity.
Qed.

Lemma place_not_Returned (new : nat) (parentPost : option nat) (d : Z)
    (l : list Node) (s s' : View.t) (o : outcome) :
  place new parentPost d l s = (o, s') -> o <> Returned -> s' = s.
Proof.
  unfold place, insert_before, append.
  destruct (find_insertHere (heap s) d l) as [ref|];
    destruct (hierarchy_error (PostNode new) parentPost s);
    try (intros [= <- <-]; reflexivity);
    destruct (children parentPost (detach (PostNode new) s));
    intros [= <- <-]; intros; congruence.
Qed.

(** A successful placement in terms of its parts. *)
Lemma place_succeeds (new : nat) (parentPost : option nat) (d : Z)
    (l l0 : list Node) (s : View.t) :
  hierarchy_error (PostNode new) parentPost s = false ->
  children parentPost (detach (PostNode new) s) = Some l0 ->
  place new parentPost d l s
  = (Returned,
     set_children parentPost
       (inserted (find_insertHere (heap s) d l) (PostNode new) l0)
       (detach (PostNode new) s)).
Proof.
  intros Hh Hc. unfold place, insert_before, append.
  destruct (find_insertHere (heap s) d l); rewrite Hh, Hc; reflexivity.
Qed.

Lemma attrs_detach (n : Node) (s : View.t) (id : nat) :
  attrs <$> heap (detach n s) !! id = attrs <$> heap s !! id.
Proof. rewrite heap_detach. destruct (heap s !! id); reflexivity. Qed.

Lemma attrs_set_children (target : option nat) (l : list Node) (s : View.t)
    (id : nat) :
  attrs <$> heap (set_children target l s) !! id = attrs <$> heap s !! id.
Proof.
  rewrite heap_set_children. destruct (decide (target = Some id)); [|reflexivity].
  destruct (heap s !! id); reflexivity.
Qed.

(** What [place] leaves alone, whatever its outcome. *)
Lemma place_frame (new : nat) (parentPost : option nat) (d : Z)
    (l : list Node) (s : View.t) :
  let s' := snd (place new parentPost d l s) in
  nextId s' = nextId s
  /\ activePosts s' = activePosts s
  /\ replyBuffer s' = replyBuffer s
  /\ activeReply s' = activeReply s
  /\ activeReplyBox s' = activeReplyBox s
  /\ forall id, attrs <$> heap s' !! id = attrs <$> heap s !! id.
Proof.
  destruct (place new parentPost d l s) as [o s'] eqn:Hp. simpl.
  destruct o.
  - apply place_Returned in Hp as (_ & l0 & _ & ->).
    split; [|split; [|split; [|split; [|split]]]];
      try (destruct parentPost; reflexivity).
    intros id. rewrite attrs_set_children. apply attrs_detach.
  - apply place_not_Returned in Hp as ->; [|discriminate]. repeat split.
  - apply place_not_Returned in Hp as ->; [|discriminate]. repeat split.
Qed.

Lemma attrs_is_Some (h h' : gmap nat PostElement.t) (id : nat) :
  attrs <$> h' !! id = attrs <$> h !! id ->
  is_Some (h' !! id) <-> is_Some (h !! id).
Proof.
  intros H. rewrite <- !(fmap_is_Some attrs), H. reflexivity.
Qed.

Lemma attrs_postId (h h' : gmap nat PostElement.t) (id : nat) :
  attrs <$> h' !! id = attrs <$> h !! id ->
  PostElement.postId <$> h' !! id = PostElement.postId <$> h !! id.
Proof.
  destruct (h' !! id), (h !! id); simpl; intros [=]; congruence.
Qed.

Lemma attrs_createdAt (h h' : gmap nat PostElement.t) (id : nat) :
  attrs <$> h' !! id = attrs <$> h !! id ->
  PostElement.createdAt <$> h' !! id = PostElement.createdAt <$> h !! id.
Proof.
  destruct (h' !! id), (h !! id); simpl; intros [=]; congruence.
Qed.

(** The same for the whole of [insertPost]. *)
Lemma insertPost_frame (fuel : nat) :
  forall (new : nat) (parentPost : option nat) (s : View.t),
  let s' := snd (insertPost fuel new parentPost s) in
  nextId s' = nextId s
  /\ activePosts s' = activePosts s
  /\ replyBuffer s' = replyBuffer s
  /\ activeReply s' = activeReply s
  /\ activeReplyBox s' = activeReplyBox s
  /\ forall id, attrs <$> heap s' !! id = attrs <$> heap s !! id.
Proof.
  induction fuel as [|fuel IH]; intros new parentPost s; simpl.
  - repeat split.
  - destruct (heap s !! new) as [el|]; [|repeat split].
    destruct (children parentPost s) as [postList|]; [|repeat split].
    pose proof (place_frame new parentPost (PostElement.createdAt el)
                  postList s) as Hf.
    destruct (place new parentPost (PostElement.createdAt el) postList s)
      as [o s1]. simpl in Hf.
    destruct o; try exact Hf.
    destruct (replyBuffer s1 !! PostElement.postId el) as [value|];
      [|exact Hf].
    specialize (IH value (Some new) s1). simpl in IH.
    destruct Hf as (H1 & H2 & H3 & H4 & H5 & H6).
    destruct IH as (I1 & I2 & I3 & I4 & I5 & I6).
    repeat split; try congruence; intros id; rewrite I6; apply H6.
Qed.

End DomFacts.

(** ** The scan of [insertPost] on a list in chronological order *)

Section Scan.

Import View.

Lemma scan_step_date (h : gmap nat PostElement.t) (d : Z)
    (acc : option Z * option Node) (n : Node) :
  scan_step h d acc n
  = match date_of h n with
    | Some currDate =>
        if (d <? currDate)
           && match fst acc with
              | None => true
              | Some earliestDate => currDate <? earliestDate
              end
        then (Some currDate, Some n)
        else acc
    | None => acc
    end.
Proof.
  destruct n as [id|b]; simpl; [|reflexivity].
  destruct (h !! id); reflexivity.
Qed.

Lemma dates_of_app (h : gmap nat PostElement.t) (l1 l2 : list Node) :
  dates_of h (l1 ++ l2) = dates_of h l1 ++ dates_of h l2.
Proof. apply omap_app. Qed.

Lemma dates_of_cons (h : gmap nat PostElement.t) (n : Node) (l : list Node) :
  dates_of h (n :: l)
  = match date_of h n with Some d => d :: dates_of h l | None => dates_of h l end.
Proof. reflexivity. Qed.

Lemma date_in_dates (h : gmap nat PostElement.t) (n : Node) (l : list Node)
    (d : Z) :
  n ∈ l -> date_of h n = Some d -> d ∈ dates_of h l.
Proof. intros Hin Hd. apply list_elem_of_omap. eauto. Qed.

(** What the scan has found after a list in chronological order:
    nothing, when no entry is later than the new date; otherwise the
    first entry that is later, with nothing later before it. *)
Lemma scan_sorted (h : gmap nat PostElement.t) (d : Z) (l : list Node) :
  StronglySorted Z.le (dates_of h l) ->
  match fold_left (scan_step h d) l (None, None) with
  | (None, None) => Forall (fun x => x <= d) (dates_of h l)
  | (Some e, Some ref) =>
      date_of h ref = Some e /\ d < e
      /\ exists l1 l2, l = l1 ++ ref :: l2 /\ (ref ∉ l1)
                       /\ Forall (fun x => x <= d) (dates_of h l1)
  | _ => False
  end.
Proof.
  induction l as [|x l IH] using rev_ind; intros Hs.
  - simpl. constructor.
  - rewrite fold_left_app. simpl.
    rewrite dates_of_app in Hs.
    apply StronglySorted_app in Hs as (Hle & Hs1 & _).
    specialize (IH Hs1).
    rewrite scan_step_date.
    destruct (fold_left (scan_step h d) l (None, None)) as [[e|] [ref|]];
      try contradiction.
    + (* something was found already: a later entry cannot replace it *)
      destruct IH as (Hd & Hlt & l1 & l2 & -> & Hnot & Hall).
      assert (Hkeep :
        match date_of h x with
        | Some currDate =>
            if (d <? currDate) && (currDate <? e)
            then (Some currDate, Some x) else (Some e, Some ref)
        | None => (Some e, Some ref)
        end = (Some e, Some ref)).
      { destruct (date_of h x) as [dx|] eqn:Hx; [|reflexivity].
        assert (e <= dx).
        { apply Hle.
          - eapply date_in_dates; [|exact Hd]. set_solver.
          - rewrite dates_of_cons, Hx. set_solver. }
        replace (dx <? e) with false by (symmetry; apply Z.ltb_ge; lia).
        now rewrite andb_false_r. }
      simpl. rewrite Hkeep.
      split; [exact Hd|]. split; [exact Hlt|].
      exists l1, (l2 ++ [x]). rewrite <- app_assoc. auto.
    + (* nothing was found so far *)
      destruct (date_of h x) as [dx|] eqn:Hx; simpl.
      * rewrite andb_true_r. destruct (d <? dx) eqn:Hlt.
        -- apply Z.ltb_lt in Hlt. split; [exact Hx|]. split; [exact Hlt|].
           exists l, []. split; [reflexivity|]. split; [|exact IH].
           intros Hin. pose proof (date_in_dates h x l dx Hin Hx) as Hdx.
           rewrite Forall_forall in IH. specialize (IH dx Hdx). lia.
        -- apply Z.ltb_ge in Hlt. rewrite dates_of_app, dates_of_cons, Hx.
           apply Forall_app. split; [exact IH|]. repeat constructor. exact Hlt.
      * rewrite dates_of_app, dates_of_cons, Hx. simpl. rewrite app_nil_r.
        exact IH.
Qed.

Lemma find_insertHere_Some (h : gmap nat PostElement.t) (d : Z)
    (l : list Node) (ref : Node) :
  StronglySorted Z.le (dates_of h l) ->
  find_insertHere h d l = Some ref ->
  exists e l1 l2,
    date_of h ref = Some e /\ d < e /\ l = l1 ++ ref :: l2 /\ (ref ∉ l1)
    /\ Forall (fun x => x <= d) (dates_of h l1).
Proof.
  intros Hs Hf. pose proof (scan_sorted h d l Hs) as H.
  unfold find_insertHere in Hf.
  destruct (fold_left (scan_step h d) l (None, None)) as [[e|] [r|]];
    simpl in Hf; try contradiction; try discriminate.
  injection Hf as ->. destruct H as (Hd & Hlt & l1 & l2 & Hl & Hn & Hall).
  exists e, l1, l2. auto.
Qed.

Lemma find_insertHere_None (h : gmap nat PostElement.t) (d : Z)
    (l : list Node) :
  StronglySorted Z.le (dates_of h l) ->
  find_insertHere h d l = None ->
  Forall (fun x => x <= d) (dates_of h l).
Proof.
  intros Hs Hf. pose proof (scan_sorted h d l Hs) as H.
  unfold find_insertHere in Hf.
  destruct (fold_left (scan_step h d) l (None, None)) as [[e|] [r|]];
    simpl in Hf; try contradiction; try discriminate.
  exact H.
Qed.

Lemma place_before_split (ref n : Node) (l1 l2 : list Node) :
  ref ∉ l1 ->
  place_before ref n (l1 ++ ref :: l2) = l1 ++ n :: ref :: l2.
Proof.
  induction l1 as [|a l1 IH]; intros Hn; simpl.
  - rewrite decide_True by reflexivity. reflexivity.
  - rewrite decide_False by set_solver. rewrite IH by set_solver. reflexivity.
Qed.

Lemma remove_node_app (n : Node) (l1 l2 : list Node) :
  remove_node n (l1 ++ l2) = remove_node n l1 ++ remove_node n l2.
Proof. apply filter_app. Qed.

Lemma remove_node_cons_ne (n a : Node) (l : list Node) :
  a <> n -> remove_node n (a :: l) = a :: remove_node n l.
Proof. intros H. unfold remove_node. now rewrite filter_cons_True. Qed.

Lemma remove_node_absent (n : Node) (l : list Node) :
  n ∉ l -> remove_node n l = l.
Proof.
  induction l as [|a l IH]; intros Hn; [reflexivity|].
  rewrite remove_node_cons_ne by set_solver. rewrite IH by set_solver.
  reflexivity.
Qed.

Lemma elem_of_remove_node (n m : Node) (l : list Node) :
  m ∈ remove_node n l <-> m <> n /\ m ∈ l.
Proof. unfold remove_node. rewrite list_elem_of_filter. reflexivity. Qed.

Lemma dates_remove_Forall (P : Z -> Prop) (h : gmap nat PostElement.t)
    (n : Node) (l : list Node) :
  Forall P (dates_of h l) -> Forall P (dates_of h (remove_node n l)).
Proof.
  rewrite !Forall_forall. intros H d Hd.
  apply list_elem_of_omap in Hd as (m & Hm & Hdm).
  apply elem_of_remove_node in Hm as [_ Hm].
  apply H. eapply date_in_dates; eauto.
Qed.

Lemma dates_remove_sorted (h : gmap nat PostElement.t) (n : Node)
    (l : list Node) :
  StronglySorted Z.le (dates_of h l) ->
  StronglySorted Z.le (dates_of h (remove_node n l)).
Proof.
  induction l as [|a l IH]; intros Hs; [constructor|].
  assert (Hl : StronglySorted Z.le (dates_of h l)).
  { rewrite dates_of_cons in Hs. destruct (date_of h a); [|exact Hs].
    now apply StronglySorted_cons in Hs. }
  destruct (decide (a = n)) as [->|Hne].
  - unfold remove_node. rewrite filter_cons_False by (intros H; now apply H).
    now apply IH.
  - rewrite remove_node_cons_ne by exact Hne.
    rewrite dates_of_cons in *. destruct (date_of h a) as [d|]; [|now apply IH].
    apply StronglySorted_cons in Hs as [Hall _].
    apply StronglySorted_cons. split; [|now apply IH].
    now apply dates_remove_Forall.
Qed.

(** The list after the insertion is in chronological order again, with
    the new node after everything that is not later and before
    everything that is. *)
Lemma inserted_sorted (h : gmap nat PostElement.t) (d : Z) (n : Node)
    (l : list Node) :
  date_of h n = Some d ->
  StronglySorted Z.le (dates_of h l) ->
  exists l1 l2,
    remove_node n l = l1 ++ l2
    /\ inserted (find_insertHere h d l) n (remove_node n l) = l1 ++ n :: l2
    /\ Forall (fun x => x <= d) (dates_of h l1)
    /\ Forall (fun x => d < x) (dates_of h l2)
    /\ StronglySorted Z.le (dates_of h (l1 ++ n :: l2)).
Proof.
  intros Hn Hs.
  assert (Hsorted : forall l1 l2,
            remove_node n l = l1 ++ l2 ->
            Forall (fun x => x <= d) (dates_of h l1) ->
            Forall (fun x => d < x) (dates_of h l2) ->
            StronglySorted Z.le (dates_of h (l1 ++ n :: l2))).
  { intros l1 l2 Hl H1 H2.
    pose proof (dates_remove_sorted h n l Hs) as Hr.
    rewrite Hl, dates_of_app in Hr.
    apply StronglySorted_app in Hr as (Hle & Hs1 & Hs2).
    rewrite dates_of_app, dates_of_cons, Hn.
    apply StronglySorted_app. split; [|split].
    - intros x1 x2 Hx1 Hx2. rewrite Forall_forall in H1, H2.
      apply elem_of_cons in Hx2 as [->|Hx2].
      + now apply H1.
      + specialize (H1 x1 Hx1). specialize (H2 x2 Hx2). lia.
    - exact Hs1.
    - apply StronglySorted_cons. split; [|exact Hs2].
      eapply Forall_impl; [exact H2|]. simpl. intros; lia. }
  destruct (find_insertHere h d l) as [ref|] eqn:Hf.
  - apply find_insertHere_Some in Hf
      as (e & l1 & l2 & He & Hlt & -> & Hnot & Hall); [|exact Hs].
    assert (Hne : ref <> n) by (intros ->; rewrite Hn in He; injection He; lia).
    exists (remove_node n l1), (ref :: remove_node n l2).
    assert (Hsplit : remove_node n (l1 ++ ref :: l2)
                     = remove_node n l1 ++ ref :: remove_node n l2).
    { rewrite remove_node_app, remove_node_cons_ne by exact Hne. reflexivity. }
    assert (H2 : Forall (fun x => d < x) (dates_of h (ref :: remove_node n l2))).
    { rewrite dates_of_cons, He.
      rewrite dates_of_app, dates_of_cons, He in Hs.
      apply StronglySorted_app in Hs as (_ & _ & Hs2).
      apply StronglySorted_cons in Hs2 as [Hall2 _].
      constructor; [exact Hlt|].
      apply dates_remove_Forall.
      eapply Forall_impl; [exact Hall2|]. simpl. intros; lia. }
    assert (H1 : Forall (fun x => x <= d) (dates_of h (remove_node n l1)))
      by now apply dates_remove_Forall.
    split; [exact Hsplit|]. split; [|split; [exact H1|split; [exact H2|]]].
    + simpl. rewrite Hsplit. apply place_before_split.
      intros Hin. apply elem_of_remove_node in Hin as [_ Hin]. contradiction.
    + now apply Hsorted.
  - apply find_insertHere_None in Hf; [|exact Hs].
    exists (remove_node n l), [].
    split; [now rewrite app_nil_r|]. split; [reflexivity|].
    split; [now apply dates_remove_Forall|]. split; [constructor|].
    apply Hsorted; [now rewrite app_nil_r| now apply dates_remove_Forall
                   | constructor].
Qed.

End Scan.

(** ** The invariants are kept by every update *)

Section Invariants.

Import View.

Lemma every_list_children (P : list Node -> Prop) (s : View.t) :
  every_list P s <->
  forall target l, children target s = Some l -> P l.
Proof.
  unfold every_list. split.
  - intros [Ht Hh] [p|] l; simpl.
    + destruct (heap s !! p) as [el|] eqn:E; simpl; [|discriminate].
      intros [= <-]. exact (Hh p el E).
    + intros [= <-]. exact Ht.
  - intros H. split.
    + apply (H None). reflexivity.
    + intros id el Hid. apply (H (Some id)). simpl. now rewrite Hid.
Qed.

Lemma date_of_attrs (h h' : gmap nat PostElement.t) (n : Node) :
  (forall id, attrs <$> h' !! id = attrs <$> h !! id) ->
  date_of h' n = date_of h n.
Proof.
  intros H. destruct n as [id|b]; [|reflexivity].
  simpl. now apply attrs_createdAt.
Qed.

Lemma dates_of_attrs (h h' : gmap nat PostElement.t) (l : list Node) :
  (forall id, attrs <$> h' !! id = attrs <$> h !! id) ->
  dates_of h' l = dates_of h l.
Proof.
  intros H. induction l as [|n l IH]; [reflexivity|].
  rewrite !dates_of_cons, IH, (date_of_attrs h h' n H). reflexivity.
Qed.

Lemma node_known_attrs (h h' : gmap nat PostElement.t) (n : Node) :
  (forall id, attrs <$> h' !! id = attrs <$> h !! id) ->
  node_known h n -> node_known h' n.
Proof.
  intros H. destruct n as [id|b]; [|trivial].
  simpl. now apply attrs_is_Some.
Qed.

Lemma Forall_remove_node (P : Node -> Prop) (n : Node) (l : list Node) :
  Forall P l -> Forall P (remove_node n l).
Proof.
  rewrite !Forall_forall. intros H m Hm.
  apply elem_of_remove_node in Hm as [_ Hm]. now apply H.
Qed.

Lemma Forall_place_before (P : Node -> Prop) (ref n : Node) (l : list Node) :
  P n -> Forall P l -> Forall P (place_before ref n l).
Proof.
  intros Hn. induction l as [|a l IH]; intros Hl; simpl.
  - repeat constructor. exact Hn.
  - destruct (decide (a = ref)).
    + constructor; assumption.
    + apply Forall_cons in Hl as [Ha Hl]. constructor; auto.
Qed.

Lemma Forall_inserted (P : Node -> Prop) (ref : option Node) (n : Node)
    (l : list Node) :
  P n -> Forall P l -> Forall P (inserted ref n l).
Proof.
  intros Hn Hl. destruct ref as [r|]; simpl.
  - now apply Forall_place_before.
  - apply Forall_app. split; [exact Hl|]. repeat constructor. exact Hn.
Qed.

(** Invariants move to a state each of whose child lists is known and
    in order, or is a list of the old state, maybe with one node taken
    out. *)
Lemma invariants_transfer (s s' : View.t) :
  nextId s' = nextId s ->
  activePosts s' = activePosts s ->
  replyBuffer s' = replyBuffer s ->
  (forall id, attrs <$> heap s' !! id = attrs <$> heap s !! id) ->
  (forall target l', children target s' = Some l' ->
     (Forall (node_known (heap s)) l'
      /\ StronglySorted Z.le (dates_of (heap s) l'))
     \/ exists l, children target s = Some l
                  /\ (l' = l \/ exists n, l' = remove_node n l)) ->
  well_formed s -> chronological s ->
  well_formed s' /\ chronological s'.
Proof.
  intros Hn Ha Hb Hat Hch (W1 & W2 & W3 & W4) C.
  assert (Hsome : forall id, is_Some (heap s !! id) -> is_Some (heap s' !! id)).
  { intros id. now apply attrs_is_Some. }
  unfold chronological in C.
  rewrite every_list_children in W2. rewrite every_list_children in C.
  assert (Hgood : forall target l', children target s' = Some l' ->
            Forall (node_known (heap s)) l'
            /\ StronglySorted Z.le (dates_of (heap s) l')).
  { intros tg l' Hl'. destruct (Hch tg l' Hl') as [H|(l & Hl & Hor)]; [exact H|].
    specialize (W2 tg l Hl). specialize (C tg l Hl).
    destruct Hor as [->|[n ->]]; [auto|].
    split; [now apply Forall_remove_node | now apply dates_remove_sorted]. }
  split; [split; [|split; [|split]]|].
  - intros id x Hx. rewrite Hn.
    assert (Hs : is_Some (heap s !! id)).
    { apply (attrs_is_Some (heap s) (heap s') id (Hat id)). eauto. }
    destruct Hs as [y Hy]. exact (W1 id y Hy).
  - apply every_list_children. intros tg l' Hl'.
    destruct (Hgood tg l' Hl') as [Hk _].
    eapply Forall_impl; [exact Hk|]. intros n. now apply node_known_attrs.
  - rewrite Hb. intros k v Hk. apply Hsome. exact (W3 k v Hk).
  - rewrite Ha. intros k v Hk. apply Hsome. exact (W4 k v Hk).
  - apply every_list_children. intros tg l' Hl'.
    destruct (Hgood tg l' Hl') as [_ Hsorted].
    now rewrite (dates_of_attrs (heap s) (heap s') l' Hat).
Qed.

(** [place] keeps the invariants. *)
Lemma place_preserves (new : nat) (parentPost : option nat)
    (el : PostElement.t) (l : list Node) (s : View.t) :
  well_formed s -> chronological s ->
  heap s !! new = Some el ->
  children parentPost s = Some l ->
  let s' := snd (place new parentPost (PostElement.createdAt el) l s) in
  well_formed s' /\ chronological s'.
Proof.
  intros W C Hnew Hl.
  pose proof (place_frame new parentPost (PostElement.createdAt el) l s) as Hf.
  destruct (place new parentPost (PostElement.createdAt el) l s) as [o s']
    eqn:Hp.
  simpl in *. destruct Hf as (Hn & Ha & Hb & _ & _ & Hat).
  assert (Hsame : o <> Returned -> well_formed s' /\ chronological s').
  { intros Ho. apply place_not_Returned in Hp as ->; auto. }
  destruct o; try (apply Hsame; discriminate). clear Hsame.
  apply place_Returned in Hp as (_ & l0 & Hl0 & Hs').
  rewrite children_detach, Hl in Hl0. simpl in Hl0. injection Hl0 as <-.
  assert (Hdate : date_of (heap s) (PostNode new)
                  = Some (PostElement.createdAt el)).
  { simpl. now rewrite Hnew. }
  assert (Csorted : StronglySorted Z.le (dates_of (heap s) l)).
  { unfold chronological in C. rewrite every_list_children in C.
    exact (C parentPost l Hl). }
  assert (Wl : Forall (node_known (heap s)) l).
  { destruct W as (_ & W2 & _). rewrite every_list_children in W2.
    exact (W2 parentPost l Hl). }
  destruct (inserted_sorted (heap s) (PostElement.createdAt el)
              (PostNode new) l Hdate Csorted)
    as (l1 & l2 & _ & Hins & _ & _ & Hsorted).
  apply (invariants_transfer s s'); auto.
  intros tg l' Hl'. subst s'.
  destruct (decide (tg = parentPost)) as [->|Hne].
  - left. erewrite children_set_children_eq in Hl'
      by (rewrite children_detach, Hl; reflexivity).
    injection Hl' as <-. split.
    + apply Forall_inserted; [simpl; eauto | now apply Forall_remove_node].
    + rewrite Hins. exact Hsorted.
  - right. rewrite children_set_children_ne in Hl' by exact Hne.
    rewrite children_detach in Hl'.
    destruct (children tg s) as [lt|]; [|discriminate].
    injection Hl' as <-. exists lt. split; [reflexivity|]. right. eauto.
Qed.

(** So does [insertPost], however it ends. *)
Lemma insertPost_preserves (fuel : nat) :
  forall (new : nat) (parentPost : option nat) (s : View.t),
  well_formed s -> chronological s ->
  let s' := snd (insertPost fuel new parentPost s) in
  well_formed s' /\ chronological s'.
Proof.
  induction fuel as [|fuel IH]; intros new parentPost s W C; simpl; [auto|].
  destruct (heap s !! new) as [el|] eqn:Hnew; [|auto].
  destruct (children parentPost s) as [postList|] eqn:Hl; [|auto].
  pose proof (place_preserves new parentPost el postList s W C Hnew Hl) as Hp.
  destruct (place new parentPost (PostElement.createdAt el) postList s)
    as [o s1].
  simpl in Hp. destruct o; try exact Hp.
  destruct (replyBuffer s1 !! PostElement.postId el) as [value|]; [|exact Hp].
  destruct Hp as [W1 C1]. exact (IH value (Some new) s1 W1 C1).
Qed.


Lemma transfer_same_lists (s s' : View.t) :
  nextId s' = nextId s ->
  activePosts s' = activePosts s ->
  replyBuffer s' = replyBuffer s ->
  (forall id, attrs <$> heap s' !! id = attrs <$> heap s !! id) ->
  (forall target, children target s' = children target s) ->
  well_formed s -> chronological s ->
  well_formed s' /\ chronological s'.
Proof.
  intros Hn Ha Hb Hat Hch. apply invariants_transfer; auto.
  intros tg l' Hl'. right. exists l'. rewrite <- Hch. auto.
Qed.

(** Writing fields of an element other than its reply list. *)
Lemma alter_preserves (f : PostElement.t -> PostElement.t) (p : nat)
    (s : View.t) :
  (forall el, PostElement.replies (f el) = PostElement.replies el) ->
  (forall el, attrs (f el) = attrs el) ->
  well_formed s -> chronological s ->
  well_formed (set_heap (alter f p (heap s)) s)
  /\ chronological (set_heap (alter f p (heap s)) s).
Proof.
  intros Hr Hat. apply transfer_same_lists; try reflexivity.
  - intros id. simpl. rewrite lookup_alter.
    destruct (decide (p = id)) as [->|]; [|reflexivity].
    destruct (heap s !! id); simpl; [|reflexivity]. now rewrite Hat.
  - intros [q|]; simpl; [|reflexivity]. rewrite lookup_alter.
    destruct (decide (p = q)) as [->|]; [|reflexivity].
    destruct (heap s !! q); simpl; [|reflexivity]. now rewrite Hr.
Qed.

Lemma detach_preserves (n : Node) (s : View.t) :
  well_formed s -> chronological s ->
  well_formed (detach n s) /\ chronological (detach n s).
Proof.
  apply invariants_transfer; try reflexivity.
  - intros id. apply attrs_detach.
  - intros tg l' Hl'. right. rewrite children_detach in Hl'.
    destruct (children tg s) as [l|]; [|discriminate].
    injection Hl' as <-. exists l. split; [reflexivity|]. right. eauto.
Qed.

Lemma updateReactions_preserves (r : PostElement.PostReactions)
    (postId username : string) (s : View.t) :
  well_formed s -> chronological s ->
  well_formed (updateReactions r postId username s)
  /\ chronological (updateReactions r postId username s).
Proof.
  intros W C. unfold updateReactions.
  destruct (activePosts s !! postId); [|auto].
  apply alter_preserves; auto.
Qed.

Lemma replyModeOff_preserves (postId : string) (s : View.t) :
  well_formed s -> chronological s ->
  well_formed (replyModeOff postId s) /\ chronological (replyModeOff postId s).
Proof.
  intros W C. unfold replyModeOff.
  assert (H0 : well_formed (set_postBoxVisible true s)
               /\ chronological (set_postBoxVisible true s)) by exact (conj W C).
  destruct (activePosts (set_postBoxVisible true s) !! postId) as [t|];
    [|exact H0].
  destruct H0 as [W0 C0].
  destruct (alter_preserves PostElement.closeReplyMode t
              (set_postBoxVisible true s)) as [W1 C1]; auto.
  assert (H2 : well_formed (remove_box (activeReplyBox (set_postBoxVisible true s))
                  (set_heap (alter PostElement.closeReplyMode t
                     (heap (set_postBoxVisible true s)))
                     (set_postBoxVisible true s)))
               /\ chronological (remove_box (activeReplyBox (set_postBoxVisible true s))
                  (set_heap (alter PostElement.closeReplyMode t
                     (heap (set_postBoxVisible true s)))
                     (set_postBoxVisible true s)))).
  { unfold remove_box.
    destruct (activeReplyBox (set_postBoxVisible true s)); [|auto].
    now apply detach_preserves. }
  exact H2.
Qed.

Lemma heap_fresh (s : View.t) : well_formed s -> heap s !! nextId s = None.
Proof.
  intros (W1 & _). destruct (heap s !! nextId s) as [x|] eqn:E; [|reflexivity].
  specialize (W1 _ _ E). simpl in W1. lia.
Qed.

Lemma dates_of_insert_fresh (h : gmap nat PostElement.t) (id : nat)
    (el : PostElement.t) (l : list Node) :
  h !! id = None -> Forall (node_known h) l ->
  dates_of (<[id := el]> h) l = dates_of h l.
Proof.
  intros Hid. induction l as [|n l IH]; intros Hl; [reflexivity|].
  apply Forall_cons in Hl as [Hn Hl].
  rewrite !dates_of_cons, IH by exact Hl.
  destruct n as [i|b]; [|reflexivity]. simpl in *.
  rewrite lookup_insert_ne; [reflexivity|].
  intros <-. rewrite Hid in Hn. now destruct Hn.
Qed.

(** Constructing an element and entering it into the active index. *)
Lemma alloc_preserves (el : PostElement.t) (key : string) (s : View.t) :
  PostElement.replies el = [] ->
  well_formed s -> chronological s ->
  let s1 := set_activePosts (<[key := nextId s]> (activePosts s)) (alloc el s) in
  well_formed s1 /\ chronological s1.
Proof.
  intros Hr W C. pose proof (heap_fresh s W) as Hfresh.
  destruct W as (W1 & W2 & W3 & W4). unfold chronological in C.
  rewrite every_list_children in W2. rewrite every_list_children in C.
  assert (Hmono : forall id, is_Some (heap s !! id) ->
                    is_Some (<[nextId s := el]> (heap s) !! id)).
  { intros id H. apply lookup_insert_is_Some.
    destruct (decide (nextId s = id)); auto. }
  assert (Hch : forall tg l,
            children tg (set_activePosts (<[key := nextId s]> (activePosts s))
                           (alloc el s)) = Some l ->
            l = [] \/ children tg s = Some l).
  { intros [p|] l; simpl; [|auto].
    destruct (decide (p = nextId s)) as [->|Hne].
    - rewrite lookup_insert_eq. simpl. rewrite Hr. intros [= <-]. auto.
    - rewrite lookup_insert_ne by congruence. auto. }
  simpl. split; [split; [|split; [|split]]|].
  - intros id x. simpl. rewrite lookup_insert.
    destruct (decide (nextId s = id)) as [<-|Hne]; [lia|].
    intros Hx. specialize (W1 _ _ Hx). simpl in W1. lia.
  - apply every_list_children. intros tg l Hl.
    destruct (Hch tg l Hl) as [->|Hl0]; [constructor|].
    eapply Forall_impl; [exact (W2 tg l Hl0)|].
    intros [i|b]; simpl; auto.
  - intros k v Hk. simpl. apply Hmono. exact (W3 k v Hk).
  - intros k v. simpl. rewrite lookup_insert.
    destruct (decide (key = k)) as [<-|Hne].
    + intros [= <-]. rewrite lookup_insert_eq. eauto.
    + intros Hk. apply Hmono. exact (W4 k v Hk).
  - apply every_list_children. intros tg l Hl.
    destruct (Hch tg l Hl) as [->|Hl0]; [constructor|].
    simpl. rewrite dates_of_insert_fresh.
    + exact (C tg l Hl0).
    + exact Hfresh.
    + exact (W2 tg l Hl0).
Qed.

Lemma set_replyBuffer_preserves (key : string) (v : nat) (s : View.t) :
  is_Some (heap s !! v) ->
  well_formed s -> chronological s ->
  well_formed (set_replyBuffer (<[key := v]> (replyBuffer s)) s)
  /\ chronological (set_replyBuffer (<[key := v]> (replyBuffer s)) s).
Proof.
  intros Hv (W1 & W2 & W3 & W4) C. split; [|exact C].
  split; [exact W1|]. split; [exact W2|]. split; [|exact W4].
  intros k x. simpl. rewrite lookup_insert.
  destruct (decide (key = k)); [intros [= <-]; exact Hv|].
  intros Hk. exact (W3 k x Hk).
Qed.

Lemma scroll_to_new_preserves (post : ViewPost) (username : string)
    (r : outcome * View.t) :
  well_formed (snd r) /\ chronological (snd r) ->
  well_formed (snd (scroll_to_new post username r))
  /\ chronological (snd (scroll_to_new post username r)).
Proof.
  destruct r as [o s2]. simpl. intros [W C].
  destruct o; auto.
  destruct (truthy (parent (doc post))
            && String.eqb (createdBy (meta post)) username); auto.
  now apply replyModeOff_preserves.
Qed.

Lemma insert_update_preserves (channelName workspaceName username : string)
    (post : ViewPost) (s : View.t) :
  well_formed s -> chronological s ->
  let s' := snd (insert_update channelName post workspaceName username s) in
  well_formed s' /\ chronological s'.
Proof.
  intros W C. unfold insert_update.
  set (el := PostElement.new (reactions (doc post)) (path post) username
               channelName workspaceName (createdAt (meta post))).
  set (s1 := set_activePosts (<[path post := nextId s]> (activePosts s))
               (alloc el s)).
  assert (Hel : PostElement.replies el = []).
  { unfold el, PostElement.new. now destruct (reactions (doc post)). }
  destruct (alloc_preserves el (path post) s Hel W C) as [W1 C1].
  fold s1 in W1, C1.
  destruct (truthy (parent (doc post))).
  - destruct (activePosts s1 !! default ""%string (parent (doc post))).
    + apply scroll_to_new_preserves. now apply insertPost_preserves.
    + cbv zeta. cbn [snd].
      apply (set_replyBuffer_preserves _ (nextId s) s1); auto.
      unfold s1. simpl. rewrite lookup_insert_eq. eauto.
  - apply scroll_to_new_preserves. now apply insertPost_preserves.
Qed.

(** [handleUpdate] keeps the invariants, however it ends. *)
Lemma handleUpdate_preserves (channelName workspaceName username : string)
    (post : ViewPost) (s : View.t) :
  well_formed s -> chronological s ->
  let s' := snd (handleUpdate channelName post workspaceName username s) in
  well_formed s' /\ chronological s'.
Proof.
  intros W C. unfold handleUpdate.
  destruct (activePosts s !! path post) as [x|];
    [destruct (reactions (doc post)) as [r|]|].
  - simpl. now apply updateReactions_preserves.
  - now apply insert_update_preserves.
  - now apply insert_update_preserves.
Qed.

Lemma init_invariants : well_formed init /\ chronological init.
Proof.
  unfold well_formed, chronological, every_list. simpl.
  repeat split; try apply map_Forall_empty; constructor.
Qed.

Lemma deliver_preserves (channelName workspaceName username : string)
    (updates : list ViewPost) :
  forall s : View.t,
  well_formed s -> chronological s ->
  well_formed (deliver channelName workspaceName username updates s)
  /\ chronological (deliver channelName workspaceName username updates s).
Proof.
  induction updates as [|u updates IH]; intros s W C; [auto|].
  simpl.
  destruct (handleUpdate_preserves channelName workspaceName username u s W C)
    as [W1 C1].
  exact (IH _ W1 C1).
Qed.

End Invariants.

(** ** Chronological order of siblings *)

Section Chronological.

Import View.

(** C4.  From a state whose references are sound and whose child lists
    are in chronological order, every run of updates leaves every child
    list, the channel's and each post's, in non-decreasing order of
    creation date.  The insertion step of [insertPost] puts the node
    after every entry that is not later than it, so after the entries
    of the same date, and right before the entries that are later. *)
Theorem C4_siblings_chronological
    (channelName workspaceName username : string) (updates : list ViewPost)
    (s : View.t) (new : nat) (parentPost : option nat) (el : PostElement.t)
    (l : list Node) :
  well_formed s -> chronological s ->
  (forall target l',
     children target (deliver channelName workspaceName username updates s)
       = Some l' ->
     Sorted Z.le
       (dates_of (heap (deliver channelName workspaceName username updates s))
          l'))
  /\ (heap s !! new = Some el ->
      children parentPost s = Some l ->
      hierarchy_error (PostNode new) parentPost s = false ->
      exists l1 l2 s',
        remove_node (PostNode new) l = l1 ++ l2
        /\ place new parentPost (PostElement.createdAt el) l s = (Returned, s')
        /\ children parentPost s' = Some (l1 ++ PostNode new :: l2)
        /\ Forall (fun d => d <= PostElement.createdAt el)
             (dates_of (heap s) l1)
        /\ Forall (fun d => PostElement.createdAt el < d)
             (dates_of (heap s) l2)).
Proof.
  intros W C. split.
  - intros target l' Hl'.
    destruct (deliver_preserves channelName workspaceName username updates
                s W C) as [_ C'].
    unfold chronological in C'. rewrite every_list_children in C'.
    apply StronglySorted_Sorted. exact (C' target l' Hl').
  - intros Hnew Hl Hh.
    assert (Hdate : date_of (heap s) (PostNode new)
                    = Some (PostElement.createdAt el)).
    { simpl. now rewrite Hnew. }
    assert (Csorted : StronglySorted Z.le (dates_of (heap s) l)).
    { unfold chronological in C. rewrite every_list_children in C.
      exact (C parentPost l Hl). }
    destruct (inserted_sorted (heap s) (PostElement.createdAt el)
                (PostNode new) l Hdate Csorted)
      as (l1 & l2 & Hrem & Hins & H1 & H2 & _).
    assert (Hl0 : children parentPost (detach (PostNode new) s)
                  = Some (remove_node (PostNode new) l)).
    { rewrite children_detach, Hl. reflexivity. }
    exists l1, l2. eexists. split; [exact Hrem|]. split; [|split; [|auto]].
    + rewrite (place_succeeds new parentPost _ l _ s Hh Hl0), Hins.
      reflexivity.
    + eapply children_set_children_eq. exact Hl0.
Qed.

(** The theorem in scenario A: [a1] and [a3] are on display and [a2]
    is placed between them. *)
Lemma C4_siblings_chronological_witness :
  Sorted Z.le
    (dates_of (heap (deliver "c" "w" "alice" [Scenario.a2] (Scenario.run [Scenario.a1; Scenario.a3])))
       (topLevelPosts (deliver "c" "w" "alice" [Scenario.a2] (Scenario.run [Scenario.a1; Scenario.a3]))))
  /\ exists s',
       place 2 None 10 [PostNode 0; PostNode 1] Scenario.placing_a2
         = (Returned, s')
       /\ topLevelPosts s' = [PostNode 0; PostNode 2; PostNode 1].
Proof.
  split.
  - refine (proj1 (C4_siblings_chronological "c" "w" "alice" [Scenario.a2]
                     (Scenario.run [Scenario.a1; Scenario.a3]) 0 None
                     Scenario.a2_element [] _ _) None _ eq_refl).
    + apply (bool_decide_unpack
               (well_formed (Scenario.run [Scenario.a1; Scenario.a3]))).
      vm_compute. exact I.
    + apply (bool_decide_unpack
               (chronological (Scenario.run [Scenario.a1; Scenario.a3]))).
      vm_compute. exact I.
  - destruct (proj2 (C4_siblings_chronological "c" "w" "alice" []
                       Scenario.placing_a2 2 None Scenario.a2_element
                       [PostNode 0; PostNode 1]
                       ltac:(apply (bool_decide_unpack
                                      (well_formed Scenario.placing_a2));
                             vm_compute; exact I)
                       ltac:(apply (bool_decide_unpack
                                      (chronological Scenario.placing_a2));
                             vm_compute; exact I))
                ltac:(vm_compute; reflexivity)
                ltac:(vm_compute; reflexivity)
                ltac:(vm_compute; reflexivity))
      as (l1 & l2 & s' & Hrem & Hplace & Hch & H1 & H2).
    exists s'. split; [exact Hplace|].
    vm_compute in Hplace. injection Hplace as <-. reflexivity.
Defined.

End Chronological.

(** ** Children that stay where they are *)

Section Children.

Import View.

Lemma elem_of_place_before (ref n m : Node) (l : list Node) :
  m ∈ l -> m ∈ place_before ref n l.
Proof.
  induction l as [|a l IH]; simpl; intros Hm.
  - now apply not_elem_of_nil in Hm.
  - destruct (decide (a = ref)).
    + apply elem_of_cons. right. exact Hm.
    + rewrite elem_of_cons in Hm. apply elem_of_cons.
      destruct Hm as [Hm|Hm]; [left; exact Hm | right; exact (IH Hm)].
Qed.

Lemma elem_of_inserted (ref : option Node) (n m : Node) (l : list Node) :
  m ∈ l -> m ∈ inserted ref n l.
Proof.
  destruct ref; simpl; [apply elem_of_place_before |].
  intros Hm. apply elem_of_app. left. exact Hm.
Qed.


Lemma child_of_detach (n : Node) (x : nat) (y : option nat) (s : View.t) :
  n <> PostNode x -> child_of x y s -> child_of x y (detach n s).
Proof.
  intros Hne (l & Hl & Hx). exists (remove_node n l).
  rewrite children_detach, Hl. split; [reflexivity|].
  apply elem_of_remove_node. split; [congruence|exact Hx].
Qed.

Lemma children_alter (f : PostElement.t -> PostElement.t) (p : nat)
    (s : View.t) (target : option nat) :
  (forall el, PostElement.replies (f el) = PostElement.replies el) ->
  children target (set_heap (alter f p (heap s)) s) = children target s.
Proof.
  intros Hr. destruct target as [q|]; simpl; [|reflexivity].
  rewrite lookup_alter. destruct (decide (p = q)) as [->|]; [|reflexivity].
  destruct (heap s !! q); simpl; [|reflexivity]. now rewrite Hr.
Qed.

(** [place] moves the node it is given and no other. *)
Lemma place_keeps_child (new : nat) (parentPost : option nat) (d : Z)
    (l : list Node) (s : View.t) (x : nat) (y : option nat) :
  new <> x -> child_of x y s ->
  child_of x y (snd (place new parentPost d l s)).
Proof.
  intros Hne Hc.
  destruct (place new parentPost d l s) as [o s'] eqn:Hp. simpl.
  assert (Hsame : o <> Returned -> child_of x y s').
  { intros Ho. now apply place_not_Returned in Hp as ->. }
  destruct o; try (apply Hsame; discriminate). clear Hsame.
  apply place_Returned in Hp as (_ & l0 & Hl0 & ->).
  apply (child_of_detach (PostNode new)) in Hc; [|congruence].
  destruct Hc as (ly & Hly & Hx).
  destruct (decide (y = parentPost)) as [->|Hy].
  - eexists. split; [eapply children_set_children_eq; exact Hl0|].
    apply elem_of_inserted. congruence.
  - exists ly. split; [|exact Hx].
    now rewrite children_set_children_ne.
Qed.

(** [insertPost] moves the element it is given and the buffered
    elements that the paths along the way select.  An element that is
    neither stays the child of its parent. *)
Lemma insertPost_keeps_child (fuel : nat) :
  forall (new : nat) (parentPost : option nat) (s : View.t) (x : nat)
         (y : option nat),
  new <> x ->
  (forall id el, heap s !! id = Some el ->
     id = new \/ (exists k, replyBuffer s !! k = Some id) ->
     replyBuffer s !! PostElement.postId el <> Some x) ->
  child_of x y s ->
  child_of x y (snd (insertPost fuel new parentPost s)).
Proof.
  induction fuel as [|fuel IH]; intros new parentPost s x y Hne Hsel Hc;
    simpl; [exact Hc|].
  destruct (heap s !! new) as [el|] eqn:Hnew; [|exact Hc].
  destruct (children parentPost s) as [postList|]; [|exact Hc].
  pose proof (place_keeps_child new parentPost (PostElement.createdAt el)
                postList s x y Hne Hc) as Hk.
  pose proof (place_frame new parentPost (PostElement.createdAt el)
                postList s) as Hf.
  destruct (place new parentPost (PostElement.createdAt el) postList s)
    as [o s1]. simpl in Hk, Hf.
  destruct Hf as (_ & _ & Hb & _ & _ & Hat).
  destruct o; try exact Hk.
  destruct (replyBuffer s1 !! PostElement.postId el) as [value|] eqn:Hv;
    [|exact Hk].
  rewrite Hb in Hv.
  apply IH; [| |exact Hk].
  - intros ->. eapply Hsel; eauto.
  - intros id el' Hid Hor. rewrite Hb.
    pose proof (attrs_postId _ _ id (Hat id)) as Hp.
    rewrite Hid in Hp. simpl in Hp.
    destruct (heap s !! id) as [el0|] eqn:H0; [|discriminate].
    injection Hp as Hp. rewrite Hp.
    apply (Hsel id el0 H0). right.
    destruct Hor as [->|[k Hk']]; [eauto|].
    rewrite Hb in Hk'. eauto.
Qed.

Lemma child_of_replyModeOff (postId : string) (s : View.t) (x : nat)
    (y : option nat) :
  child_of x y s -> child_of x y (replyModeOff postId s).
Proof.
  intros Hc. unfold replyModeOff.
  destruct (activePosts (set_postBoxVisible true s) !! postId) as [t|];
    [|exact Hc].
  assert (H1 : child_of x y
                 (set_heap (alter PostElement.closeReplyMode t
                              (heap (set_postBoxVisible true s)))
                    (set_postBoxVisible true s))).
  { destruct Hc as (l & Hl & Hx). exists l. split; [|exact Hx].
    rewrite children_alter by reflexivity. exact Hl. }
  unfold remove_box.
  destruct (activeReplyBox (set_postBoxVisible true s)) as [b|]; [|exact H1].
  apply (child_of_detach (ReplyBoxNode b)) in H1; [exact H1|discriminate].
Qed.

Lemma replyModeOff_frame (postId : string) (s : View.t) :
  nextId (replyModeOff postId s) = nextId s
  /\ activePosts (replyModeOff postId s) = activePosts s
  /\ replyBuffer (replyModeOff postId s) = replyBuffer s
  /\ forall id, attrs <$> heap (replyModeOff postId s) !! id
                = attrs <$> heap s !! id.
Proof.
  unfold replyModeOff.
  destruct (activePosts (set_postBoxVisible true s) !! postId) as [t|];
    [|repeat split].
  assert (Hat : forall id,
            attrs <$> (alter PostElement.closeReplyMode t (heap s)) !! id
            = attrs <$> heap s !! id).
  { intros id. rewrite lookup_alter.
    destruct (decide (t = id)) as [->|]; [|reflexivity].
    destruct (heap s !! id); reflexivity. }
  unfold remove_box.
  destruct (activeReplyBox (set_postBoxVisible true s)) as [b|];
    repeat split; try exact Hat.
  intros id. simpl. rewrite lookup_fmap, <- Hat.
  simpl. destruct (alter PostElement.closeReplyMode t (heap s) !! id);
    reflexivity.
Qed.


Lemma scroll_to_new_frame (post : ViewPost) (username : string)
    (r : outcome * View.t) :
  let s' := snd (scroll_to_new post username r) in
  nextId s' = nextId (snd r)
  /\ activePosts s' = activePosts (snd r)
  /\ replyBuffer s' = replyBuffer (snd r)
  /\ (forall id, attrs <$> heap s' !! id = attrs <$> heap (snd r) !! id)
  /\ forall x y, child_of x y (snd r) -> child_of x y s'.
Proof.
  destruct r as [o s2]. simpl.
  assert (Hsame : nextId s2 = nextId s2 /\ activePosts s2 = activePosts s2
            /\ replyBuffer s2 = replyBuffer s2
            /\ (forall id, attrs <$> heap s2 !! id = attrs <$> heap s2 !! id)
            /\ forall x y, child_of x y s2 -> child_of x y s2)
    by (repeat split; auto).
  destruct o; try exact Hsame.
  destruct (truthy (parent (doc post))
            && String.eqb (createdBy (meta post)) username);
    [|exact Hsame].
  simpl.
  destruct (replyModeOff_frame (default ""%string (parent (doc post))) s2)
    as (H1 & H2 & H3 & H4).
  split; [exact H1|]. split; [exact H2|]. split; [exact H3|].
  split; [exact H4|]. intros x y. apply child_of_replyModeOff.
Qed.


End Children.

(** ** Running [insertPost] *)

Section Running.

Import View.



Lemma elem_of_place_before_inv (ref n m : Node) (l : list Node) :
  m ∈ place_before ref n l -> m = n \/ m ∈ l.
Proof.
  induction l as [|a l IH]; simpl.
  - rewrite list_elem_of_singleton. auto.
  - destruct (decide (a = ref)).
    + rewrite elem_of_cons. auto.
    + rewrite !elem_of_cons. intros [->|H]; [auto|].
      destruct (IH H); auto.
Qed.

Lemma elem_of_inserted_inv (ref : option Node) (n m : Node) (l : list Node) :
  m ∈ inserted ref n l -> m = n \/ m ∈ l.
Proof.
  destruct ref; simpl; [apply elem_of_place_before_inv|].
  rewrite elem_of_app, list_elem_of_singleton. tauto.
Qed.







End Running.

(** ** A new post whose place is known *)

Section NewPost.

Import View.

Lemma new_attrs (r : option PostElement.PostReactions)
    (p cu cn wn : string) (d : Z) :
  attrs (PostElement.new r p cu cn wn d) = (p, d)
  /\ PostElement.replies (PostElement.new r p cu cn wn d) = [].
Proof. destruct r; split; reflexivity. Qed.



End NewPost.

(** ** What remains of [insertPost] after the new element is in place *)

Section Remainder.

Import View.



End Remainder.

(** ** Two orphans of one parent *)

Section TwoOrphans.

Import View.

Lemma child_of_detach_inv (n : Node) (x : nat) (y : option nat) (s : View.t) :
  child_of x y (detach n s) -> child_of x y s.
Proof.
  intros (l & Hl & Hx). rewrite children_detach in Hl.
  destruct (children y s) as [l0|] eqn:E; [|discriminate].
  injection Hl as <-. exists l0. split; [exact E|].
  now apply elem_of_remove_node in Hx as [_ Hx].
Qed.

(** [place] attaches the node it is given and no other. *)
Lemma place_no_new_child (new : nat) (parentPost : option nat) (d : Z)
    (l : list Node) (s : View.t) (x : nat) (y : option nat) :
  new <> x ->
  child_of x y (snd (place new parentPost d l s)) -> child_of x y s.
Proof.
  intros Hne.
  destruct (place new parentPost d l s) as [o s'] eqn:Hp. simpl.
  assert (Hsame : o <> Returned -> child_of x y s' -> child_of x y s).
  { intros Ho. now apply place_not_Returned in Hp as ->. }
  destruct o; try (apply Hsame; discriminate). clear Hsame.
  apply place_Returned in Hp as (_ & l0 & Hl0 & ->).
  intros (ly & Hly & Hx).
  apply (child_of_detach_inv (PostNode new)).
  destruct (decide (y = parentPost)) as [->|Hy].
  - erewrite children_set_children_eq in Hly by exact Hl0.
    injection Hly as <-. exists l0. split; [exact Hl0|].
    apply elem_of_inserted_inv in Hx as [Hx|Hx]; [congruence|exact Hx].
  - rewrite children_set_children_ne in Hly by exact Hy.
    exists ly. auto.
Qed.

(** [insertPost] attaches the element it is given and the buffered
    elements selected along the way, and no other. *)
Lemma insertPost_no_new_child (fuel : nat) :
  forall (new : nat) (parentPost : option nat) (s : View.t) (x : nat)
         (y : option nat),
  new <> x ->
  (forall k, replyBuffer s !! k <> Some x) ->
  child_of x y (snd (insertPost fuel new parentPost s)) ->
  child_of x y s.
Proof.
  induction fuel as [|fuel IH]; intros new parentPost s x y Hne Hnb;
    simpl; [auto|].
  destruct (heap s !! new) as [el|]; [|auto].
  destruct (children parentPost s) as [postList|]; [|auto].
  pose proof (place_no_new_child new parentPost (PostElement.createdAt el)
                postList s x y Hne) as Hk.
  pose proof (place_frame new parentPost (PostElement.createdAt el)
                postList s) as Hf.
  destruct (place new parentPost (PostElement.createdAt el) postList s)
    as [o s1]. simpl in Hk, Hf.
  destruct Hf as (_ & _ & Hb & _).
  destruct o; try exact Hk.
  destruct (replyBuffer s1 !! PostElement.postId el) as [value|] eqn:Hv;
    [|exact Hk].
  intros Hc. apply Hk. revert Hc. apply IH.
  - intros ->. rewrite Hb in Hv. exact (Hnb _ Hv).
  - intros k. rewrite Hb. apply Hnb.
Qed.

Lemma child_of_replyModeOff_inv (postId : string) (s : View.t) (x : nat)
    (y : option nat) :
  child_of x y (replyModeOff postId s) -> child_of x y s.
Proof.
  unfold replyModeOff.
  destruct (activePosts (set_postBoxVisible true s) !! postId) as [t|];
    [|auto].
  intros Hc.
  assert (H1 : child_of x y
                 (set_heap (alter PostElement.closeReplyMode t
                              (heap (set_postBoxVisible true s)))
                    (set_postBoxVisible true s))).
  { unfold remove_box in Hc.
    destruct (activeReplyBox (set_postBoxVisible true s)) as [b|];
      [|exact Hc].
    exact (child_of_detach_inv _ _ _ _ Hc). }
  destruct H1 as (l & Hl & Hx). exists l. split; [|exact Hx].
  rewrite children_alter in Hl by reflexivity. exact Hl.
Qed.

Lemma scroll_to_new_no_new_child (post : ViewPost) (username : string)
    (r : outcome * View.t) (x : nat) (y : option nat) :
  child_of x y (snd (scroll_to_new post username r)) -> child_of x y (snd r).
Proof.
  destruct r as [[| |] s2]; simpl; auto.
  destruct (truthy (parent (doc post))
            && String.eqb (createdBy (meta post)) username); [|auto].
  apply child_of_replyModeOff_inv.
Qed.

Lemma child_of_alloc_inv (el : PostElement.t) (key : string) (s : View.t)
    (x : nat) (y : option nat) :
  PostElement.replies el = [] ->
  child_of x y (set_activePosts (<[key := nextId s]> (activePosts s))
                  (alloc el s)) ->
  child_of x y s.
Proof.
  intros Hr (l & Hl & Hx). destruct y as [q|]; simpl in Hl.
  - destruct (decide (q = nextId s)) as [->|Hq].
    + rewrite lookup_insert_eq in Hl. simpl in Hl. rewrite Hr in Hl.
      injection Hl as <-. now apply not_elem_of_nil in Hx.
    + rewrite lookup_insert_ne in Hl by congruence. exists l. auto.
  - exists l. auto.
Qed.

(** An update for a new post attaches its own element and the buffered
    elements selected along the way, and no other. *)
Lemma insert_update_no_new_child
    (channelName workspaceName username : string) (u : ViewPost)
    (s : View.t) (x : nat) (y : option nat) :
  x <> nextId s ->
  (forall k, replyBuffer s !! k <> Some x) ->
  child_of x y (snd (insert_update channelName u workspaceName username s)) ->
  child_of x y s.
Proof.
  intros Hne Hnb. unfold insert_update.
  set (el := PostElement.new (reactions (doc u)) (path u) username
               channelName workspaceName (createdAt (meta u))).
  set (s1 := set_activePosts (<[path u := nextId s]> (activePosts s))
               (alloc el s)).
  assert (Hel : PostElement.replies el = [])
    by apply (new_attrs (reactions (doc u)) (path u) username channelName
                workspaceName (createdAt (meta u))).
  assert (Hrun : forall tg,
            child_of x y (snd (scroll_to_new u username
                                 (insertPost (insert_budget s1) (nextId s)
                                    tg s1))) ->
            child_of x y s).
  { intros tg Hc. apply scroll_to_new_no_new_child in Hc.
    apply insertPost_no_new_child in Hc; [|congruence|exact Hnb].
    exact (child_of_alloc_inv el (path u) s x y Hel Hc). }
  destruct (truthy (parent (doc u))); [|apply Hrun].
  destruct (activePosts s1 !! default ""%string (parent (doc u)));
    [apply Hrun|].
  simpl. intros Hc. exact (child_of_alloc_inv el (path u) s x y Hel Hc).
Qed.

Lemma insert_update_activePosts
    (channelName workspaceName username : string) (u : ViewPost) (s : View.t) :
  activePosts (snd (insert_update channelName u workspaceName username s))
  = <[path u := nextId s]> (activePosts s).
Proof.
  unfold insert_update.
  set (el := PostElement.new (reactions (doc u)) (path u) username
               channelName workspaceName (createdAt (meta u))).
  set (s1 := set_activePosts (<[path u := nextId s]> (activePosts s))
               (alloc el s)).
  assert (Hrun : forall tg,
            activePosts (snd (scroll_to_new u username
                                (insertPost (insert_budget s1) (nextId s)
                                   tg s1)))
            = <[path u := nextId s]> (activePosts s)).
  { intros tg.
    destruct (scroll_to_new_frame u username
                (insertPost (insert_budget s1) (nextId s) tg s1))
      as (_ & Ha & _).
    destruct (insertPost_frame (insert_budget s1) (nextId s) tg s1)
      as (_ & Ia & _).
    cbv zeta in *. rewrite Ha, Ia. reflexivity. }
  destruct (truthy (parent (doc u))); [|apply Hrun].
  destruct (activePosts s1 !! default ""%string (parent (doc u)));
    [apply Hrun | reflexivity].
Qed.

(** An element on display is the child of something. *)
Lemma subtree_child (h : gmap nat PostElement.t) (x : nat) (fuel : nat) :
  forall n : Node,
  x ∈ subtree fuel h n ->
  n = PostNode x
  \/ exists p el, h !! p = Some el /\ PostNode x ∈ PostElement.replies el.
Proof.
  induction fuel as [|fuel IH]; intros [id|b]; simpl;
    try (intros H; now apply not_elem_of_nil in H).
  - rewrite list_elem_of_singleton. intros ->. now left.
  - rewrite elem_of_cons. intros [->|H]; [now left|].
    destruct (h !! id) as [el|] eqn:Hid;
      [|now apply not_elem_of_nil in H].
    apply list_elem_of_In, in_flat_map in H as (n & Hn & Hx).
    apply list_elem_of_In in Hn, Hx.
    destruct (IH n Hx) as [->|Hdeep]; [|now right].
    right. exists id, el. auto.
Qed.

Lemma displayed_child (s : View.t) (x : nat) :
  x ∈ displayed s -> exists y, child_of x y s.
Proof.
  unfold displayed. intros H.
  apply list_elem_of_In, in_flat_map in H as (n & Hn & Hx).
  apply list_elem_of_In in Hn, Hx.
  destruct (subtree_child _ _ _ _ Hx) as [->|(p & el & Hp & Hin)].
  - exists None, (topLevelPosts s). auto.
  - exists (Some p), (PostElement.replies el). simpl. rewrite Hp. auto.
Qed.

(** The defect behind C1, for every state: of two new replies that
    arrive before their common parent, the first is indexed and, once
    the parent has arrived, is the child of nothing and on display
    nowhere. *)
Lemma first_of_two_orphans_is_lost
    (channelName workspaceName username : string) (s : View.t)
    (r1 r2 u : ViewPost) (p : string) :
  well_formed s ->
  activePosts s !! p = None ->
  parent (doc r1) = Some p -> parent (doc r2) = Some p ->
  p <> ""%string -> p <> path r1 -> p <> path r2 -> path r1 <> path r2 ->
  activePosts s !! path r1 = None ->
  activePosts s !! path r2 = None ->
  path u = p ->
  let s' := deliver channelName workspaceName username [r1; r2; u] s in
  activePosts s' !! path r1 = Some (nextId s)
  /\ (forall y, ~ child_of (nextId s) y s')
  /\ nextId s ∉ displayed s'.
Proof.
  intros W Hp Hpar1 Hpar2 Hne Hs1 Hs2 H12 Ha1 Ha2 Hu s'.
  pose proof (heap_fresh s W) as Hfresh.
  assert (Hbuffered : forall (r : ViewPost) (t : View.t),
            parent (doc r) = Some p -> p <> path r ->
            activePosts t !! p = None -> activePosts t !! path r = None ->
            handleUpdate channelName r workspaceName username t
            = (Returned,
               set_replyBuffer (<[p := nextId t]> (replyBuffer t))
                 (set_activePosts (<[path r := nextId t]> (activePosts t))
                    (alloc (PostElement.new (reactions (doc r)) (path r)
                              username channelName workspaceName
                              (createdAt (meta r))) t)))).
  { intros r t Hpar Hself Hmiss Hnew. unfold handleUpdate. rewrite Hnew.
    unfold insert_update. rewrite Hpar. simpl.
    apply String.eqb_neq in Hne. rewrite Hne. simpl.
    rewrite lookup_insert_ne by congruence. rewrite Hmiss. reflexivity. }
  set (x := nextId s) in *.
  set (t1 := snd (handleUpdate channelName r1 workspaceName username s)).
  set (t2 := snd (handleUpdate channelName r2 workspaceName username t1)).
  assert (E1 : t1 = set_replyBuffer (<[p := x]> (replyBuffer s))
                 (set_activePosts (<[path r1 := x]> (activePosts s))
                    (alloc (PostElement.new (reactions (doc r1)) (path r1)
                              username channelName workspaceName
                              (createdAt (meta r1))) s))).
  { unfold t1. now rewrite (Hbuffered r1 s Hpar1 Hs1 Hp Ha1). }
  assert (E2 : t2 = set_replyBuffer (<[p := nextId t1]> (replyBuffer t1))
                 (set_activePosts (<[path r2 := nextId t1]> (activePosts t1))
                    (alloc (PostElement.new (reactions (doc r2)) (path r2)
                              username channelName workspaceName
                              (createdAt (meta r2))) t1))).
  { unfold t2. rewrite (Hbuffered r2 t1 Hpar2 Hs2); [reflexivity| |].
    - rewrite E1. simpl. now rewrite lookup_insert_ne by congruence.
    - rewrite E1. simpl. now rewrite lookup_insert_ne by congruence. }
  assert (Hn1 : nextId t1 = S x) by (rewrite E1; reflexivity).
  assert (Hn2 : nextId t2 = S (S x)) by (rewrite E2; simpl; now rewrite Hn1).
  (* the first element is in no list of [t2] and not in its buffer *)
  destruct W as (W1 & W2 & W3 & W4).
  rewrite every_list_children in W2.
  assert (Hnochild0 : forall y, ~ child_of x y s).
  { intros y (l & Hl & Hin). specialize (W2 y l Hl).
    rewrite Forall_forall in W2. specialize (W2 _ Hin). simpl in W2.
    fold x in Hfresh. rewrite Hfresh in W2. now destruct W2. }
  assert (Hnochild2 : forall y, ~ child_of x y t2).
  { intros y Hc. rewrite E2 in Hc.
    apply (child_of_alloc_inv _ (path r2) t1 x y) in Hc;
      [|apply new_attrs].
    rewrite E1 in Hc.
    apply (child_of_alloc_inv _ (path r1) s x y) in Hc; [|apply new_attrs].
    exact (Hnochild0 y Hc). }
  assert (Hnobuf2 : forall k, replyBuffer t2 !! k <> Some x).
  { intros k. rewrite E2. simpl. rewrite lookup_insert.
    destruct (decide (p = k)); [rewrite Hn1; intros [=]; lia|].
    rewrite E1. simpl. rewrite lookup_insert_ne by assumption.
    intros Hk. destruct (W3 _ _ Hk) as [el Hel]. congruence. }
  assert (Ha_t2 : activePosts t2 !! path r1 = Some x).
  { rewrite E2. simpl. rewrite lookup_insert_ne by congruence.
    rewrite E1. simpl. apply lookup_insert_eq. }
  assert (Hp_t2 : activePosts t2 !! p = None).
  { rewrite E2. simpl. rewrite lookup_insert_ne by congruence.
    rewrite E1. simpl. now rewrite lookup_insert_ne by congruence. }
  assert (Hs' : s' = snd (insert_update channelName u workspaceName
                            username t2)).
  { unfold s', deliver. simpl. fold t1. fold t2.
    unfold handleUpdate. rewrite Hu, Hp_t2. reflexivity. }
  assert (Hlost : forall y, ~ child_of x y s').
  { intros y Hc. rewrite Hs' in Hc.
    apply insert_update_no_new_child in Hc; [|rewrite Hn2; lia|exact Hnobuf2].
    exact (Hnochild2 y Hc). }
  split; [|split; [exact Hlost|]].
  - rewrite Hs', insert_update_activePosts, Hu.
    rewrite lookup_insert_ne by congruence. exact Ha_t2.
  - intros Hd. destruct (displayed_child _ _ Hd) as [y Hy].
    exact (Hlost y Hy).
Qed.

End TwoOrphans.

(** ** The elements that wait for a post *)

Section Waiting.

Import View.













End Waiting.

(** ** The rest of the run and the elements that wait *)

Section RestOfRun.

Import View.




End RestOfRun.

(** ** An update without reactions for a post that is already indexed *)

Section Duplicate.

Import View.


End Duplicate.

(** ** An orphan and its parent *)

Section Orphan.

Import View.


End Orphan.

(** ** The theorems on the scenarios *)

Section Witnesses.

Import View.



End Witnesses.

(** ** What loading a channel builds *)

Section Loaded.

Import View.

Lemma createNestedPosts_leaf (fuel : nat) (sp : structured) (i : nat)
    (p : ViewPost) (username channelName workspaceName : string) (s : View.t) :
  sp !! i = Some (p, []) ->
  createNestedPosts (S fuel) sp i username channelName workspaceName s
  = (Returned,
     set_activePosts (<[path p := nextId s]> (activePosts s))
       (alloc (PostElement.new (reactions (doc p)) (path p) username
                 channelName workspaceName (createdAt (meta p))) s),
     nextId s).
Proof. intros H. simpl. rewrite H. reflexivity. Qed.

(** The second loop of [displayChannelContent], over posts none of
    which has children. *)
Lemma display_loop (channelName workspaceName username : string)
    (fuel : nat) (rest : list ViewPost) :
  forall (pre : list ViewPost) (acc : View.t),
  fold_left
    (fun (acc : outcome * View.t) (i : nat) =>
       match acc, map (fun p => (p, @nil nat)) (pre ++ rest) !! i with
       | (Returned, sa), Some (post, _) =>
           if is_top_level post then
             match createNestedPosts (S fuel)
                     (map (fun p => (p, @nil nat)) (pre ++ rest)) i
                     username channelName workspaceName sa with
             | (Returned, sb, newPostElement) =>
                 append None (PostNode newPostElement) sb
             | (o, sb, _) => (o, sb)
             end
           else acc
       | _, _ => acc
       end)
    (seq (length pre) (length rest)) (Returned, acc)
  = (Returned,
     fold_left (display_root channelName workspaceName username)
       (filter (fun p => is_top_level p = true) rest) acc).
Proof.
  induction rest as [|x rest IH]; intros pre acc; [reflexivity|].
  assert (Hx : map (fun p => (p, @nil nat)) (pre ++ x :: rest) !! length pre
               = Some (x, [])).
  { rewrite list_lookup_fmap, list_lookup_middle by reflexivity. reflexivity. }
  cbn [length seq fold_left]. rewrite Hx.
  assert (Hre : pre ++ x :: rest = (pre ++ [x]) ++ rest)
    by now rewrite <- app_assoc.
  assert (Hlen : S (length pre) = length (pre ++ [x]))
    by (rewrite length_app; simpl; lia).
  destruct (is_top_level x) eqn:Htop.
  - rewrite (createNestedPosts_leaf fuel _ _ x _ _ _ acc Hx).
    rewrite filter_cons_True by exact Htop.
    cbn [fold_left].
    change (append None (PostNode (nextId acc))
              (set_activePosts (<[path x := nextId acc]> (activePosts acc))
                 (alloc (PostElement.new (reactions (doc x)) (path x) username
                           channelName workspaceName (createdAt (meta x)))
                    acc)))
      with (Returned, display_root channelName workspaceName username acc x).
    rewrite Hre, Hlen. apply IH.
  - rewrite filter_cons_False by (rewrite Htop; discriminate).
    rewrite Hre, Hlen. apply IH.
Qed.

(** Loading a channel renders its top-level posts one by one, and
    nothing else. *)
Lemma displayChannelContent_eq (channelName workspaceName username : string)
    (posts : list ViewPost) (s : View.t) :
  displayChannelContent channelName posts workspaceName username s
  = (Returned,
     fold_left (display_root channelName workspaceName username)
       (filter (fun p => is_top_level p = true) posts)
       (cleared channelName workspaceName s)).
Proof.
  unfold displayChannelContent.
  rewrite (structured_no_children posts []). simpl app.
  rewrite length_map.
  exact (display_loop channelName workspaceName username
           (length posts) posts [] (cleared channelName workspaceName s)).
Qed.

Lemma display_roots_frame (channelName workspaceName username : string)
    (roots : list ViewPost) :
  forall s : View.t,
  let s' := fold_left (display_root channelName workspaceName username)
              roots s in
  replyBuffer s' = replyBuffer s
  /\ activeReply s' = activeReply s
  /\ activeReplyBox s' = activeReplyBox s
  /\ currContent s' = currContent s
  /\ forall k, is_Some (activePosts s' !! k)
               <-> is_Some (activePosts s !! k) \/ k ∈ path <$> roots.
Proof.
  induction roots as [|x roots IH]; intros s; simpl.
  - repeat split; auto. intros [H|H]; [exact H|].
    now apply not_elem_of_nil in H.
  - destruct (IH (display_root channelName workspaceName username s x))
      as (H1 & H2 & H3 & H4 & H5).
    split; [exact H1|]. split; [exact H2|]. split; [exact H3|].
    split; [exact H4|].
    intros k. rewrite H5. simpl. rewrite lookup_insert_is_Some, elem_of_cons.
    destruct (decide (path x = k)) as [->|Hne]; [tauto|].
    assert (k <> path x) by congruence. tauto.
Qed.

Lemma paths_of_cons (s : View.t) (n : Node) (l : list Node) :
  paths_of s (n :: l)
  = match match n with
          | PostNode id => path_of s id
          | ReplyBoxNode _ => None
          end with
    | Some p => p :: paths_of s l
    | None => paths_of s l
    end.
Proof. reflexivity. Qed.

Lemma paths_of_ext (s s' : View.t) (l : list Node) :
  (forall id, PostNode id ∈ l -> path_of s' id = path_of s id) ->
  paths_of s' l = paths_of s l.
Proof.
  induction l as [|n l IH]; intros H; [reflexivity|].
  assert (Hl : paths_of s' l = paths_of s l).
  { apply IH. intros id Hin. apply H. now apply list_elem_of_further. }
  rewrite !paths_of_cons, Hl.
  destruct n as [id|b]; [|reflexivity].
  rewrite (H id) by apply list_elem_of_here. reflexivity.
Qed.

(** The channel's list after rendering: the elements of the roots, in
    the order of the roots, behind what was there. *)
Lemma display_roots_paths (channelName workspaceName username : string)
    (roots : list ViewPost) :
  forall s : View.t,
  Forall (fun n => exists id, n = PostNode id /\ (id < nextId s)%nat)
    (topLevelPosts s) ->
  let s' := fold_left (display_root channelName workspaceName username)
              roots s in
  paths_of s' (topLevelPosts s')
  = paths_of s (topLevelPosts s) ++ (path <$> roots).
Proof.
  induction roots as [|x roots IH]; intros s Hs; simpl.
  - now rewrite app_nil_r.
  - set (s1 := display_root channelName workspaceName username s x).
    assert (Htop : topLevelPosts s1 = topLevelPosts s ++ [PostNode (nextId s)]).
    { unfold s1, display_root. simpl. f_equal.
      apply remove_node_absent. intros Hin.
      rewrite Forall_forall in Hs. destruct (Hs _ Hin) as (id & [= <-] & Hlt).
      lia. }
    assert (Hheap : forall id,
              attrs <$> heap s1 !! id
              = attrs <$> (<[nextId s :=
                               PostElement.new (reactions (doc x)) (path x)
                                 username channelName workspaceName
                                 (createdAt (meta x))]> (heap s)) !! id).
    { intros id. unfold s1, display_root. simpl. rewrite lookup_fmap.
      destruct (_ !! id); reflexivity. }
    assert (Hs1 : Forall (fun n => exists id, n = PostNode id
                                              /\ (id < nextId s1)%nat)
                    (topLevelPosts s1)).
    { rewrite Htop. apply Forall_app. split.
      - eapply Forall_impl; [exact Hs|]. intros n (id & -> & Hlt).
        exists id. split; [reflexivity|]. unfold s1, display_root. simpl. lia.
      - repeat constructor. exists (nextId s). split; [reflexivity|].
        unfold s1, display_root. simpl. lia. }
    assert (Hstep : paths_of s1 (topLevelPosts s1)
                    = paths_of s (topLevelPosts s) ++ [path x]).
    { rewrite Htop. unfold paths_of at 1. rewrite omap_app. f_equal.
      - apply paths_of_ext. intros id Hin.
        rewrite Forall_forall in Hs. destruct (Hs _ Hin) as (i & [= <-] & Hlt).
        unfold path_of. rewrite (attrs_postId _ _ id (Hheap id)).
        rewrite lookup_insert_ne by lia. reflexivity.
      - simpl. unfold path_of. rewrite (attrs_postId _ _ _ (Hheap (nextId s))).
        rewrite lookup_insert_eq. simpl.
        destruct (new_attrs (reactions (doc x)) (path x) username channelName
                    workspaceName (createdAt (meta x))) as [Hat _].
        injection Hat as -> _. reflexivity. }
    rewrite (IH s1 Hs1), Hstep, <- app_assoc. reflexivity.
Qed.

(** What a load leaves behind. *)
Lemma displayChannelContent_result
    (channelName workspaceName username : string) (posts : list ViewPost)
    (s : View.t) :
  let res := displayChannelContent channelName posts workspaceName username s in
  fst res = Returned
  /\ replyBuffer (snd res) = replyBuffer s
  /\ activeReply (snd res) = activeReply s
  /\ activeReplyBox (snd res) = activeReplyBox s
  /\ currContent (snd res) = (channelName, workspaceName)
  /\ (forall k, is_Some (activePosts (snd res) !! k)
                <-> k ∈ path <$> filter (fun p => is_top_level p = true) posts)
  /\ paths_of (snd res) (topLevelPosts (snd res))
     = path <$> filter (fun p => is_top_level p = true) posts.
Proof.
  intros res. unfold res. rewrite displayChannelContent_eq. simpl.
  destruct (display_roots_frame channelName workspaceName username
              (filter (fun p => is_top_level p = true) posts)
              (cleared channelName workspaceName s))
    as (H1 & H2 & H3 & H4 & H5).
  pose proof (display_roots_paths channelName workspaceName username
                (filter (fun p => is_top_level p = true) posts)
                (cleared channelName workspaceName s)
                ltac:(constructor)) as H6.
  cbv zeta in *.
  split; [reflexivity|]. split; [exact H1|]. split; [exact H2|].
  split; [exact H3|]. split; [exact H4|]. split; [|exact H6].
  intros k. rewrite H5. simpl. rewrite lookup_empty.
  split; [intros [[x Hx]|H]; [discriminate|exact H] | auto].
Qed.

End Loaded.

(** ** Loading a channel: the active index, the buffer, the cursor *)

Section ChannelLoad.

Import View.

(** C2 at its failing input.  Whatever the posts, the active index after
    a load has an entry for the paths of the posts without parent and
    for no other path.  Loading a post and a reply to it returns with
    one entry for two posts: the reply is neither indexed nor on
    display. *)
Theorem C2_load_leaves_replies_out :
  (forall (channelName workspaceName username : string)
          (posts : list ViewPost) (s : View.t) (k : string),
     is_Some (activePosts
                (snd (displayChannelContent channelName posts workspaceName
                        username s)) !! k)
     <-> k ∈ path <$> filter (fun p => is_top_level p = true) posts)
  /\ fst Scenario.loaded = Returned
  /\ length [Scenario.p1; Scenario.r1] = 2%nat
  /\ size (activePosts (snd Scenario.loaded)) = 1%nat
  /\ activePosts (snd Scenario.loaded) !! path Scenario.r1 = None
  /\ times_displayed (path Scenario.r1) (snd Scenario.loaded) = 0%nat
  /\ times_displayed (path Scenario.p1) (snd Scenario.loaded) = 1%nat.
Proof.
  split.
  - intros channelName workspaceName username posts s k.
    apply (displayChannelContent_result channelName workspaceName username
             posts s).
  - vm_compute. repeat split.
Qed.

(** C7 at its failing input.  A load never writes the reply buffer or
    the reply cursor.  Loading another channel while an orphan waits and
    a reply editor is open empties the active index, but the orphan of
    the old channel is still in the reply buffer and the reply cursor
    still names the old post. *)
Theorem C7_switch_keeps_buffer_and_cursor :
  (forall (channelName workspaceName username : string)
          (posts : list ViewPost) (s : View.t),
     let s' := snd (displayChannelContent channelName posts workspaceName
                      username s) in
     replyBuffer s' = replyBuffer s
     /\ activeReply s' = activeReply s
     /\ activeReplyBox s' = activeReplyBox s)
  /\ fst Scenario.after_switch = Returned
  /\ size (activePosts (snd Scenario.after_switch)) = 0%nat
  /\ replyBuffer Scenario.before_switch !! "/w/channels/c/posts/p9"%string
     = Some 1%nat
  /\ replyBuffer (snd Scenario.after_switch) !! "/w/channels/c/posts/p9"%string
     = Some 1%nat
  /\ activeReply (snd Scenario.after_switch)
     = Some "/w/channels/c/posts/p1"%string
  /\ activeReplyBox (snd Scenario.after_switch) = Some 2%nat.
Proof.
  split.
  - intros channelName workspaceName username posts s.
    destruct (displayChannelContent_result channelName workspaceName username
                posts s) as (_ & H1 & H2 & H3 & _).
    cbv zeta. auto.
  - vm_compute. repeat split.
Qed.

(** Two loads in a row leave the paths in the index, the paths on
    display, the buffer and the cursor as the second load alone does. *)
Lemma load_twice (c1 w1 u1 c2 w2 u2 : string) (posts1 posts2 : list ViewPost)
    (s : View.t) :
  let once := snd (displayChannelContent c2 posts2 w2 u2 s) in
  let twice :=
    snd (displayChannelContent c2 posts2 w2 u2
           (snd (displayChannelContent c1 posts1 w1 u1 s))) in
  (forall k, is_Some (activePosts twice !! k)
             <-> is_Some (activePosts once !! k))
  /\ paths_of twice (topLevelPosts twice) = paths_of once (topLevelPosts once)
  /\ currContent twice = currContent once
  /\ replyBuffer twice = replyBuffer once
  /\ activeReply twice = activeReply once
  /\ activeReplyBox twice = activeReplyBox once.
Proof.
  intros once twice. subst once twice.
  destruct (displayChannelContent_result c1 w1 u1 posts1 s)
    as (_ & A1 & A2 & A3 & _).
  destruct (displayChannelContent_result c2 w2 u2 posts2 s)
    as (_ & B1 & B2 & B3 & B4 & B5 & B6).
  destruct (displayChannelContent_result c2 w2 u2 posts2
              (snd (displayChannelContent c1 posts1 w1 u1 s)))
    as (_ & C1 & C2 & C3 & C4 & C5 & C6).
  cbv zeta in *.
  split; [intros k; now rewrite B5, C5|].
  split; [now rewrite B6, C6|].
  split; [now rewrite B4, C4|].
  split; [now rewrite C1, A1, B1|].
  split; [now rewrite C2, A2, B2 | now rewrite C3, A3, B3].
Qed.

End ChannelLoad.

(** ** Strings *)

Section Strings.

Lemma append_cons (a : ascii) (s t : string) :
  String a s +:+ t = String a (s +:+ t).
Proof. reflexivity. Qed.

Lemma append_nil_l (s : string) : "" +:+ s = s.
Proof. reflexivity. Qed.

Lemma append_nil_r (s : string) : s +:+ "" = s.
Proof.
  induction s as [|a s IH]; [reflexivity|]. now rewrite append_cons, IH.
Qed.

Lemma append_assoc (s t u : string) : (s +:+ t) +:+ u = s +:+ t +:+ u.
Proof.
  induction s as [|a s IH]; [reflexivity|]. now rewrite !append_cons, IH.
Qed.

Lemma length_append (s t : string) :
  String.length (s +:+ t) = (String.length s + String.length t)%nat.
Proof.
  induction s as [|a s IH]; [reflexivity|].
  rewrite append_cons. simpl. now rewrite IH.
Qed.

Lemma chars_append (s t : string) :
  list_ascii_of_string (s +:+ t)
  = list_ascii_of_string s ++ list_ascii_of_string t.
Proof.
  induction s as [|a s IH]; [reflexivity|].
  rewrite append_cons. simpl. now rewrite IH.
Qed.

Lemma prefix_append (p s : string) : String.prefix p (p +:+ s) = true.
Proof.
  induction p as [|a p IH]; [now destruct s|].
  rewrite append_cons. simpl.
  destruct (ascii_dec a a); [exact IH | congruence].
Qed.

Lemma prefix_head (a c : ascii) (p s : string) :
  a <> c -> String.prefix (String a p) (String c s) = false.
Proof. intros H. simpl. destruct (ascii_dec a c); [congruence | reflexivity]. Qed.

Lemma prefix_nil_r (a : ascii) (p : string) :
  String.prefix (String a p) "" = false.
Proof. reflexivity. Qed.

Lemma drop_chars_append (s t : string) :
  Message.drop_chars (String.length s) (s +:+ t) = t.
Proof.
  induction s as [|a s IH]; [now destruct t|].
  rewrite append_cons. simpl. exact IH.
Qed.

End Strings.

(** ** Escaping a message *)

Section Escape.

Import Message.

Lemma replace_char_append (c : ascii) (by_text s t : string) :
  replace_char c by_text (s +:+ t)
  = replace_char c by_text s +:+ replace_char c by_text t.
Proof.
  induction s as [|a s IH]; [reflexivity|].
  rewrite append_cons. simpl.
  destruct (Ascii.eqb a c); rewrite IH; [|reflexivity].
  now rewrite append_assoc.
Qed.

Lemma escapeHtml_append (s t : string) :
  escapeHtml (s +:+ t) = escapeHtml s +:+ escapeHtml t.
Proof. unfold escapeHtml. now rewrite !replace_char_append. Qed.

Lemma escapeHtml_cons (a : ascii) (s : string) :
  escapeHtml (String a s) = escaped_char a +:+ escapeHtml s.
Proof. exact (escapeHtml_append (Js.str1 a) s). Qed.

Lemma escaped_char_cases (a : ascii) :
  (a = "&"%char /\ escaped_char a = "&amp;")
  \/ (a = "<"%char /\ escaped_char a = "&lt;")
  \/ (a = ">"%char /\ escaped_char a = "&gt;")
  \/ (a = Js.dquote /\ escaped_char a = "&quot;")
  \/ (a = "'"%char /\ escaped_char a = "&#039;")
  \/ (~ html_special a /\ escaped_char a = Js.str1 a).
Proof.
  unfold html_special.
  destruct a as [[] [] [] [] [] [] [] []]; vm_compute;
    first [ now left
          | right; now left
          | right; right; now left
          | right; right; right; now left
          | right; right; right; right; now left
          | right; right; right; right; right;
            split; [intros [H|[H|[H|[H|H]]]]; discriminate | reflexivity] ].
Qed.

End Escape.

Section EscapeProperties.

Import Message.

Lemma all_chars_cons (P : ascii -> Prop) (a : ascii) (s : string) :
  all_chars P (String a s) <-> P a /\ all_chars P s.
Proof. unfold all_chars. simpl. apply Forall_cons. Qed.

Lemma all_chars_append (P : ascii -> Prop) (s t : string) :
  all_chars P (s +:+ t) <-> all_chars P s /\ all_chars P t.
Proof. unfold all_chars. rewrite chars_append. apply Forall_app. Qed.

Lemma all_chars_nil (P : ascii -> Prop) : all_chars P "".
Proof. constructor. Qed.

Lemma all_chars_impl (P Q : ascii -> Prop) (s : string) :
  (forall c, P c -> Q c) -> all_chars P s -> all_chars Q s.
Proof. intros H Hs. exact (Forall_impl _ _ _ Hs H). Qed.

Lemma escapeHtml_chars (text : string) :
  all_chars (fun c => c <> "<"%char /\ c <> ">"%char /\ c <> Js.dquote
                      /\ c <> "'"%char)
    (escapeHtml text).
Proof.
  induction text as [|a text IH]; [apply all_chars_nil|].
  rewrite escapeHtml_cons. apply all_chars_append. split; [|exact IH].
  destruct (escaped_char_cases a)
    as [[_ ->]|[[_ ->]|[[_ ->]|[[_ ->]|[[_ ->]|[Hn ->]]]]]];
    try (repeat (apply all_chars_cons; split;
                 [repeat split; discriminate|]); apply all_chars_nil).
  apply all_chars_cons. split; [|apply all_chars_nil].
  unfold html_special in Hn. repeat split; intros ->; apply Hn; tauto.
Qed.

(** X1.  The text [escapeHtml] returns holds no [<], no [>], no double
    quote and no apostrophe, whatever the message. *)
Theorem X1_escapeHtml_leaves_no_markup (text : string) :
  all_chars (fun c => c <> "<"%char /\ c <> ">"%char /\ c <> Js.dquote
                      /\ c <> "'"%char)
    (escapeHtml text).
Proof. exact (escapeHtml_chars text). Qed.

Lemma escaped_char_head (a : ascii) :
  exists c rest, escaped_char a = String c rest
    /\ (html_special a -> c = "&"%char)
    /\ (~ html_special a -> c = a /\ rest = "").
Proof.
  destruct (escaped_char_cases a)
    as [[-> ->]|[[-> ->]|[[-> ->]|[[-> ->]|[[-> ->]|[Hn ->]]]]]];
    try (eexists _, _; split; [reflexivity|]; split; [reflexivity|];
         intros H; exfalso; apply H; unfold html_special; tauto).
  exists a, "". split; [reflexivity|]. split; [contradiction | tauto].
Qed.

(** X2.  [escapeHtml] loses nothing: two messages with the same escaped
    text are the same message. *)
Theorem X2_escapeHtml_injective (s t : string) :
  escapeHtml s = escapeHtml t -> s = t.
Proof.
  revert t. induction s as [|a s IH]; intros [|b t].
  - reflexivity.
  - rewrite escapeHtml_cons.
    destruct (escaped_char_head b) as (c & r & -> & _). discriminate.
  - rewrite escapeHtml_cons.
    destruct (escaped_char_head a) as (c & r & -> & _). discriminate.
  - rewrite !escapeHtml_cons. intros H.
    assert (Hab : a = b /\ escapeHtml s = escapeHtml t).
    { destruct (escaped_char_cases a)
        as [[-> Ea]|[[-> Ea]|[[-> Ea]|[[-> Ea]|[[-> Ea]|[Hna Ea]]]]]];
      destruct (escaped_char_cases b)
        as [[-> Eb]|[[-> Eb]|[[-> Eb]|[[-> Eb]|[[-> Eb]|[Hnb Eb]]]]]];
      rewrite ?Ea, ?Eb in H; unfold Js.str1 in H;
      rewrite ?append_cons, ?append_nil_l in H;
      try (injection H as H; try discriminate; split; [reflexivity|exact H]);
      try discriminate.
      all: injection H as H1 H2; subst;
        try (exfalso; first [apply Hna | apply Hnb]; unfold html_special;
             tauto).
      split; [reflexivity | assumption]. }
    destruct Hab as [-> Hst]. f_equal. exact (IH t Hst).
Qed.

Lemma X2_escapeHtml_injective_witness :
  escapeHtml "a<b & c" = escapeHtml "a<b & c" /\ "a<b & c" = "a<b & c".
Proof.
  split; [reflexivity|]. apply X2_escapeHtml_injective. reflexivity.
Defined.

End EscapeProperties.

(** ** Formatting a message *)

Section Formatting.

Import Message.

Lemma replace_char_other (c : ascii) (by_text s : string) :
  all_chars (fun a => a <> c) s -> replace_char c by_text s = s.
Proof.
  induction s as [|a s IH]; [reflexivity|].
  intros [Ha Hs]%all_chars_cons. simpl.
  destruct (Ascii.eqb_spec a c) as [->|_]; [congruence|].
  now rewrite IH.
Qed.

Lemma escapeHtml_plain (s : string) :
  all_chars (fun a => ~ html_special a) s -> escapeHtml s = s.
Proof.
  intros H. unfold escapeHtml.
  assert (Hc : forall c, html_special c -> all_chars (fun a => a <> c) s).
  { intros c Hc. revert H. apply all_chars_impl. intros a Ha ->. exact (Ha Hc). }
  rewrite (replace_char_other "&") by (apply Hc; unfold html_special; tauto).
  rewrite (replace_char_other "<") by (apply Hc; unfold html_special; tauto).
  rewrite (replace_char_other ">") by (apply Hc; unfold html_special; tauto).
  rewrite (replace_char_other Js.dquote)
    by (apply Hc; unfold html_special; tauto).
  rewrite (replace_char_other "'") by (apply Hc; unfold html_special; tauto).
  reflexivity.
Qed.

Lemma replace_matches_prefix (m : string -> option (string * nat))
    (c : ascii) (a s : string) :
  starts_with c m -> all_chars (fun x => x <> c) a ->
  replace_matches m 0 (a +:+ s) = a +:+ replace_matches m 0 s.
Proof.
  intros Hm. induction a as [|x a IH]; [reflexivity|].
  intros [Hx Ha]%all_chars_cons. rewrite !append_cons. simpl.
  rewrite (Hm x _ Hx). now rewrite IH.
Qed.

Lemma replace_matches_other (m : string -> option (string * nat))
    (c : ascii) (s : string) :
  starts_with c m -> all_chars (fun x => x <> c) s ->
  replace_matches m 0 s = s.
Proof.
  intros Hm Hs.
  rewrite <- (append_nil_r s) at 1.
  rewrite (replace_matches_prefix m c s "" Hm Hs). simpl.
  apply append_nil_r.
Qed.

Lemma replace_matches_skip (m : string -> option (string * nat))
    (u v : string) :
  replace_matches m (String.length u) (u +:+ v) = replace_matches m 0 v.
Proof.
  induction u as [|x u IH]; [reflexivity|].
  rewrite append_cons. simpl. exact IH.
Qed.

Lemma replace_matches_here (m : string -> option (string * nat))
    (x : ascii) (u v replacement : string) :
  m (String x (u +:+ v)) = Some (replacement, S (String.length u)) ->
  replace_matches m 0 (String x (u +:+ v))
  = replacement +:+ replace_matches m 0 v.
Proof.
  intros H. simpl. rewrite H. simpl. now rewrite replace_matches_skip.
Qed.

Lemma delimited_starts (d open_tag close_tag : string) :
  starts_with "*" (delimited (String "*" d) open_tag close_tag).
Proof.
  intros a rest Ha. unfold delimited.
  now rewrite prefix_head by congruence.
Qed.

Lemma link_starts : starts_with "[" link.
Proof.
  intros a rest Ha. unfold link.
  destruct a as [[] [] [] [] [] [] [] []]; try reflexivity. congruence.
Qed.

Lemma literal_starts (c : ascii) (p by_text : string) :
  starts_with c (literal (String c p) by_text).
Proof.
  intros a rest Ha. unfold literal.
  now rewrite prefix_head by congruence.
Qed.

Ltac plain :=
  solve [ unfold plain_char; apply (bool_decide_unpack _); vm_compute;
          exact I ].

(** A pattern found at the start of a text followed by a character
    that the pattern does not hold is found in the text itself. *)
Lemma prefix_before (d : ascii) (t v tail : string) :
  all_chars (fun c => c <> d) t ->
  String.prefix t (v +:+ String d tail) = true -> String.prefix t v = true.
Proof.
  revert v. induction t as [|a t IH]; intros v Ht; [now destruct v|].
  apply all_chars_cons in Ht as [Ha Ht].
  destruct v as [|c v].
  - rewrite append_nil_l. simpl.
    destruct (ascii_dec a d); [congruence | discriminate].
  - rewrite append_cons. simpl.
    destruct (ascii_dec a c); [|discriminate]. now apply IH.
Qed.

(** What [.] says at the start of a text does not change when a
    character that occurs in no line terminator is put behind the
    text. *)
Lemma dot_before (d : ascii) (v tail : string) :
  plain_char d -> dot v = true -> dot (v +:+ String d tail) = true.
Proof.
  intros Hd. unfold dot. rewrite !negb_true_iff.
  intros Hv. apply not_true_is_false. intros H.
  apply existsb_exists in H as (t & Ht & Hp).
  assert (Hex : existsb (fun t => String.prefix t v) line_terminators = true).
  { apply existsb_exists. exists t. split; [exact Ht|].
    apply (prefix_before d t v tail); [|exact Hp].
    unfold plain_char in Hd. rewrite Forall_forall in Hd.
    apply Hd. now apply list_elem_of_In. }
  congruence.
Qed.

Lemma lazy_until_step (stop : string) (c : ascii) (rest : string) :
  lazy_until stop (String c rest)
  = if dot (String c rest) then
      if String.prefix stop rest then Some (Js.str1 c)
      else String c <$> lazy_until stop rest
    else None.
Proof. reflexivity. Qed.

(** The group of [(.+?)stop] on a text that has no first character of
    [stop] before [stop] itself. *)
Lemma lazy_until_found (d : ascii) (stop x b : string) :
  plain_char d ->
  x <> "" -> one_line x = true ->
  all_chars (fun c => c <> d) x ->
  lazy_until (String d stop) (x +:+ String d stop +:+ b) = Some x.
Proof.
  intros Hplain.
  induction x as [|c x IH]; [congruence|]. intros _.
  intros [Hc Hx]%andb_prop [_ Hd]%all_chars_cons.
  assert (Hdot : dot (String c (x +:+ String d stop +:+ b)) = true).
  { change (String d stop +:+ b) with (String d (stop +:+ b)).
    rewrite <- append_cons. now apply dot_before. }
  rewrite append_cons, lazy_until_step, Hdot.
  destruct x as [|c' x].
  - rewrite append_nil_l. now rewrite prefix_append.
  - rewrite append_cons.
    apply all_chars_cons in Hd as Hd'. destruct Hd' as [Hc' _].
    rewrite prefix_head by congruence.
    rewrite <- append_cons, IH by (assumption || discriminate).
    reflexivity.
Qed.

Lemma inert_not (c : ascii) :
  inert c ->
  ~ html_special c /\ c <> lf /\ c <> "*"%char /\ c <> "["%char
  /\ c <> ":"%char.
Proof. exact id. Qed.

Lemma inert_text (P : ascii -> Prop) (s : string) :
  (forall c, inert c -> P c) -> all_chars inert s -> all_chars P s.
Proof. apply all_chars_impl. Qed.

Ltac inert_side :=
  match goal with
  | H : all_chars inert ?s |- all_chars _ ?s =>
      revert H; apply all_chars_impl;
      let c := fresh "c" in
      intros c (? & ? & ? & ? & ?); try assumption; try congruence
  end.

(** Text that is copied as it is by every step. *)
Lemma escapeHtml_inert (s : string) : all_chars inert s -> escapeHtml s = s.
Proof. intros H. apply escapeHtml_plain. inert_side. Qed.

(** X3.  A message made of characters that no step reacts to (none of
    [&], [<], [>], the quotes, line feed, [*], [[] and [:]) is shown as
    it was written. *)
Theorem X3_parseMessage_plain_text (message : string) :
  all_chars inert message -> parseMessage message = message.
Proof.
  intros H. unfold parseMessage.
  rewrite escapeHtml_inert by exact H.
  rewrite replace_char_other by inert_side.
  rewrite (replace_matches_other (delimited "**" _ _) "*") by
    (first [apply delimited_starts | inert_side]).
  rewrite (replace_matches_other (delimited "*" _ _) "*") by
    (first [apply delimited_starts | inert_side]).
  rewrite (replace_matches_other link "[") by
    (first [apply link_starts | inert_side]).
  rewrite (replace_matches_other (literal ":smile:" _) ":") by
    (first [apply literal_starts | inert_side]).
  rewrite (replace_matches_other (literal ":frown:" _) ":") by
    (first [apply literal_starts | inert_side]).
  rewrite (replace_matches_other (literal ":like:" _) ":") by
    (first [apply literal_starts | inert_side]).
  rewrite (replace_matches_other (literal ":celebrate:" _) ":") by
    (first [apply literal_starts | inert_side]).
  reflexivity.
Qed.

Lemma X3_parseMessage_plain_text_witness :
  all_chars inert "See you at 5 (room 2)!"
  /\ parseMessage "See you at 5 (room 2)!" = "See you at 5 (room 2)!".
Proof.
  split; [|apply X3_parseMessage_plain_text];
    apply (bool_decide_unpack _); vm_compute; exact I.
Defined.

Lemma replace_matches_none (m : string -> option (string * nat))
    (c : ascii) (r : string) :
  m (String c r) = None ->
  replace_matches m 0 (String c r) = String c (replace_matches m 0 r).
Proof. intros H. simpl. now rewrite H. Qed.

Ltac lit_char :=
  first
    [ discriminate
    | reflexivity
    | unfold html_special; intros [?|[?|[?|[?|?]]]]; discriminate ].

Ltac chars :=
  solve [ repeat first
    [ assumption
    | apply all_chars_nil
    | apply all_chars_append; split
    | apply all_chars_cons; split; [lit_char|]
    | inert_side ] ].

(** A delimited run whose text has no star in it is found as a whole. *)
Lemma replace_delimited (d open_tag close_tag x b : string) :
  x <> "" -> one_line x = true ->
  all_chars (fun c => c <> "*"%char) x ->
  replace_matches (delimited (String "*" d) open_tag close_tag) 0
    (String "*" d +:+ x +:+ String "*" d +:+ b)
  = open_tag +:+ x +:+ close_tag
    +:+ replace_matches (delimited (String "*" d) open_tag close_tag) 0 b.
Proof.
  intros Hx Hdot Hstar.
  set (m := delimited (String "*" d) open_tag close_tag).
  assert (Hm : m (String "*" d +:+ x +:+ String "*" d +:+ b)
               = Some (open_tag +:+ x +:+ close_tag,
                       (2 * String.length (String "*" d) + String.length x)%nat)).
  { unfold m, delimited. rewrite prefix_append, drop_chars_append.
    now rewrite lazy_until_found by (first [plain | assumption]). }
  rewrite append_cons in Hm |- *.
  replace (d +:+ x +:+ String "*" d +:+ b)
    with ((d +:+ x +:+ String "*" d) +:+ b) in Hm |- *
    by now rewrite !append_assoc.
  rewrite (replace_matches_here m "*" _ b (open_tag +:+ x +:+ close_tag)).
  - now rewrite !append_assoc.
  - rewrite Hm. do 2 f_equal. rewrite !length_append. simpl. lia.
Qed.

Lemma parseMessage_bold (a x b : string) :
  all_chars inert a -> all_chars inert x -> all_chars inert b ->
  x <> "" -> one_line x = true ->
  parseMessage (a +:+ "**" +:+ x +:+ "**" +:+ b)
  = a +:+ "<strong>" +:+ x +:+ "</strong>" +:+ b.
Proof.
  intros Ha Hx Hb Hne Hcr. unfold parseMessage.
  rewrite escapeHtml_plain by chars.
  rewrite replace_char_other by chars.
  rewrite (replace_matches_prefix (delimited "**" _ _) "*")
    by (first [apply delimited_starts | chars]).
  rewrite replace_delimited by (first [exact Hne | exact Hcr | chars]).
  rewrite (replace_matches_other (delimited "**" _ _) "*" b)
    by (first [apply delimited_starts | chars]).
  rewrite (replace_matches_other (delimited "*" _ _) "*") by
    (first [apply delimited_starts | chars]).
  rewrite (replace_matches_other link "[") by
    (first [apply link_starts | chars]).
  rewrite (replace_matches_other (literal ":smile:" _) ":") by
    (first [apply literal_starts | chars]).
  rewrite (replace_matches_other (literal ":frown:" _) ":") by
    (first [apply literal_starts | chars]).
  rewrite (replace_matches_other (literal ":like:" _) ":") by
    (first [apply literal_starts | chars]).
  rewrite (replace_matches_other (literal ":celebrate:" _) ":") by
    (first [apply literal_starts | chars]).
  reflexivity.
Qed.

(** X4.  Text between two pairs of stars is shown in [<strong>]: for
    inert text before, between and after, the text between not empty
    and without line terminator (no carriage return, no line separator
    U+2028 and no paragraph separator U+2029; inert text has no line
    feed). *)
Theorem X4_parseMessage_bold (a x b : string) :
  all_chars inert a -> all_chars inert x -> all_chars inert b ->
  x <> "" -> one_line x = true ->
  parseMessage (a +:+ "**" +:+ x +:+ "**" +:+ b)
  = a +:+ "<strong>" +:+ x +:+ "</strong>" +:+ b.
Proof. apply parseMessage_bold. Qed.

Lemma prefix_star_inert (p x rest : string) :
  all_chars inert x -> x <> "" ->
  String.prefix (String "*" p) (x +:+ rest) = false.
Proof.
  destruct x as [|c x]; [congruence|].
  intros [(_ & _ & Hc & _) _]%all_chars_cons _.
  rewrite append_cons. apply prefix_head. congruence.
Qed.

Lemma delimited_single_star (open_tag close_tag x rest : string) :
  all_chars inert x ->
  (x = "" -> rest = "") ->
  delimited "**" open_tag close_tag (String "*" (x +:+ rest)) = None.
Proof.
  intros Hx Hrest. unfold delimited.
  assert (String.prefix "**" (String "*" (x +:+ rest)) = false) as ->;
    [|reflexivity].
  simpl. destruct x as [|c x].
  - rewrite (Hrest eq_refl). reflexivity.
  - apply all_chars_cons in Hx as [(_ & _ & Hc & _) _].
    rewrite append_cons. apply prefix_head. congruence.
Qed.

Lemma delimited_last_star (open_tag close_tag b : string) :
  all_chars inert b ->
  delimited "**" open_tag close_tag (String "*" b) = None.
Proof.
  intros Hb. rewrite <- (append_nil_r b).
  apply delimited_single_star; [exact Hb | reflexivity].
Qed.

Lemma parseMessage_italic (a x b : string) :
  all_chars inert a -> all_chars inert x -> all_chars inert b ->
  x <> "" -> one_line x = true ->
  parseMessage (a +:+ "*" +:+ x +:+ "*" +:+ b)
  = a +:+ "<em>" +:+ x +:+ "</em>" +:+ b.
Proof.
  intros Ha Hx Hb Hne Hcr. unfold parseMessage.
  rewrite escapeHtml_plain by chars.
  rewrite replace_char_other by chars.
  (* the pattern for bold finds nothing *)
  rewrite (replace_matches_prefix (delimited "**" _ _) "*")
    by (first [apply delimited_starts | chars]).
  change ("*" +:+ x +:+ "*" +:+ b) with (String "*" (x +:+ "*" +:+ b)).
  rewrite replace_matches_none
    by (apply delimited_single_star; [exact Hx | congruence]).
  rewrite (replace_matches_prefix (delimited "**" _ _) "*" x)
    by (first [apply delimited_starts | chars]).
  change ("*" +:+ b) with (String "*" b).
  rewrite replace_matches_none by (apply delimited_last_star; exact Hb).
  rewrite (replace_matches_other (delimited "**" _ _) "*" b)
    by (first [apply delimited_starts | chars]).
  (* the pattern for italics finds the run *)
  rewrite (replace_matches_prefix (delimited "*" _ _) "*")
    by (first [apply delimited_starts | chars]).
  change (String "*" (x +:+ String "*" b))
    with ("*" +:+ x +:+ "*" +:+ b).
  rewrite replace_delimited by (first [exact Hne | exact Hcr | chars]).
  rewrite (replace_matches_other (delimited "*" _ _) "*" b)
    by (first [apply delimited_starts | chars]).
  rewrite (replace_matches_other link "[") by
    (first [apply link_starts | chars]).
  rewrite (replace_matches_other (literal ":smile:" _) ":") by
    (first [apply literal_starts | chars]).
  rewrite (replace_matches_other (literal ":frown:" _) ":") by
    (first [apply literal_starts | chars]).
  rewrite (replace_matches_other (literal ":like:" _) ":") by
    (first [apply literal_starts | chars]).
  rewrite (replace_matches_other (literal ":celebrate:" _) ":") by
    (first [apply literal_starts | chars]).
  reflexivity.
Qed.

(** X5.  Text between two single stars is shown in [<em>]: for inert
    text before, between and after, the text between not empty and
    without line terminator (no carriage return, no line separator
    U+2028 and no paragraph separator U+2029). *)
Theorem X5_parseMessage_italic (a x b : string) :
  all_chars inert a -> all_chars inert x -> all_chars inert b ->
  x <> "" -> one_line x = true ->
  parseMessage (a +:+ "*" +:+ x +:+ "*" +:+ b)
  = a +:+ "<em>" +:+ x +:+ "</em>" +:+ b.
Proof. apply parseMessage_italic. Qed.

Lemma link_parts_cons (c : ascii) (rest : string) :
  link_parts (String c rest)
  = if dot (String c rest) then
      match (if String.prefix "](" rest
             then lazy_until ")" (drop_chars 2 rest) else None) with
      | Some url => Some (Js.str1 c, url)
      | None =>
          match link_parts rest with
          | Some (text, url) => Some (String c text, url)
          | None => None
          end
      end
    else None.
Proof. reflexivity. Qed.

Lemma link_parts_found (text url b : string) :
  text <> "" -> one_line text = true ->
  all_chars (fun c => c <> "]"%char) text ->
  url <> "" -> one_line url = true ->
  all_chars (fun c => c <> ")"%char) url ->
  link_parts (text +:+ "](" +:+ url +:+ ")" +:+ b) = Some (text, url).
Proof.
  intros Ht Hdot Hbr Hu Hudot Hupar.
  induction text as [|c text IH]; [congruence|].
  apply andb_prop in Hdot as [Hc Hdot].
  apply all_chars_cons in Hbr as [_ Hbr].
  assert (Hd : dot (String c (text +:+ "](" +:+ url +:+ ")" +:+ b)) = true).
  { change ("](" +:+ url +:+ ")" +:+ b)
      with (String "]" ("(" +:+ url +:+ ")" +:+ b)).
    rewrite <- append_cons. apply dot_before; [plain | exact Hc]. }
  rewrite append_cons, link_parts_cons, Hd.
  destruct text as [|c' text].
  - rewrite append_nil_l.
    rewrite prefix_append.
    change 2%nat with (String.length "](").
    rewrite drop_chars_append.
    now rewrite (lazy_until_found ")" "" url b) by (first [plain | assumption]).
  - apply all_chars_cons in Hbr as Hbr'. destruct Hbr' as [Hc' _].
    rewrite append_cons.
    rewrite prefix_head by congruence.
    rewrite <- append_cons, IH by (assumption || discriminate).
    reflexivity.
Qed.

Lemma prefix_split (p s : string) :
  String.prefix p s = true -> exists r, s = p +:+ r.
Proof.
  revert s. induction p as [|a p IH]; intros s.
  - exists s. reflexivity.
  - destruct s as [|c s]; [discriminate|]. simpl.
    destruct (ascii_dec a c) as [->|]; [|discriminate].
    intros [r ->]%IH. exists r. reflexivity.
Qed.

Lemma lower_colon (c : ascii) : lower c = ":"%char -> c = ":"%char.
Proof. destruct c as [[] [] [] [] [] [] [] []]; vm_compute; congruence. Qed.

Lemma chars_lower_string (s : string) :
  all_chars (fun c => c <> ":"%char) s ->
  all_chars (fun c => c <> ":"%char) (lower_string s).
Proof.
  induction s as [|c s IH]; [intros _; apply all_chars_nil|].
  intros [Hc Hs]%all_chars_cons. simpl. apply all_chars_cons.
  split; [|auto]. intros H%lower_colon. congruence.
Qed.

Lemma has_scheme_colon (url : string) :
  all_chars (fun c => c <> ":"%char) url -> has_scheme url = false.
Proof.
  intros H%chars_lower_string. unfold has_scheme.
  apply orb_false_intro; apply not_true_is_false;
    intros [r Hr]%prefix_split; rewrite Hr in H;
    apply all_chars_append in H as [H _];
    unfold all_chars in H; rewrite Forall_forall in H;
    (eapply H; [|reflexivity]); simpl;
    repeat first [left; reflexivity | right].
Qed.

(** The one colon of a link's address starts no reaction code. *)
Lemma literal_colon_slash (c : ascii) (p by_text a b : string) :
  c <> "/"%char ->
  all_chars (fun x => x <> ":"%char) a ->
  all_chars (fun x => x <> ":"%char) b ->
  replace_matches (literal (String ":" (String c p)) by_text) 0
    (a +:+ String ":" (String "/" b))
  = a +:+ String ":" (String "/" b).
Proof.
  intros Hc Ha Hb.
  rewrite (replace_matches_prefix _ ":") by
    (first [apply literal_starts | assumption]).
  rewrite replace_matches_none.
  - rewrite (replace_matches_other _ ":" (String "/" b)); [reflexivity| |].
    + apply literal_starts.
    + apply all_chars_cons. split; [discriminate | exact Hb].
  - unfold literal. simpl.
    destruct (ascii_dec c "/"); [congruence | reflexivity].
Qed.

(** X6.  A bracketed text followed by an address in parentheses is
    shown as a link that opens in a new tab; an address without a
    colon gets [http://] put before it.  The text and the address are
    not empty and hold no line terminator (no carriage return, no line
    separator U+2028 and no paragraph separator U+2029), the text no
    closing bracket and the address no closing parenthesis. *)
Theorem X6_parseMessage_link (a text url b : string) :
  all_chars inert a -> all_chars inert text -> all_chars inert url ->
  all_chars inert b ->
  text <> "" -> one_line text = true ->
  all_chars (fun c => c <> "]"%char) text ->
  url <> "" -> one_line url = true ->
  all_chars (fun c => c <> ")"%char) url ->
  parseMessage (a +:+ "[" +:+ text +:+ "](" +:+ url +:+ ")" +:+ b)
  = a +:+ "<a href=" +:+ quoted ("http://" +:+ url) +:+ " target="
    +:+ quoted "_blank" +:+ ">" +:+ text +:+ "</a>" +:+ b.
Proof.
  intros Ha Ht Hu Hb Hne Htcr Htbr Hune Hucr Hupar. unfold parseMessage.
  rewrite escapeHtml_plain by chars.
  rewrite replace_char_other by chars.
  rewrite (replace_matches_other (delimited "**" _ _) "*")
    by (first [apply delimited_starts | chars]).
  rewrite (replace_matches_other (delimited "*" _ _) "*")
    by (first [apply delimited_starts | chars]).
  rewrite (replace_matches_prefix link "[")
    by (first [apply link_starts | chars]).
  assert (Hm : link ("[" +:+ text +:+ "](" +:+ url +:+ ")" +:+ b)
               = Some (anchor text url,
                       (4 + String.length text + String.length url)%nat)).
  { change ("[" +:+ text +:+ "](" +:+ url +:+ ")" +:+ b)
      with (String "[" (text +:+ "](" +:+ url +:+ ")" +:+ b)).
    unfold link.
    now rewrite link_parts_found by assumption. }
  change ("[" +:+ text +:+ "](" +:+ url +:+ ")" +:+ b)
    with (String "[" (text +:+ "](" +:+ url +:+ ")" +:+ b)) in Hm |- *.
  replace (text +:+ "](" +:+ url +:+ ")" +:+ b)
    with ((text +:+ "](" +:+ url +:+ ")") +:+ b) in Hm |- *
    by now rewrite !append_assoc.
  rewrite (replace_matches_here link "[" _ b (anchor text url))
    by (rewrite Hm; do 2 f_equal; rewrite !length_append; simpl; lia).
  rewrite (replace_matches_other link "[" b)
    by (first [apply link_starts | chars]).
  unfold anchor. rewrite has_scheme_colon by chars.
  unfold quoted, Js.str1.
  set (tail := url +:+ String Js.dquote "" +:+ " target="
               +:+ String Js.dquote ("_blank" +:+ String Js.dquote "")
               +:+ ">" +:+ text +:+ "</a>" +:+ b).
  assert (Htail : all_chars (fun x => x <> ":"%char) ("/" +:+ tail))
    by (unfold tail; chars).
  assert (Hshape :
    a +:+ ("<a href=" +:+ String Js.dquote
             (("http://" +:+ url) +:+ String Js.dquote "") +:+ " target="
             +:+ String Js.dquote ("_blank" +:+ String Js.dquote "")
             +:+ ">" +:+ text +:+ "</a>") +:+ b
    = (a +:+ "<a href=" +:+ String Js.dquote "http")
      +:+ String ":" (String "/" ("/" +:+ tail))).
  { unfold tail. rewrite !append_assoc. rewrite !append_cons.
    rewrite !append_nil_l. rewrite !append_assoc. reflexivity. }
  rewrite Hshape.
  rewrite !literal_colon_slash by (first [discriminate | chars]).
  rewrite <- Hshape. rewrite !append_assoc. reflexivity.
Qed.

(** X7.  A line feed in a message becomes a [<br>]. *)
Theorem X7_parseMessage_line_break (a b : string) :
  all_chars inert a -> all_chars inert b ->
  parseMessage (a +:+ String lf b) = a +:+ "<br>" +:+ b.
Proof.
  intros Ha Hb. unfold parseMessage.
  rewrite escapeHtml_plain
    by (apply all_chars_append; split;
        [chars | apply all_chars_cons; split;
                 [unfold html_special, lf; intros [?|[?|[?|[?|?]]]];
                  discriminate | chars]]).
  rewrite replace_char_append.
  change (replace_char lf "<br>" (String lf b))
    with ("<br>" +:+ replace_char lf "<br>" b).
  rewrite !replace_char_other by chars.
  rewrite (replace_matches_other (delimited "**" _ _) "*")
    by (first [apply delimited_starts | chars]).
  rewrite (replace_matches_other (delimited "*" _ _) "*")
    by (first [apply delimited_starts | chars]).
  rewrite (replace_matches_other link "[") by
    (first [apply link_starts | chars]).
  rewrite (replace_matches_other (literal ":smile:" _) ":") by
    (first [apply literal_starts | chars]).
  rewrite (replace_matches_other (literal ":frown:" _) ":") by
    (first [apply literal_starts | chars]).
  rewrite (replace_matches_other (literal ":like:" _) ":") by
    (first [apply literal_starts | chars]).
  rewrite (replace_matches_other (literal ":celebrate:" _) ":") by
    (first [apply literal_starts | chars]).
  reflexivity.
Qed.

Lemma literal_one_colon (c c' : ascii) (p by_text a b : string) :
  c <> c' ->
  all_chars (fun x => x <> ":"%char) a ->
  all_chars (fun x => x <> ":"%char) (String c' b) ->
  replace_matches (literal (String ":" (String c p)) by_text) 0
    (a +:+ String ":" (String c' b))
  = a +:+ String ":" (String c' b).
Proof.
  intros Hc Ha Hb.
  rewrite (replace_matches_prefix _ ":") by
    (first [apply literal_starts | assumption]).
  rewrite replace_matches_none.
  - rewrite (replace_matches_other _ ":" (String c' b)); [reflexivity| |].
    + apply literal_starts.
    + exact Hb.
  - unfold literal. simpl.
    destruct (ascii_dec c c'); [congruence | reflexivity].
Qed.

Lemma literal_needs_colon (p by_text b : string) :
  In ":"%char (list_ascii_of_string p) ->
  all_chars (fun x => x <> ":"%char) b ->
  literal (String ":" p) by_text (String ":" b) = None.
Proof.
  intros Hp Hb. unfold literal.
  destruct (String.prefix (String ":" p) (String ":" b)) eqn:E;
    [|reflexivity].
  apply prefix_split in E as [r Hr]. rewrite append_cons in Hr.
  injection Hr as ->. apply all_chars_append in Hb as [Hb _].
  unfold all_chars in Hb. rewrite Forall_forall in Hb.
  exfalso. apply (Hb ":"%char); [|reflexivity]. now apply list_elem_of_In.
Qed.

Lemma literal_other_code (c c' : ascii) (p by_text a n b : string) :
  c <> c' ->
  In ":"%char (list_ascii_of_string p) ->
  all_chars (fun x => x <> ":"%char) a ->
  all_chars (fun x => x <> ":"%char) (String c' n) ->
  all_chars (fun x => x <> ":"%char) b ->
  replace_matches (literal (String ":" (String c p)) by_text) 0
    (a +:+ String ":" (String c' n +:+ String ":" b))
  = a +:+ String ":" (String c' n +:+ String ":" b).
Proof.
  intros Hc Hp Ha Hn Hb.
  rewrite (replace_matches_prefix _ ":") by
    (first [apply literal_starts | assumption]).
  rewrite replace_matches_none
    by (rewrite append_cons; unfold literal; simpl;
        destruct (ascii_dec c c'); [congruence | reflexivity]).
  rewrite (replace_matches_prefix _ ":") by
    (first [apply literal_starts | assumption]).
  rewrite replace_matches_none
    by (apply literal_needs_colon; [now right | assumption]).
  rewrite (replace_matches_other _ ":" b) by
    (first [apply literal_starts | assumption]).
  reflexivity.
Qed.

Lemma literal_this_code (p by_text a b : string) :
  all_chars (fun x => x <> ":"%char) a ->
  all_chars (fun x => x <> ":"%char) b ->
  replace_matches (literal (String ":" p) by_text) 0
    (a +:+ String ":" p +:+ b)
  = a +:+ by_text +:+ b.
Proof.
  intros Ha Hb.
  rewrite (replace_matches_prefix _ ":") by
    (first [apply literal_starts | assumption]).
  rewrite append_cons.
  rewrite (replace_matches_here _ ":" p b by_text)
    by (rewrite <- append_cons; unfold literal;
        now rewrite prefix_append).
  rewrite (replace_matches_other _ ":" b) by
    (first [apply literal_starts | assumption]).
  reflexivity.
Qed.

Ltac past_icon pre c rest b :=
  match goal with
  | |- context [?a +:+ icon ?name +:+ b] =>
      let H := fresh "Hshape" in
      assert (H : a +:+ icon name +:+ b
                  = (a +:+ pre) +:+ String ":" (String c (rest +:+ b)))
        by (unfold icon, quoted, Js.str1;
            rewrite !append_assoc, !append_cons, !append_nil_l,
              ?append_assoc; reflexivity);
      rewrite H;
      rewrite !literal_one_colon by (first [discriminate | chars]);
      rewrite <- H; clear H
  end.

Lemma parseMessage_reaction_code
    (k : PostElement.ReactionKind) (a b : string) :
  all_chars inert a -> all_chars inert b ->
  parseMessage (a +:+ reaction_code k +:+ b) = a +:+ reaction_icon k +:+ b.
Proof.
  intros Ha Hb. unfold parseMessage.
  rewrite escapeHtml_plain by (destruct k; chars).
  rewrite replace_char_other by (destruct k; chars).
  rewrite (replace_matches_other (delimited "**" _ _) "*")
    by (first [apply delimited_starts | destruct k; chars]).
  rewrite (replace_matches_other (delimited "*" _ _) "*")
    by (first [apply delimited_starts | destruct k; chars]).
  rewrite (replace_matches_other link "[")
    by (first [apply link_starts | destruct k; chars]).
  set (q := String Js.dquote " width=" +:+ quoted "1.25em" +:+ " height="
            +:+ quoted "1.25em" +:+ "></iconify-icon>").
  destruct k; unfold reaction_code, reaction_icon, PostElement.button_id.
  - change (":" +:+ "smile" +:+ ":") with (String ":" "smile:").
    rewrite literal_this_code by chars.
    past_icon ("<iconify-icon icon=" +:+ String Js.dquote "fa-regular")
               "s"%char ("mile" +:+ q) b.
    reflexivity.
  - change (":" +:+ "frown" +:+ ":") with (String ":" "frown:").
    change (String ":" "frown:" +:+ b)
      with (String ":" (String "f" "rown" +:+ String ":" b)).
    rewrite literal_other_code
      by (first [discriminate | chars | simpl; tauto]).
    change (String ":" (String "f" "rown" +:+ String ":" b))
      with (String ":" "frown:" +:+ b).
    rewrite literal_this_code by chars.
    past_icon ("<iconify-icon icon=" +:+ String Js.dquote "fa-regular")
               "f"%char ("rown" +:+ q) b.
    reflexivity.
  - change (":" +:+ "like" +:+ ":") with (String ":" "like:").
    change (String ":" "like:" +:+ b)
      with (String ":" (String "l" "ike" +:+ String ":" b)).
    rewrite !literal_other_code
      by (first [discriminate | chars | simpl; tauto]).
    change (String ":" (String "l" "ike" +:+ String ":" b))
      with (String ":" "like:" +:+ b).
    rewrite literal_this_code by chars.
    past_icon ("<iconify-icon icon=" +:+ String Js.dquote "mdi")
               "l"%char ("ike" +:+ q) b.
    reflexivity.
  - change (":" +:+ "celebrate" +:+ ":") with (String ":" "celebrate:").
    change (String ":" "celebrate:" +:+ b)
      with (String ":" (String "c" "elebrate" +:+ String ":" b)).
    rewrite !literal_other_code
      by (first [discriminate | chars | simpl; tauto]).
    change (String ":" (String "c" "elebrate" +:+ String ":" b))
      with (String ":" "celebrate:" +:+ b).
    rewrite literal_this_code by chars.
    reflexivity.
Qed.

(** X8.  The code of a reaction in a message is shown as the icon of
    that reaction. *)
Theorem X8_parseMessage_reaction_code
    (k : PostElement.ReactionKind) (a b : string) :
  all_chars inert a -> all_chars inert b ->
  parseMessage (a +:+ reaction_code k +:+ b) = a +:+ reaction_icon k +:+ b.
Proof. apply parseMessage_reaction_code. Qed.

Ltac by_computation := apply (bool_decide_unpack _); vm_compute; exact I.

Lemma X4_parseMessage_bold_witness :
  parseMessage ("This is " +:+ "**" +:+ "urgent" +:+ "**" +:+ ", read it")
  = "This is " +:+ "<strong>" +:+ "urgent" +:+ "</strong>" +:+ ", read it".
Proof.
  apply X4_parseMessage_bold; first [by_computation | discriminate].
Defined.

Lemma X5_parseMessage_italic_witness :
  parseMessage ("This is " +:+ "*" +:+ "nice" +:+ "*" +:+ ", read it")
  = "This is " +:+ "<em>" +:+ "nice" +:+ "</em>" +:+ ", read it".
Proof.
  apply X5_parseMessage_italic; first [by_computation | discriminate].
Defined.

Lemma X6_parseMessage_link_witness :
  parseMessage ("See " +:+ "[" +:+ "the docs" +:+ "](" +:+ "example.com/a"
                +:+ ")" +:+ " now")
  = "See " +:+ "<a href=" +:+ quoted ("http://" +:+ "example.com/a")
    +:+ " target=" +:+ quoted "_blank" +:+ ">" +:+ "the docs" +:+ "</a>"
    +:+ " now".
Proof.
  apply X6_parseMessage_link; first [by_computation | discriminate].
Defined.

Lemma X7_parseMessage_line_break_witness :
  parseMessage ("first line" +:+ String lf "second line")
  = "first line" +:+ "<br>" +:+ "second line".
Proof. apply X7_parseMessage_line_break; by_computation. Defined.

Lemma X8_parseMessage_reaction_code_witness :
  parseMessage ("well done " +:+ reaction_code PostElement.Celebrate +:+ "!")
  = "well done " +:+ reaction_icon PostElement.Celebrate +:+ "!".
Proof. apply X8_parseMessage_reaction_code; by_computation. Defined.

End Formatting.

(** ** The tags of a formatted message *)

Section Tags.

Import Message.

Lemma append_eq_split (p r u x : string) :
  p +:+ r = u +:+ x ->
  (exists k, u = p +:+ k /\ r = k +:+ x)
  \/ (exists c k, p = u +:+ String c k /\ x = String c k +:+ r).
Proof.
  revert u. induction p as [|a p IH]; intros u H.
  - left. exists u. split; [reflexivity | exact H].
  - destruct u as [|b u].
    + right. exists a, p. split; [reflexivity|].
      rewrite append_nil_l in H. now rewrite <- H.
    + rewrite !append_cons in H. injection H as -> H.
      destruct (IH u H) as [(k & -> & ->)|(c & k & -> & ->)].
      * left. exists k. split; reflexivity.
      * right. exists c, k. split; reflexivity.
Qed.

Lemma tags_known_chars (s : string) :
  all_chars (fun c => c <> "<"%char) s -> tags_known s.
Proof.
  induction s as [|c s IH]; [constructor|].
  intros [Hc Hs]%all_chars_cons. constructor; auto.
Qed.

Lemma tags_known_append (s t : string) :
  tags_known s -> tags_known t -> tags_known (s +:+ t).
Proof.
  intros Hs Ht. induction Hs as [|c s Hc Hs IH|o s Ho Hs IH].
  - exact Ht.
  - rewrite append_cons. constructor; assumption.
  - rewrite append_assoc. constructor; assumption.
Qed.

(** An opener has its [<] in front and nowhere else. *)
Lemma opener_shape (t : string) :
  In t tag_openers ->
  exists tl, t = String "<" tl /\ all_chars (fun c => c <> "<"%char) tl.
Proof.
  unfold tag_openers. simpl.
  intros H; repeat destruct H as [<-|H]; try contradiction;
    (eexists; split; [reflexivity|]);
    apply (bool_decide_unpack _); vm_compute; exact I.
Qed.

Lemma all_chars_drop (P : ascii -> Prop) (k : nat) (s : string) :
  all_chars P s -> all_chars P (drop_chars k s).
Proof.
  revert s. induction k as [|k IH]; intros [|c s] H; try exact H.
  simpl. apply IH. now apply all_chars_cons in H as [_ H].
Qed.

(** What follows a place in a text of known tags has known tags. *)
Lemma tags_known_suffix (u s : string) :
  tags_known (u +:+ s) -> tags_known s.
Proof.
  intros H. remember (u +:+ s) as w eqn:E. revert u E.
  induction H as [|c w Hc Hw IH|t w Ht Hw IH]; intros u E.
  - destruct u; [|discriminate]. rewrite append_nil_l in E.
    rewrite <- E. constructor.
  - destruct u as [|b u].
    + rewrite append_nil_l in E. rewrite <- E. now constructor.
    + rewrite append_cons in E. injection E as _ E. exact (IH u E).
  - destruct (append_eq_split _ _ _ _ E) as [(k & -> & ->)|(c & k & Hk & ->)].
    + exact (IH k eq_refl).
    + destruct (opener_shape _ Ht) as (tl & Htl & Hno).
      destruct u as [|b u].
      * rewrite append_nil_l in Hk. rewrite <- Hk. now apply tags_opener.
      * rewrite Hk, append_cons in Htl. injection Htl as _ <-.
        apply all_chars_append in Hno as [_ Hno].
        apply tags_known_append; [now apply tags_known_chars | exact Hw].
Qed.

(** What comes before a character that no opener holds has known
    tags. *)
Lemma tags_known_before (d : ascii) (u v : string) :
  ~ opener_char d ->
  tags_known (u +:+ String d v) -> tags_known u.
Proof.
  intros Hd H. remember (u +:+ String d v) as w eqn:E. revert u E.
  induction H as [|c w Hc Hw IH|t w Ht Hw IH]; intros u E.
  - destruct u; discriminate.
  - destruct u as [|b u]; [constructor|].
    rewrite append_cons in E. injection E as <- E.
    constructor; [exact Hc | exact (IH u E)].
  - destruct (append_eq_split _ _ _ _ E) as [(k & -> & Hk)|(c & k & Hk & Hx)].
    + apply tags_opener; [exact Ht | exact (IH k Hk)].
    + exfalso. rewrite append_cons in Hx. injection Hx as <- _.
      apply Hd. unfold opener_char. rewrite Exists_exists.
      exists t. split; [now apply list_elem_of_In|].
      rewrite Hk, chars_append. apply elem_of_app. right. now left.
Qed.

Lemma lazy_until_spec (stop s group : string) :
  lazy_until stop s = Some group -> exists r, s = group +:+ stop +:+ r.
Proof.
  revert group. induction s as [|c s IH]; intros group; [discriminate|].
  simpl. destruct (dot (String c s)); [|discriminate].
  destruct (String.prefix stop s) eqn:E.
  - intros [= <-]. apply prefix_split in E as [r ->]. now exists r.
  - destruct (lazy_until stop s) as [g|]; [|discriminate].
    intros [= <-]. destruct (IH g eq_refl) as [r ->]. now exists r.
Qed.

Lemma delimited_spec (delim open_tag close_tag s replacement : string)
    (span : nat) :
  delimited delim open_tag close_tag s = Some (replacement, span) ->
  exists group r,
    s = delim +:+ group +:+ delim +:+ r
    /\ replacement = open_tag +:+ group +:+ close_tag.
Proof.
  unfold delimited. destruct (String.prefix delim s) eqn:E; [|discriminate].
  apply prefix_split in E as [r ->]. rewrite drop_chars_append.
  destruct (lazy_until delim r) as [g|] eqn:Hg; [|discriminate].
  intros [= <- _]. apply lazy_until_spec in Hg as [r' ->].
  now exists g, r'.
Qed.

Lemma link_parts_spec (s text url : string) :
  link_parts s = Some (text, url) ->
  exists r, s = text +:+ "](" +:+ url +:+ ")" +:+ r.
Proof.
  revert text. induction s as [|c s IH]; intros text; [discriminate|].
  rewrite link_parts_cons. destruct (dot (String c s)); [|discriminate].
  destruct (String.prefix "](" s) eqn:E.
  - apply prefix_split in E as [r ->].
    change 2%nat with (String.length "](").
    rewrite drop_chars_append.
    destruct (lazy_until ")" r) as [u|] eqn:Hu.
    + intros [= <- <-]. apply lazy_until_spec in Hu as [r' ->].
      now exists r'.
    + change (String.length "](") with 2%nat in IH.
      destruct (link_parts ("](" +:+ r)) as [[t u]|]; [|discriminate].
      intros [= <- <-]. destruct (IH t eq_refl) as [r' ->]. now exists r'.
  - destruct (link_parts s) as [[t u]|]; [|discriminate].
    intros [= <- <-]. destruct (IH t eq_refl) as [r' ->]. now exists r'.
Qed.

Lemma not_opener_char (d : ascii) :
  bool_decide (opener_char d) = false -> ~ opener_char d.
Proof. intros H. now apply bool_decide_eq_false in H. Qed.

Ltac no_opener := apply not_opener_char; vm_compute; reflexivity.

Lemma tags_known_opener (t : string) : In t tag_openers -> tags_known t.
Proof.
  intros H. rewrite <- (append_nil_r t). apply tags_opener; [exact H|].
  constructor.
Qed.

(** What takes the place of a match has known tags when the text
    had. *)
Lemma delimited_known (delim open_tag close_tag s replacement : string)
    (span : nat) :
  In open_tag tag_openers -> In close_tag tag_openers ->
  tags_known s ->
  delimited (String "*" delim) open_tag close_tag s
  = Some (replacement, span) ->
  tags_known replacement.
Proof.
  intros Ho Hc Hs (g & r & -> & ->)%delimited_spec.
  apply tags_opener; [exact Ho|].
  apply tags_known_append; [|now apply tags_known_opener].
  apply tags_known_suffix in Hs. rewrite append_cons in Hs.
  now apply tags_known_before in Hs; [|no_opener].
Qed.

Lemma anchor_shape (text url : string) :
  anchor text url
  = ("<a href=" +:+ Js.str1 Js.dquote)
    +:+ (if has_scheme url then url else "http://" +:+ url)
    +:+ (Js.str1 Js.dquote +:+ " target=" +:+ quoted "_blank" +:+ ">")
    +:+ text +:+ "</a>".
Proof.
  unfold anchor, quoted, Js.str1.
  now rewrite !append_assoc, !append_cons, !append_nil_l, ?append_assoc.
Qed.

Lemma anchor_known (text url : string) :
  tags_known text -> tags_known url -> tags_known (anchor text url).
Proof.
  intros Ht Hu. rewrite anchor_shape.
  apply tags_opener; [simpl; tauto|].
  apply tags_known_append.
  { destruct (has_scheme url); [exact Hu|].
    apply tags_known_append; [|exact Hu].
    apply tags_known_chars. apply (bool_decide_unpack _). vm_compute.
    exact I. }
  apply tags_known_append.
  { apply tags_known_chars. apply (bool_decide_unpack _). vm_compute.
    exact I. }
  apply tags_known_append; [exact Ht|].
  apply tags_known_opener. simpl. tauto.
Qed.

Lemma link_known (s replacement : string) (span : nat) :
  tags_known s -> link s = Some (replacement, span) ->
  tags_known replacement.
Proof.
  intros Hs. unfold link.
  destruct s as [|c s]; [discriminate|].
  destruct c as [[] [] [] [] [] [] [] []]; try discriminate.
  destruct (link_parts s) as [[text url]|] eqn:E; [|discriminate].
  intros [= <- _]. apply link_parts_spec in E as [r ->].
  apply (tags_known_suffix (String "[" "")) in Hs.
  apply anchor_known.
  - now apply (tags_known_before "]") in Hs; [|no_opener].
  - rewrite <- append_assoc in Hs.
    apply (tags_known_suffix (text +:+ "](")) in Hs.
    now apply (tags_known_before ")") in Hs; [|no_opener].
Qed.

Lemma opener_other_chars (t tl : string) (c : ascii) :
  In t tag_openers -> t = String "<" tl -> ~ opener_char c ->
  all_chars (fun x => x <> c) tl.
Proof.
  intros Ht -> Hc. unfold all_chars. rewrite Forall_forall.
  intros x Hx ->. apply Hc. unfold opener_char. rewrite Exists_exists.
  exists (String "<" tl). split; [now apply list_elem_of_In|].
  simpl. now right.
Qed.

(** A step of [parseMessage] keeps the tags known: its pattern starts
    at a character that no opener holds, and what it puts for a match
    has known tags. *)
Lemma replace_matches_known (m : string -> option (string * nat))
    (c : ascii) :
  starts_with c m -> ~ opener_char c ->
  (forall s replacement span,
     tags_known s -> m s = Some (replacement, span) ->
     tags_known replacement) ->
  forall (n : nat) (s : string) (k : nat),
    (String.length s <= n)%nat -> tags_known s ->
    tags_known (replace_matches m k s).
Proof.
  intros Hm Hc Hrep. induction n as [|n IH]; intros s k Hn Hs.
  - destruct s; [constructor | simpl in Hn; lia].
  - destruct s as [|a rest]; [constructor|]. simpl in Hn.
    assert (Hrest : tags_known rest)
      by exact (tags_known_suffix (Js.str1 a) rest Hs).
    destruct k as [|k]; simpl.
    2: { apply IH; [lia | exact Hrest]. }
    destruct (m (String a rest)) as [[replacement span]|] eqn:E.
    + apply tags_known_append.
      * exact (Hrep _ _ _ Hs E).
      * apply IH; [lia | exact Hrest].
    + inversion Hs as [|a' s' Ha Hs' Heq|t s0 Ht Hs0 Heq].
      * constructor; [exact Ha|]. apply IH; [lia | exact Hs'].
      * destruct (opener_shape _ Ht) as (tl & Htl & _).
        pose proof (opener_other_chars _ _ _ Ht Htl Hc) as Htlc.
        rewrite Htl, append_cons in Heq. injection Heq as <- <-.
        rewrite (replace_matches_prefix m c tl s0 Hm Htlc).
        rewrite <- append_cons, <- Htl.
        apply tags_opener; [exact Ht|].
        apply IH; [|exact Hs0].
        rewrite length_append in Hn. lia.
Qed.

Lemma icon_shape (name : string) :
  icon name
  = ("<iconify-icon icon=" +:+ Js.str1 Js.dquote)
    +:+ (name +:+ Js.str1 Js.dquote +:+ " width=" +:+ quoted "1.25em"
         +:+ " height=" +:+ quoted "1.25em" +:+ ">")
    +:+ "</iconify-icon>".
Proof.
  unfold icon, quoted, Js.str1.
  now rewrite !append_assoc, !append_cons, !append_nil_l, ?append_assoc.
Qed.

Lemma icon_known (name : string) :
  all_chars (fun c => c <> "<"%char) name -> tags_known (icon name).
Proof.
  intros Hn. rewrite icon_shape.
  apply tags_opener; [simpl; tauto|].
  apply tags_known_append; [|apply tags_known_opener; simpl; tauto].
  apply tags_known_append; [now apply tags_known_chars|].
  apply tags_known_chars. apply (bool_decide_unpack _). vm_compute. exact I.
Qed.

Lemma literal_known (pattern name s replacement : string) (span : nat) :
  all_chars (fun c => c <> "<"%char) name ->
  literal pattern (icon name) s = Some (replacement, span) ->
  tags_known replacement.
Proof.
  intros Hn. unfold literal.
  destruct (String.prefix pattern s); [|discriminate].
  intros [= <- _]. now apply icon_known.
Qed.

Lemma line_breaks_known (s : string) :
  all_chars (fun c => c <> "<"%char) s ->
  tags_known (replace_char lf "<br>" s).
Proof.
  induction s as [|a s IH]; [constructor|].
  intros [Ha Hs]%all_chars_cons. simpl.
  destruct (Ascii.eqb a lf).
  - apply tags_opener; [simpl; tauto | auto].
  - constructor; auto.
Qed.

Lemma tags_ok_suffix (u s : string) :
  tags_ok (u +:+ s) = true -> tags_ok s = true.
Proof.
  induction u as [|a u IH]; [auto|].
  rewrite append_cons. simpl. intros [_ H]%andb_prop. auto.
Qed.

Lemma tags_ok_chars (u s : string) :
  all_chars (fun c => c <> "<"%char) u -> tags_ok s = true ->
  tags_ok (u +:+ s) = true.
Proof.
  induction u as [|a u IH]; [auto|].
  intros [Ha Hu]%all_chars_cons Hs. rewrite append_cons. simpl.
  destruct (Ascii.eqb_spec a "<"); [congruence|]. simpl. auto.
Qed.

Lemma tags_known_ok (s : string) : tags_known s -> tags_ok s = true.
Proof.
  induction 1 as [|c s Hc Hs IH|t s Ht Hs IH]; [reflexivity| |].
  - simpl. destruct (Ascii.eqb_spec c "<"); [congruence|]. exact IH.
  - destruct (opener_shape _ Ht) as (tl & Htl & Hno).
    assert (Hpre : existsb (fun o => String.prefix o (t +:+ s)) tag_openers
                   = true).
    { apply existsb_exists. exists t. split; [exact Ht|].
      apply prefix_append. }
    rewrite Htl, append_cons in Hpre |- *.
    cbn [tags_ok]. rewrite Hpre. simpl.
    now apply tags_ok_chars.
Qed.

(** X9.  Whatever the message, every [<] of the text [parseMessage]
    returns is the first character of a tag that [parseMessage] itself
    writes: [<br>], [<strong>], [<em>], [<a href=], [<iconify-icon
    icon=] or one of their closing tags. *)
Theorem X9_parseMessage_writes_known_tags (message : string) :
  tags_ok (parseMessage message) = true.
Proof.
  apply tags_known_ok. unfold parseMessage.
  pose proof (escapeHtml_chars message) as Hesc.
  assert (H1 : tags_known (replace_char lf "<br>" (escapeHtml message))).
  { apply line_breaks_known. revert Hesc. apply all_chars_impl. tauto. }
  clear Hesc. revert H1.
  generalize (replace_char lf "<br>" (escapeHtml message)) as s1.
  intros s1 H1.
  assert (Hstage : forall m c s,
            starts_with c m -> ~ opener_char c ->
            (forall s replacement span,
               tags_known s -> m s = Some (replacement, span) ->
               tags_known replacement) ->
            tags_known s -> tags_known (replace_matches m 0 s)).
  { intros m c s Hm Hc Hrep Hs.
    exact (replace_matches_known m c Hm Hc Hrep (String.length s) s 0
             (le_n _) Hs). }
  apply (Hstage _ ":"%char);
    [apply literal_starts | no_opener
     | intros ? ? ?  _; apply literal_known;
       apply (bool_decide_unpack _); vm_compute; exact I |].
  apply (Hstage _ ":"%char);
    [apply literal_starts | no_opener
     | intros ? ? ?  _; apply literal_known;
       apply (bool_decide_unpack _); vm_compute; exact I |].
  apply (Hstage _ ":"%char);
    [apply literal_starts | no_opener
     | intros ? ? ?  _; apply literal_known;
       apply (bool_decide_unpack _); vm_compute; exact I |].
  apply (Hstage _ ":"%char);
    [apply literal_starts | no_opener
     | intros ? ? ?  _; apply literal_known;
       apply (bool_decide_unpack _); vm_compute; exact I |].
  apply (Hstage _ "["%char);
    [apply link_starts | no_opener | apply link_known |].
  apply (Hstage _ "*"%char);
    [apply delimited_starts | no_opener
     | intros ? ? ?; apply delimited_known; simpl; tauto |].
  apply (Hstage _ "*"%char);
    [apply delimited_starts | no_opener
     | intros ? ? ?; apply delimited_known; simpl; tauto |].
  exact H1.
Qed.

(** A tag from a message would not pass. *)
Example tags_ok_rejects_other_tags :
  tags_ok ("<script>alert(1)</script>") = false
  /\ tags_ok (parseMessage "<script>alert(1)</script>") = true.
Proof. split; vm_compute; reflexivity. Qed.

End Tags.

(** ** Editing a message with the formatting buttons *)

Section Editing.

Import View Message Textarea.

Lemma take_chars_append (s t : string) :
  take_chars (String.length s) (s +:+ t) = s.
Proof.
  induction s as [|a s IH]; [now destruct t|].
  rewrite append_cons. simpl. now rewrite IH.
Qed.

Lemma take_chars_all (s : string) : take_chars (String.length s) s = s.
Proof.
  induction s as [|a s IH]; [reflexivity|]. simpl. now rewrite IH.
Qed.

Lemma drop_chars_sum (n : nat) (s t : string) :
  drop_chars (String.length s + n) (s +:+ t) = drop_chars n t.
Proof.
  induction s as [|a s IH]; [now destruct n, t|].
  rewrite append_cons. simpl. exact IH.
Qed.

Lemma substring_selected (before selected after : string) :
  substring (String.length before)
    (String.length before + String.length selected)
    (before +:+ selected +:+ after)
  = selected.
Proof.
  unfold substring. rewrite !length_append.
  rewrite !Nat.min_l by lia. rewrite Nat.max_r by lia.
  rewrite drop_chars_append.
  replace (String.length before + String.length selected
           - String.length before)%nat
    with (String.length selected) by lia.
  apply take_chars_append.
Qed.

(** Replacing the selection. *)
Lemma setRangeText_selected (replacement before selected after : string)
    (off : bool) :
  setRangeText replacement (String.length before)
    (String.length before + String.length selected)
    (selecting before selected after off)
  = (Returned,
     caret_at (before +:+ replacement +:+ after)
       (String.length before + String.length replacement) off).
Proof.
  unfold setRangeText, selecting, caret_at. simpl.
  destruct (Nat.ltb_spec (String.length before + String.length selected)
              (String.length before)) as [Hlt|_]; [lia|].
  rewrite !length_append. rewrite !Nat.min_l by lia.
  rewrite take_chars_append.
  rewrite (drop_chars_sum (String.length selected) before).
  now rewrite drop_chars_append.
Qed.

Lemma setRangeText_caret (replacement before after : string) (off : bool) :
  setRangeText replacement (String.length before) (String.length before)
    (selecting before "" after off)
  = (Returned,
     caret_at (before +:+ replacement +:+ after)
       (String.length before + String.length replacement) off).
Proof.
  pose proof (setRangeText_selected replacement before "" after off) as H.
  change (String.length "") with 0%nat in H.
  now rewrite Nat.add_0_r in H.
Qed.

Lemma setSelectionRange_inside (text : string) (place old : nat) (off : bool) :
  (place <= String.length text)%nat ->
  setSelectionRange place place (caret_at text old off)
  = caret_at text place off.
Proof.
  intros H. unfold setSelectionRange, caret_at. simpl.
  rewrite Nat.min_l by exact H. now rewrite Nat.max_id.
Qed.

Lemma selecting_nothing (before after : string) (off : bool) :
  selecting before "" after off
  = mkTextarea (before +:+ after) (String.length before)
      (String.length before) off.
Proof. unfold selecting. now rewrite append_nil_l, Nat.add_0_r. Qed.

Lemma insertFormatting_result (symbol before selected after : string)
    (off : bool) :
  insertFormatting symbol (selecting before selected after off)
  = (Returned,
     caret_at (before +:+ symbol +:+ selected +:+ symbol +:+ after)
       (if String.eqb selected ""
        then String.length before + String.length symbol
        else String.length before + String.length symbol
             + String.length selected + String.length symbol)%nat
       off).
Proof.
  unfold insertFormatting.
  change (selectionStart (selecting before selected after off))
    with (String.length before).
  change (selectionEnd (selecting before selected after off))
    with (String.length before + String.length selected)%nat.
  change (value (selecting before selected after off))
    with (before +:+ selected +:+ after).
  rewrite substring_selected.
  destruct (String.eqb_spec selected "") as [->|Hne]; simpl negb; cbv iota.
  - rewrite setRangeText_caret.
    rewrite setSelectionRange_inside
      by (rewrite !length_append; lia).
    now rewrite append_nil_l, !append_assoc.
  - rewrite setRangeText_selected.
    rewrite setSelectionRange_inside
      by (rewrite !length_append; lia).
    rewrite !append_assoc. do 2 f_equal. rewrite !length_append. lia.
Qed.

(** X10.  The bold and italic buttons put the symbol on both sides of
    the selection and leave the text before and after it alone; the
    caret goes behind the closing symbol, or between the two symbols
    when nothing was selected. *)
Theorem X10_insertFormatting_wraps_selection
    (symbol before selected after : string) (off : bool) :
  insertFormatting symbol (selecting before selected after off)
  = (Returned,
     caret_at (before +:+ symbol +:+ selected +:+ symbol +:+ after)
       (if String.eqb selected ""
        then String.length before + String.length symbol
        else String.length before + String.length symbol
             + String.length selected + String.length symbol)%nat
       off).
Proof. apply insertFormatting_result. Qed.

(** X11.  The link button puts the selection in brackets followed by an
    empty pair of parentheses, with the caret between the parentheses;
    with nothing selected the caret goes between the brackets. *)
Theorem X11_handleLinkClick_wraps_selection
    (before selected after : string) (off : bool) :
  handleLinkClick (selecting before selected after off)
  = (Returned,
     caret_at (before +:+ "[" +:+ selected +:+ "]()" +:+ after)
       (if String.eqb selected ""
        then String.length before + 1
        else String.length before + String.length selected + 3)%nat
       off).
Proof.
  unfold handleLinkClick.
  change (selectionStart (selecting before selected after off))
    with (String.length before).
  change (selectionEnd (selecting before selected after off))
    with (String.length before + String.length selected)%nat.
  change (value (selecting before selected after off))
    with (before +:+ selected +:+ after).
  rewrite substring_selected.
  destruct (String.eqb_spec selected "") as [->|Hne]; simpl negb; cbv iota.
  - rewrite setRangeText_caret.
    rewrite setSelectionRange_inside
      by (rewrite !length_append; simpl; lia).
    reflexivity.
  - rewrite setRangeText_selected.
    rewrite setSelectionRange_inside
      by (rewrite !length_append; simpl; lia).
    rewrite !append_assoc. do 2 f_equal.
    rewrite !length_append. simpl. lia.
Qed.

(** X12.  What the bold and the italic button make of a selection is
    shown in [<strong>] and in [<em>]: for inert text before, in and
    after the selection, the selection not empty and without line
    terminator (no carriage return, no line separator U+2028 and no
    paragraph separator U+2029). *)
Theorem X12_formatted_selection_is_rendered
    (before selected after : string) (off : bool) :
  all_chars inert before -> all_chars inert selected ->
  all_chars inert after ->
  selected <> "" -> one_line selected = true ->
  parseMessage (value (snd (handleBoldClick
                              (selecting before selected after off))))
  = before +:+ "<strong>" +:+ selected +:+ "</strong>" +:+ after
  /\ parseMessage (value (snd (handleItalicClick
                                 (selecting before selected after off))))
     = before +:+ "<em>" +:+ selected +:+ "</em>" +:+ after.
Proof.
  intros Hb Hs Ha Hne Hcr. unfold handleBoldClick, handleItalicClick.
  rewrite !insertFormatting_result. simpl. split.
  - now apply parseMessage_bold.
  - now apply parseMessage_italic.
Qed.

Lemma X12_formatted_selection_is_rendered_witness :
  parseMessage (value (snd (handleBoldClick
                              (selecting "This is " "urgent" "." false))))
  = "This is " +:+ "<strong>" +:+ "urgent" +:+ "</strong>" +:+ "."
  /\ parseMessage (value (snd (handleItalicClick
                                 (selecting "This is " "urgent" "." false))))
     = "This is " +:+ "<em>" +:+ "urgent" +:+ "</em>" +:+ ".".
Proof.
  apply X12_formatted_selection_is_rendered;
    first [ apply (bool_decide_unpack _); vm_compute; exact I
          | discriminate ].
Defined.

Lemma insertAtCursor_result (text before selected after : string)
    (off : bool) :
  insertAtCursor text (selecting before selected after off)
  = (Returned,
     caret_at (before +:+ text +:+ after)
       (String.length before + String.length text) off).
Proof.
  unfold insertAtCursor.
  change (selectionStart (selecting before selected after off))
    with (String.length before).
  change (selectionEnd (selecting before selected after off))
    with (String.length before + String.length selected)%nat.
  rewrite setRangeText_selected.
  rewrite setSelectionRange_inside by (rewrite !length_append; lia).
  reflexivity.
Qed.

(** X13.  A reaction button puts the code of its reaction in the place
    of the selection, with the caret behind it, and the message then
    shows the icon of that reaction there. *)
Theorem X13_reaction_button_is_rendered
    (k : PostElement.ReactionKind) (before selected after : string)
    (off : bool) :
  all_chars inert before -> all_chars inert after ->
  handleReactionClick k (selecting before selected after off)
  = (Returned,
     caret_at (before +:+ reaction_code k +:+ after)
       (String.length before + String.length (reaction_code k)) off)
  /\ parseMessage (value (snd (handleReactionClick k
                                 (selecting before selected after off))))
     = before +:+ reaction_icon k +:+ after.
Proof.
  intros Hb Ha. unfold handleReactionClick.
  rewrite insertAtCursor_result. split; [reflexivity|]. simpl.
  now apply parseMessage_reaction_code.
Qed.

Lemma X13_reaction_button_is_rendered_witness :
  handleReactionClick PostElement.Like (selecting "ok " "xx" " then" false)
  = (Returned, caret_at "ok :like: then" 9 false)
  /\ parseMessage (value (snd (handleReactionClick PostElement.Like
                                 (selecting "ok " "xx" " then" false))))
     = "ok " +:+ reaction_icon PostElement.Like +:+ " then".
Proof.
  apply (X13_reaction_button_is_rendered PostElement.Like "ok " "xx" " then");
    apply (bool_decide_unpack _); vm_compute; exact I.
Defined.

End Editing.

(** ** Sending a post or a reply *)

Section Sending.

Import Composer.

Lemma other_key_sends (event : UiEvent) :
  other_key event = false <-> sends event.
Proof.
  unfold sends. destruct event as [|key shiftKey]; simpl.
  - split; [now left | reflexivity].
  - destruct shiftKey; simpl.
    + split; [discriminate | intros [H|H]; discriminate].
    + destruct (String.eqb_spec key "Enter") as [->|Hne]; simpl.
      * split; [now right | reflexivity].
      * split; [discriminate | intros [H|[= H]]; [discriminate | congruence]].
Qed.

(** X14.  [createPost] sends a post exactly for a click or a plain
    Enter on a text area that is not empty: the event then carries the
    text with the channel and the workspace, and the text area is
    emptied, so that whatever comes next before new text is typed
    sends nothing.  In every other case nothing is dispatched and
    nothing changes. *)
Theorem X14_createPost_sends_nonempty_text
    (event : UiEvent) (c : ChannelContent) :
  (sends event /\ Textarea.value (inputBox c) <> "" ->
   createPost event c
   = (mkChannelContent (Textarea.set_value "" (inputBox c)) (channelTitle c)
        (workspaceTitle c),
      [CreatePostEvent (Textarea.value (inputBox c)) (channelTitle c)
         (workspaceTitle c)]))
  /\ (sends event /\ Textarea.value (inputBox c) <> "" ->
      forall next : UiEvent,
        createPost next (fst (createPost event c))
        = (fst (createPost event c), []))
  /\ (~ (sends event /\ Textarea.value (inputBox c) <> "") ->
      createPost event c = (c, [])).
Proof.
  unfold createPost. rewrite <- other_key_sends.
  destruct (other_key event);
    destruct (String.eqb_spec (Textarea.value (inputBox c)) "") as [E|E];
    repeat split; try reflexivity; try (intros [H1 H2]; congruence);
    try (intros _ next; simpl; now destruct (other_key next));
    intros H; exfalso; apply H; split; [reflexivity | exact E].
Qed.

Lemma X14_createPost_sends_nonempty_text_witness :
  createPost (KeyboardEvent "Enter" false)
    (mkChannelContent (Textarea.caret_at "hello" 5 false) "general" "cs")
  = (mkChannelContent (Textarea.caret_at "" 0 false) "general" "cs",
     [CreatePostEvent "hello" "general" "cs"])
  /\ createPost (KeyboardEvent "Enter" true)
       (mkChannelContent (Textarea.caret_at "hello" 5 false) "general" "cs")
     = (mkChannelContent (Textarea.caret_at "hello" 5 false) "general" "cs",
        []).
Proof.
  split.
  - apply (proj1 (X14_createPost_sends_nonempty_text
                    (KeyboardEvent "Enter" false)
                    (mkChannelContent (Textarea.caret_at "hello" 5 false)
                       "general" "cs"))).
    split; [now right | discriminate].
  - apply (proj2 (proj2 (X14_createPost_sends_nonempty_text
                    (KeyboardEvent "Enter" true)
                    (mkChannelContent (Textarea.caret_at "hello" 5 false)
                       "general" "cs")))).
    intros [[H|H] _]; discriminate.
Defined.

(** X15.  [createReply] sends a reply exactly for a click or a plain
    Enter on a text area that is enabled and not empty: the event then
    carries the text, the channel, the workspace and the path of the
    post replied to, and the text area is emptied, so that whatever
    comes next before new text is typed sends nothing.  In every other
    case nothing is dispatched and nothing changes. *)
Theorem X15_createReply_sends_nonempty_text
    (event : UiEvent) (b : ReplyBox) :
  (sends event /\ Textarea.disabled (replyInputBox b) = false
   /\ Textarea.value (replyInputBox b) <> "" ->
   createReply event b
   = (mkReplyBox (Textarea.set_value "" (replyInputBox b)) (parentPost b)
        (channelName b) (workspaceName b) (replyQuitBtn_disabled b),
      [CreateReplyEvent (Textarea.value (replyInputBox b)) (channelName b)
         (workspaceName b) (parentPost b)]))
  /\ (sends event /\ Textarea.disabled (replyInputBox b) = false
      /\ Textarea.value (replyInputBox b) <> "" ->
      forall next : UiEvent,
        createReply next (fst (createReply event b))
        = (fst (createReply event b), []))
  /\ (~ (sends event /\ Textarea.disabled (replyInputBox b) = false
         /\ Textarea.value (replyInputBox b) <> "") ->
      createReply event b = (b, [])).
Proof.
  unfold createReply. rewrite <- other_key_sends.
  destruct (other_key event);
    destruct (Textarea.disabled (replyInputBox b)) eqn:Ed;
    destruct (String.eqb_spec (Textarea.value (replyInputBox b)) "") as [E|E];
    simpl; repeat split; try reflexivity;
    try (intros (H1 & H2 & H3); congruence);
    try (intros _ next; simpl; rewrite Ed;
         now destruct (other_key next));
    intros H; exfalso; apply H; repeat split; assumption.
Qed.

Lemma X15_createReply_sends_nonempty_text_witness :
  createReply MouseEvent
    (mkReplyBox (Textarea.caret_at "me too" 6 false) "/w/channels/c/posts/p1"
       "c" "w" false)
  = (mkReplyBox (Textarea.caret_at "" 0 false) "/w/channels/c/posts/p1"
       "c" "w" false,
     [CreateReplyEvent "me too" "c" "w" "/w/channels/c/posts/p1"])
  /\ createReply MouseEvent
       (mkReplyBox (Textarea.caret_at "" 0 false) "/w/channels/c/posts/p1"
          "c" "w" false)
     = (mkReplyBox (Textarea.caret_at "" 0 false) "/w/channels/c/posts/p1"
          "c" "w" false, []).
Proof.
  split.
  - apply (proj1 (X15_createReply_sends_nonempty_text MouseEvent
                    (mkReplyBox (Textarea.caret_at "me too" 6 false)
                       "/w/channels/c/posts/p1" "c" "w" false))).
    repeat split; [now left | discriminate].
  - apply (proj2 (proj2 (X15_createReply_sends_nonempty_text MouseEvent
                    (mkReplyBox (Textarea.caret_at "" 0 false)
                       "/w/channels/c/posts/p1" "c" "w" false)))).
    intros (_ & _ & H). now apply H.
Defined.

(** X16.  However often the quit button of a reply box is clicked, one
    [replyModeOffEvent] for the post replied to is dispatched, and none
    when the button was disabled before. *)
Theorem X16_quitReply_dispatches_once (n : nat) (b : ReplyBox) :
  snd (quit_clicks (S n) b)
  = if replyQuitBtn_disabled b then []
    else [ReplyModeOffEvent (parentPost b)].
Proof.
  assert (Hoff : forall k b',
            replyQuitBtn_disabled b' = true -> quit_clicks k b' = (b', [])).
  { induction k as [|k IH]; intros b' Hb'; [reflexivity|].
    simpl. unfold quitReply. rewrite Hb'. now rewrite (IH b' Hb'). }
  simpl. unfold quitReply.
  destruct (replyQuitBtn_disabled b) eqn:E.
  - now rewrite (Hoff n b E).
  - now rewrite Hoff.
Qed.

End Sending.

(** ** The side lists: what a refresh shows *)

Section Lists.

Import ContainerItem View ContainerList.

Lemma agrees_names (children : list Child) (names : list (option string)) :
  Forall2 agrees children names ->
  names_shown children = default ""%string <$> names.
Proof.
  induction 1 as [|c n cs ns (it & -> & ->) _ IH]; [reflexivity|].
  change (names_shown (Item it :: cs)) with (getName it :: names_shown cs).
  now rewrite IH.
Qed.

Lemma agrees_items (children : list Child) (names : list (option string)) :
  Forall2 agrees children names -> Forall is_item children.
Proof.
  induction 1 as [|c n cs ns (it & -> & ->) _ IH]; constructor;
    [exact I | exact IH].
Qed.

Lemma Forall_delete_item (i : nat) (children : list Child) :
  Forall is_item children -> Forall is_item (base.delete i children).
Proof.
  revert i. induction children as [|c cs IH]; intros i H; [now destruct i|].
  apply Forall_cons in H as [Hc Hcs]. destruct i as [|i]; simpl;
    [exact Hcs|]. constructor; auto.
Qed.

Lemma take_delete_same (i : nat) (children : list Child) :
  take i (base.delete i children) = take i children.
Proof.
  revert i. induction children as [|c cs IH]; intros [|i]; simpl;
    try reflexivity.
  now rewrite IH.
Qed.

(** The first loop comes to an end with [i] at the end of one of the
    two lists and the children before [i] showing the names before
    [i]. *)
Lemma keep_matching_ends (message : string) (names : list (option string))
    (fuel : nat) :
  forall (i : nat) (children : list Child),
    Forall is_item children ->
    (i <= length children)%nat -> (i <= length names)%nat ->
    Forall2 agrees (take i children) (take i names) ->
    (length children - i < fuel)%nat ->
    exists i' children',
      keep_matching fuel message names i children
      = (Returned, (i', children'))
      /\ Forall is_item children'
      /\ Forall2 agrees (take i' children') (take i' names)
      /\ (i' <= length children')%nat /\ (i' <= length names)%nat
      /\ (i' = length children' \/ i' = length names)
      /\ sublist children' children.
Proof.
  induction fuel as [|fuel IH]; intros i children Hitems Hic Hin Hagree Hfuel;
    [lia|].
  simpl.
  destruct (Nat.ltb_spec i (Nat.min (length children) (length names)))
    as [Hlt|Hge].
  - destruct (lookup_lt_is_Some_2 children i ltac:(lia)) as [c Hc].
    destruct (lookup_lt_is_Some_2 names i ltac:(lia)) as [name Hname].
    rewrite Hc, Hname.
    pose proof (Forall_lookup_1 _ _ _ _ Hitems Hc) as Hitem.
    destruct c as [existing|]; [|contradiction].
    destruct (differs name (getName existing)) eqn:Hd.
    + destruct (IH i (base.delete i children)) as (i' & c' & E & H1 & H2 & H3 & H4 & H5 & H6).
      * now apply Forall_delete_item.
      * rewrite length_delete by eauto. lia.
      * exact Hin.
      * now rewrite take_delete_same.
      * rewrite length_delete by eauto. lia.
      * exists i', c'. repeat split; try assumption.
        etransitivity; [exact H6 | apply sublist_delete].
    + destruct (IH (S i) children) as (i' & c' & E & H1 & H2 & H3 & H4 & H5 & H6).
      * exact Hitems.
      * lia.
      * lia.
      * rewrite (take_S_r _ _ _ Hc), (take_S_r _ _ _ Hname).
        apply Forall2_app; [exact Hagree|].
        constructor; [|constructor].
        exists existing. split; [reflexivity|].
        destruct name as [n|]; [|discriminate]. simpl in Hd.
        apply negb_false_iff, String.eqb_eq in Hd. now subst.
      * lia.
      * exists i', c'. repeat split; assumption.
  - exists i, children. repeat split; try assumption; [lia | reflexivity].
Qed.

Lemma remove_extras_all (fuel : nat) :
  forall (i : nat) (children : list Child),
    Forall is_item children -> (i <= length children)%nat ->
    (length children - i < fuel)%nat ->
    remove_extras fuel i children = (Returned, take i children).
Proof.
  induction fuel as [|fuel IH]; intros i children Hitems Hi Hfuel; [lia|].
  simpl. destruct (Nat.ltb_spec i (length children)) as [Hlt|Hge].
  - destruct (lookup_lt_is_Some_2 children i Hlt) as [c Hc]. rewrite Hc.
    pose proof (Forall_lookup_1 _ _ _ _ Hitems Hc) as Hitem.
    destruct c as [existing|]; [|contradiction].
    rewrite IH.
    + now rewrite take_delete_same.
    + now apply Forall_delete_item.
    + rewrite length_delete by eauto. lia.
    + rewrite length_delete by eauto. lia.
  - now rewrite take_ge by lia.
Qed.

Lemma append_new_spec (ty : ContainerType) (parent : option string)
    (labels : list (option string)) :
  forall (next : nat) (children : list Child),
    append_new ty parent labels next children
    = ((next + length labels)%nat,
       children ++ imap (fun k => fresh_item ty parent (next + k)) labels).
Proof.
  induction labels as [|label labels IH]; intros next children; simpl.
  - now rewrite Nat.add_0_r, app_nil_r.
  - rewrite IH. f_equal; [lia|].
    rewrite <- app_assoc. simpl. rewrite Nat.add_0_r. do 2 f_equal.
    apply imap_ext. intros k l _. simpl. f_equal. lia.
Qed.

Lemma names_shown_app (l1 l2 : list Child) :
  names_shown (l1 ++ l2) = names_shown l1 ++ names_shown l2.
Proof. unfold names_shown. apply omap_app. Qed.

Lemma names_shown_fresh (ty : ContainerType) (parent : option string)
    (labels : list (option string)) (next : nat) :
  names_shown (imap (fun k => fresh_item ty parent (next + k)) labels)
  = default ""%string <$> labels.
Proof.
  revert next. induction labels as [|l labels IH]; intros next;
    [reflexivity|].
  rewrite imap_cons, fmap_cons.
  change (names_shown (fresh_item ty parent (next + 0) l :: ?r))
    with (default ""%string l :: names_shown r).
  f_equal. rewrite <- (IH (S next)). f_equal. apply imap_ext.
  intros k x _. simpl. f_equal. lia.
Qed.

Lemma items_fresh (ty : ContainerType) (parent : option string)
    (labels : list (option string)) (next : nat) :
  Forall is_item (imap (fun k => fresh_item ty parent (next + k)) labels).
Proof.
  apply Forall_lookup_2. intros i c Hc.
  apply list_lookup_imap_Some in Hc as (l & _ & ->). exact I.
Qed.

(** What [displayAllChannels] leaves in a list of items. *)
Lemma display_all_channels (message : string) (parent : option string)
    (paths : list string) (next : nat) (children : list Child) :
  Forall is_item children ->
  exists next' children',
    display_all Channel message parent 3 paths next children
    = (Returned, (next', children'))
    /\ Forall is_item children'
    /\ names_shown children'
       = (fun p => default ""%string (segment 3 p)) <$> paths.
Proof.
  intros Hitems. unfold display_all.
  destruct (keep_matching_ends message (segment 3 <$> paths)
              (S (length children)) 0 children Hitems
              ltac:(lia) ltac:(lia) ltac:(constructor) ltac:(lia))
    as (i & c1 & -> & H1 & H2 & H3 & H4 & H5 & _).
  rewrite length_fmap in H4, H5.
  destruct (Nat.ltb_spec i (length paths)) as [Hlt|Hge].
  - destruct H5 as [H5|H5]; [|lia].
    rewrite append_new_spec. eexists _, _. split; [reflexivity|].
    split.
    + apply Forall_app. split; [exact H1 | apply items_fresh].
    + rewrite names_shown_app, names_shown_fresh.
      rewrite H5, firstn_all in H2.
      rewrite (agrees_names _ _ H2), <- fmap_app, <- H5, take_drop.
      now rewrite <- list_fmap_compose.
  - assert (Hi : i = length paths) by lia.
    assert (Hnames : take i (segment 3 <$> paths) = segment 3 <$> paths)
      by (apply take_ge; rewrite length_fmap; lia).
    rewrite Hnames in H2.
    destruct (Nat.ltb_spec i (length c1)) as [Hlt'|Hge'].
    + rewrite remove_extras_all by (assumption || lia).
      eexists _, _. split; [reflexivity|]. split.
      * now apply Forall_take.
      * rewrite (agrees_names _ _ H2). now rewrite <- list_fmap_compose.
    + rewrite take_ge in H2 by lia.
      eexists _, _. split; [reflexivity|]. split; [exact H1|].
      rewrite (agrees_names _ _ H2). now rewrite <- list_fmap_compose.
Qed.

(** X17.  After [displayAllChannels] the channel list shows the names of
    the given channels, in their order, whatever items it held before;
    the workspace list is not touched. *)
Theorem X17_displayAllChannels_shows_the_channels
    (channels : list string) (workspaceName : string) (s : ContainerList.t) :
  Forall is_item (channelList s) ->
  fst (displayAllChannels channels workspaceName s) = Returned
  /\ Forall is_item
       (channelList (snd (displayAllChannels channels workspaceName s)))
  /\ names_shown
       (channelList (snd (displayAllChannels channels workspaceName s)))
     = (fun p => default ""%string (segment 3 p)) <$> channels
  /\ workspaceList (snd (displayAllChannels channels workspaceName s))
     = workspaceList s.
Proof.
  intros Hitems. unfold displayAllChannels.
  destruct (display_all_channels "channel not found" (Some workspaceName)
              channels (nextUuid s) (channelList s) Hitems)
    as (next' & c' & -> & H1 & H2).
  simpl. auto.
Qed.

Lemma X17_displayAllChannels_shows_the_channels_witness :
  names_shown
    (channelList
       (snd (displayAllChannels
               ["/cs/channels/general"; "/cs/channels/exam"] "cs"
               (mkLists []
                  [Item (set_label "general" (new Channel "a"));
                   Item (set_label "old" (new Channel "b"))] 7))))
  = ["general"; "exam"].
Proof.
  refine (proj1 (proj2 (proj2
    (X17_displayAllChannels_shows_the_channels
       ["/cs/channels/general"; "/cs/channels/exam"] "cs"
       (mkLists []
          [Item (set_label "general" (new Channel "a"));
           Item (set_label "old" (new Channel "b"))] 7) _)))).
  apply (bool_decide_unpack _). vm_compute. exact I.
Defined.

Lemma keep_matching_agree (message : string) (names : list (option string))
    (children : list Child) (fuel : nat) :
  Forall2 agrees children names ->
  forall i : nat,
    (i <= length children)%nat -> (length children - i < fuel)%nat ->
    keep_matching fuel message names i children
    = (Returned, (length children, children)).
Proof.
  intros Hagree. pose proof (Forall2_length _ _ _ Hagree) as Hlen.
  induction fuel as [|fuel IH]; intros i Hi Hfuel; [lia|].
  simpl. rewrite <- Hlen, Nat.min_id.
  destruct (Nat.ltb_spec i (length children)) as [Hlt|Hge].
  - destruct (lookup_lt_is_Some_2 children i Hlt) as [c Hc].
    destruct (Forall2_lookup_l _ _ _ _ _ Hagree Hc)
      as (name & Hname & it & -> & ->).
    rewrite Hc, Hname. simpl. rewrite String.eqb_refl. simpl.
    apply IH; lia.
  - do 2 f_equal. lia.
Qed.

(** X18.  A refresh that finds the channel list showing the server's
    channels already changes nothing: every item stays, with its state
    and its identifier, and no identifier is drawn. *)
Theorem X18_displayAllChannels_keeps_a_matching_list
    (channels : list string) (workspaceName : string) (s : ContainerList.t) :
  Forall2 agrees (channelList s) (segment 3 <$> channels) ->
  displayAllChannels channels workspaceName s = (Returned, s).
Proof.
  intros Hagree. pose proof (Forall2_length _ _ _ Hagree) as Hlen.
  rewrite length_fmap in Hlen.
  unfold displayAllChannels, display_all.
  rewrite (keep_matching_agree _ _ _ _ Hagree) by lia.
  rewrite Hlen, Nat.ltb_irrefl. destruct s; reflexivity.
Qed.

Lemma X18_displayAllChannels_keeps_a_matching_list_witness :
  displayAllChannels ["/cs/channels/general"; "/cs/channels/exam"] "cs"
    (mkLists []
       [Item (set_label "general" (new Channel "a"));
        Item (ContainerItem.showError "Server not responding."
                (set_label "exam" (new Channel "b")))] 7)
  = (Returned,
     mkLists []
       [Item (set_label "general" (new Channel "a"));
        Item (ContainerItem.showError "Server not responding."
                (set_label "exam" (new Channel "b")))] 7).
Proof.
  apply X18_displayAllChannels_keeps_a_matching_list.
  repeat constructor; eexists; (split; [reflexivity|]); reflexivity.
Defined.

Lemma split_no_separator (sep : ascii) (s : string) :
  Message.all_chars (fun c => c <> sep) s -> split sep s = [s].
Proof.
  induction s as [|c s IH]; [reflexivity|].
  intros [Hc Hs]%all_chars_cons. simpl.
  destruct (Ascii.eqb_spec c sep); [congruence|]. now rewrite IH.
Qed.

Lemma segments_of_workspace (name : string) :
  Message.all_chars (fun c => c <> "/"%char) name ->
  segment 3 ("/" +:+ name) = None /\ segment 1 ("/" +:+ name) = Some name.
Proof.
  intros H. unfold segment.
  change (split "/" ("/" +:+ name)) with ("" :: split "/" name).
  rewrite split_no_separator by exact H. split; reflexivity.
Qed.

Lemma keep_matching_none (message : string) (names : list (option string))
    (children : list Child) :
  Forall (fun n => n = None) names -> names <> [] ->
  Forall is_item children ->
  forall fuel : nat,
    (length children < fuel)%nat ->
    keep_matching fuel message names 0 children = (Returned, (0%nat, [])).
Proof.
  intros Hnone Hne. destruct names as [|n names]; [congruence|].
  apply Forall_cons in Hnone as [-> _].
  induction children as [|c cs IH]; intros Hitems fuel Hfuel;
    (destruct fuel as [|fuel]; [simpl in Hfuel; lia|]); [reflexivity|].
  apply Forall_cons in Hitems as [Hc Hcs].
  destruct c as [existing|]; [|contradiction].
  simpl. apply IH; [exact Hcs | simpl in Hfuel; lia].
Qed.

(** X19.  A refresh of the workspace list keeps no item: the first loop
    compares an item's name with the fourth segment of a workspace's
    path, which a path of the form [/name] does not have.  Every item
    that was there is removed, whatever its state, and a new one is
    made for each workspace. *)
Theorem X19_displayAllWorkspaces_rebuilds_the_list
    (names : list string) (s : ContainerList.t) :
  Forall is_item (workspaceList s) ->
  Forall (Message.all_chars (fun c => c <> "/"%char)) names ->
  displayAllWorkspaces ((fun n => "/" +:+ n) <$> names) s
  = (Returned,
     mkLists
       (imap (fun k n =>
                Item (set_label n (new Workspace (uuid (nextUuid s + k)))))
          names)
       (channelList s) (nextUuid s + length names)).
Proof.
  intros Hitems Hnames.
  unfold displayAllWorkspaces, display_all.
  set (paths := (fun n => "/" +:+ n) <$> names).
  assert (Hnone : Forall (fun n => n = None) (segment 3 <$> paths)).
  { unfold paths. rewrite <- list_fmap_compose. apply Forall_fmap.
    eapply Forall_impl; [exact Hnames|]. intros n Hn. simpl.
    now apply segments_of_workspace. }
  assert (Hlabels : segment 1 <$> paths = Some <$> names).
  { unfold paths. rewrite <- list_fmap_compose. apply Forall_fmap_ext.
    eapply Forall_impl; [exact Hnames|]. intros n Hn. simpl.
    now apply segments_of_workspace. }
  destruct names as [|n names].
  - assert (Hk : keep_matching (S (length (workspaceList s)))
                   "workspace not found[object HTMLParagraphElement]" [] 0
                   (workspaceList s)
                 = (Returned, (0%nat, workspaceList s))).
    { simpl. now rewrite Nat.min_0_r. }
    unfold paths. simpl fmap. rewrite Hk. simpl length at 1.
    change (0 <? 0)%nat with false. cbv iota.
    rewrite Nat.add_0_r.
    destruct (Nat.ltb_spec 0 (length (workspaceList s))) as [Hlt|Hge].
    + now rewrite remove_extras_all by (assumption || lia).
    + destruct (workspaceList s); [reflexivity | simpl in Hge; lia].
  - rewrite keep_matching_none by (try assumption; try discriminate; lia).
    change (0 <? length paths)%nat with true. cbv iota.
    rewrite Hlabels, drop_0, append_new_spec.
    rewrite app_nil_l, length_fmap, imap_fmap. reflexivity.
Qed.

Lemma X19_displayAllWorkspaces_rebuilds_the_list_witness :
  displayAllWorkspaces ["/cs"; "/math"]
    (mkLists [Item (set_label "cs" (new Workspace "a"))] [] 7)
  = (Returned,
     mkLists [Item (set_label "cs" (new Workspace (uuid 7)));
              Item (set_label "math" (new Workspace (uuid 8)))] [] 9).
Proof.
  apply (X19_displayAllWorkspaces_rebuilds_the_list ["cs"; "math"]
           (mkLists [Item (set_label "cs" (new Workspace "a"))] [] 7));
    apply (bool_decide_unpack _); vm_compute; exact I.
Defined.

(** X20.  After [channelError] has put its paragraph into the channel
    list, [displayAllChannels] throws for every list of channels and
    leaves the paragraph where it is. *)
Theorem X20_displayAllChannels_after_channelError
    (message workspaceName : string) (channels : list string)
    (s : ContainerList.t) :
  displayAllChannels channels workspaceName (channelError message s)
  = (Threw "channel not found", channelError message s).
Proof.
  unfold displayAllChannels, display_all, channelError. simpl.
  destruct channels as [|p channels]; reflexivity.
Qed.

End Lists.

(** ** The life of a list item *)

Section ItemLife.

Import ContainerItem View ContainerList.

Lemma submit_accepts (it : ContainerItem.t) :
  disabled it = false -> ~ rejected_name (input_value it) ->
  submit (KeyboardEvent "Enter") it
  = (settle_label (disableItem (removeError it)), [create_event it]).
Proof.
  intros Hdis Hname. rewrite rejected_name_test in Hname.
  unfold submit. simpl. rewrite Hdis.
  destruct (String.eqb (input_value it) "") eqn:E1; [tauto|].
  destruct (Js.includes "/" (input_value it)
            || String.eqb (input_value it) "."
            || String.eqb (input_value it) ".."
            || Js.includes "\" (input_value it)
            || Js.includes (Js.str1 Js.dquote) (input_value it)) eqn:E2;
    [tauto | reflexivity].
Qed.

(** X21.  An item whose name was accepted and whose creation the server
    confirmed ([enableItem], called by [updateWorkspace] and
    [updateChannel]) is enabled again, shows the name without an error,
    and dispatches on selection the names and the identifier that its
    create event carried.  Its [tabIndex], which [disableItem] set to
    [-1], stays [-1]. *)
Theorem X21_confirmed_item_selects_what_it_created (it : ContainerItem.t) :
  disabled it = false -> ~ rejected_name (input_value it) ->
  let confirmed := enableItem (fst (submit (KeyboardEvent "Enter") it)) in
  snd (submit (KeyboardEvent "Enter") it) = [create_event it]
  /\ disabled confirmed = false
  /\ class_waiting confirmed = false
  /\ getName confirmed = input_value it
  /\ errorDisplay confirmed = ""%string
  /\ selectContainer confirmed
     = [mkEvent ("select" +:+ ContainerItem.type_name (type it) +:+ "Event")
          (ev_workspaceName (create_event it))
          (ev_channelName (create_event it)) (data_id it)]
  /\ tabIndex confirmed = (-1)%Z.
Proof.
  intros Hdis Hname confirmed. subst confirmed.
  rewrite (submit_accepts it Hdis Hname).
  unfold selectContainer, own_event, create_event. simpl.
  destruct (type it); repeat split; reflexivity.
Qed.

Lemma valid_general : ~ rejected_name "general".
Proof.
  unfold rejected_name. simpl.
  intros [H|[H|[H|[H|[H|H]]]]]; try discriminate H;
    repeat (destruct H as [H|H]; [discriminate H|]); exact H.
Qed.

Lemma X21_confirmed_item_selects_what_it_created_witness :
  selectContainer
    (enableItem (fst (submit (KeyboardEvent "Enter")
                        (sample_item Channel "general"))))
  = [mkEvent "selectChannelEvent" "cs-team" "general" "uuid-1"].
Proof.
  pose proof (X21_confirmed_item_selects_what_it_created
                (sample_item Channel "general") eq_refl valid_general) as H.
  cbv zeta in H. destruct H as (_ & _ & _ & _ & _ & H & _). exact H.
Defined.

(** X22.  An item whose creation failed and that [reopenWorkspace] or
    [reopenChannel] opened again shows the message, is in its editor
    with the name that was typed, cannot be selected, and dispatches
    on Enter the same create event, with the same identifier, once
    more. *)
Theorem X22_reopened_item_submits_again
    (it : ContainerItem.t) (errorMsg : string) :
  disabled it = false -> ~ rejected_name (input_value it) ->
  let reopened :=
    showError errorMsg
      (clickEditBtn (enableItem (fst (submit (KeyboardEvent "Enter") it)))) in
  disabled reopened = false
  /\ input_hidden reopened = false
  /\ getName reopened = ""%string
  /\ input_value reopened = input_value it
  /\ errorDisplay reopened = errorMsg
  /\ selectContainer reopened = []
  /\ snd (submit (KeyboardEvent "Enter") reopened) = [create_event it].
Proof.
  intros Hdis Hname reopened. subst reopened.
  rewrite (submit_accepts it Hdis Hname).
  repeat split; try reflexivity.
  rewrite submit_accepts; [| reflexivity | exact Hname].
  unfold create_event. simpl. reflexivity.
Qed.

Lemma X22_reopened_item_submits_again_witness :
  snd (submit (KeyboardEvent "Enter")
         (showError "Channel already exists"
            (clickEditBtn
               (enableItem (fst (submit (KeyboardEvent "Enter")
                                   (sample_item Channel "general")))))))
  = [mkEvent "createChannelEvent" "cs-team" "general" "uuid-1"].
Proof.
  pose proof (X22_reopened_item_submits_again
                (sample_item Channel "general") "Channel already exists"
                eq_refl valid_general) as H.
  cbv zeta in H. destruct H as (_ & _ & _ & _ & _ & _ & H). exact H.
Defined.

Lemma ids_cons_item (it : ContainerItem.t) (cs : list Child) :
  ids (Item it :: cs) = data_id it :: ids cs.
Proof. reflexivity. Qed.

Lemma ids_cons_paragraph (m : string) (cs : list Child) :
  ids (Paragraph m :: cs) = ids cs.
Proof. reflexivity. Qed.

Lemma find_child_none (id : string) (children : list Child) :
  id ∉ ids children -> find_child id children = None.
Proof.
  induction children as [|[it|m] cs IH]; [reflexivity| |].
  - rewrite ids_cons_item, not_elem_of_cons. intros [Hne Hcs]. simpl.
    destruct (String.eqb_spec (data_id it) id); [congruence|].
    now rewrite IH.
  - rewrite ids_cons_paragraph. intros Hcs. simpl. now rewrite IH.
Qed.

Lemma filter_no_id (id : string) (children : list Child) :
  id ∉ ids children ->
  filter (fun c => has_id id c = false) children = children.
Proof.
  induction children as [|[it|m] cs IH]; [reflexivity| |].
  - rewrite ids_cons_item, not_elem_of_cons. intros [Hne Hcs].
    rewrite filter_cons_True.
    + now rewrite IH.
    + simpl. now apply String.eqb_neq.
  - rewrite ids_cons_paragraph. intros Hcs.
    rewrite filter_cons_True by reflexivity. now rewrite IH.
Qed.

Lemma fmap_no_id (id : string) (f : ContainerItem.t -> ContainerItem.t)
    (children : list Child) :
  id ∉ ids children ->
  (fun c => match c with
            | Item it => if String.eqb (data_id it) id then Item (f it) else c
            | Paragraph _ => c
            end) <$> children = children.
Proof.
  induction children as [|[it|m] cs IH]; [reflexivity| |].
  - rewrite ids_cons_item, not_elem_of_cons. intros [Hne Hcs].
    rewrite fmap_cons, IH by exact Hcs.
    destruct (String.eqb_spec (data_id it) id); [congruence | reflexivity].
  - rewrite ids_cons_paragraph. intros Hcs. now rewrite fmap_cons, IH.
Qed.

Lemma id_of_child (children : list Child) (i : nat) (it : ContainerItem.t) :
  children !! i = Some (Item it) -> data_id it ∈ ids children.
Proof.
  intros H. unfold ids. apply list_elem_of_omap.
  exists (Item it). split; [|reflexivity].
  eapply list_elem_of_lookup_2. exact H.
Qed.

Lemma find_child_found (id : string) (children : list Child) :
  id ∈ ids children ->
  exists i it,
    find_child id children = Some (i, it)
    /\ children !! i = Some (Item it) /\ data_id it = id.
Proof.
  induction children as [|[x|m] cs IH]; intros Hin.
  - now apply elem_of_nil in Hin.
  - simpl find_child.
    destruct (String.eqb_spec (data_id x) id) as [E|E].
    + exists 0%nat, x. auto.
    + rewrite ids_cons_item in Hin.
      apply elem_of_cons in Hin as [Hin|Hin]; [congruence|].
      destruct (IH Hin) as (i & it & -> & Hi & Hid).
      exists (S i), it. auto.
  - rewrite ids_cons_paragraph in Hin.
    destruct (IH Hin) as (i & it & Hf & Hi & Hid).
    exists (S i), it. simpl find_child. rewrite Hf. auto.
Qed.

Lemma delete_by_id (children : list Child) :
  forall (i : nat) (it : ContainerItem.t),
    children !! i = Some (Item it) -> NoDup (ids children) ->
    base.delete i children
    = filter (fun c => has_id (data_id it) c = false) children.
Proof.
  induction children as [|c cs IH]; intros [|i] it Hi Hnd;
    try discriminate.
  - injection Hi as ->. rewrite ids_cons_item in Hnd.
    apply NoDup_cons in Hnd as [Hx _].
    rewrite filter_cons_False
      by (simpl; rewrite String.eqb_refl; discriminate).
    simpl. now rewrite filter_no_id.
  - simpl in Hi. pose proof (id_of_child _ _ _ Hi) as Hin.
    destruct c as [x|m].
    + rewrite ids_cons_item in Hnd. apply NoDup_cons in Hnd as [Hx Hnd].
      rewrite filter_cons_True
        by (simpl; apply String.eqb_neq; intros E; congruence).
      simpl. f_equal. now apply IH.
    + rewrite ids_cons_paragraph in Hnd.
      rewrite filter_cons_True by reflexivity.
      simpl. f_equal. now apply IH.
Qed.

Lemma insert_by_id (f : ContainerItem.t -> ContainerItem.t)
    (children : list Child) :
  forall (i : nat) (it : ContainerItem.t),
    children !! i = Some (Item it) -> NoDup (ids children) ->
    <[i := Item (f it)]> children
    = (fun c => match c with
                | Item x =>
                    if String.eqb (data_id x) (data_id it) then Item (f x)
                    else c
                | Paragraph _ => c
                end) <$> children.
Proof.
  induction children as [|c cs IH]; intros [|i] it Hi Hnd;
    try discriminate.
  - injection Hi as ->. rewrite ids_cons_item in Hnd.
    apply NoDup_cons in Hnd as [Hx _].
    rewrite fmap_cons, String.eqb_refl. simpl. f_equal.
    symmetry. exact (fmap_no_id (data_id it) f cs Hx).
  - simpl in Hi. pose proof (id_of_child _ _ _ Hi) as Hin.
    rewrite fmap_cons. simpl. destruct c as [x|m].
    + rewrite ids_cons_item in Hnd. apply NoDup_cons in Hnd as [Hx Hnd].
      destruct (String.eqb_spec (data_id x) (data_id it)) as [E|E];
        [congruence|].
      f_equal. now apply IH.
    + rewrite ids_cons_paragraph in Hnd. f_equal. now apply IH.
Qed.

Lemma is_type_same (ty : ContainerType) (it : ContainerItem.t) :
  type it = ty -> is_type ty it = true.
Proof. intros <-. unfold is_type. now destruct (type it). Qed.

(** Looking an item up by an identifier that the list holds once. *)
Lemma with_item_replaces (ty : ContainerType) (message id : string)
    (f : ContainerItem.t -> ContainerItem.t) (children : list Child) :
  id ∈ ids children -> NoDup (ids children) ->
  Forall (item_of ty) children ->
  with_item ty message id (fun it => Some (f it)) children
  = (Returned,
     (fun c => match c with
               | Item x => if String.eqb (data_id x) id then Item (f x) else c
               | Paragraph _ => c
               end) <$> children).
Proof.
  intros Hin Hnd Hty.
  destruct (find_child_found id children Hin) as (i & it & Hf & Hi & Hid).
  unfold with_item. rewrite Hf.
  pose proof (Forall_lookup_1 _ _ _ _ Hty Hi) as Hit. simpl in Hit.
  rewrite (is_type_same _ _ Hit). f_equal. subst id.
  now apply insert_by_id.
Qed.

Lemma with_item_removes (ty : ContainerType) (message id : string)
    (children : list Child) :
  id ∈ ids children -> NoDup (ids children) ->
  Forall (item_of ty) children ->
  with_item ty message id (fun _ => None) children
  = (Returned, filter (fun c => has_id id c = false) children).
Proof.
  intros Hin Hnd Hty.
  destruct (find_child_found id children Hin) as (i & it & Hf & Hi & Hid).
  unfold with_item. rewrite Hf.
  pose proof (Forall_lookup_1 _ _ _ _ Hty Hi) as Hit. simpl in Hit.
  rewrite (is_type_same _ _ Hit). f_equal. subst id.
  now apply delete_by_id.
Qed.

Lemma with_item_missing (ty : ContainerType) (message id : string)
    (act : ContainerItem.t -> option ContainerItem.t)
    (children : list Child) :
  id ∉ ids children ->
  with_item ty message id act children = (Threw message, children).
Proof. intros H. unfold with_item. now rewrite find_child_none. Qed.

(** X23.  [deleteChannel] takes out of the channel list the item with
    the given identifier and nothing else; [updateChannel] enables that
    item, shows the message if one is given, and leaves every other
    child as it is.  For an identifier that no item of the list has,
    both throw and change nothing.  The identifier is one that
    [crypto.randomUUID()] can give, and the list holds each identifier
    once. *)
Theorem X23_channel_is_found_by_its_identifier
    (id : string) (m : option string) (s : ContainerList.t) :
  uuid_text id ->
  (id ∈ ids (channelList s) -> NoDup (ids (channelList s)) ->
   Forall (item_of Channel) (channelList s) ->
   deleteChannel id s
   = (Returned,
      mkLists (workspaceList s)
        (filter (fun c => has_id id c = false) (channelList s)) (nextUuid s))
   /\ updateChannel id m s
      = (Returned,
         mkLists (workspaceList s)
           ((fun c => match c with
                      | Item x =>
                          if String.eqb (data_id x) id
                          then Item (show_message m (enableItem x)) else c
                      | Paragraph _ => c
                      end) <$> channelList s)
           (nextUuid s)))
  /\ (id ∉ ids (channelList s) ->
      deleteChannel id s = (Threw "in View, channel not found", s)
      /\ updateChannel id m s = (Threw "in View, channel not found", s)).
Proof.
  intros _. split.
  - intros Hin Hnd Hty. unfold deleteChannel, updateChannel, on_channels.
    rewrite (with_item_removes _ _ _ _ Hin Hnd Hty).
    rewrite (with_item_replaces _ _ _
               (fun it => show_message m (enableItem it)) _ Hin Hnd Hty).
    split; reflexivity.
  - intros Hout. unfold deleteChannel, updateChannel, on_channels.
    rewrite !with_item_missing by exact Hout. destruct s; auto.
Qed.

Lemma X23_channel_is_found_by_its_identifier_witness :
  deleteChannel "b"
    (mkLists []
       [Item (set_label "general" (new Channel "a"));
        Item (set_label "exam" (new Channel "b"))] 7)
  = (Returned,
     mkLists [] [Item (set_label "general" (new Channel "a"))] 7)
  /\ deleteChannel "c"
       (mkLists []
          [Item (set_label "general" (new Channel "a"));
           Item (set_label "exam" (new Channel "b"))] 7)
     = (Threw "in View, channel not found",
        mkLists []
          [Item (set_label "general" (new Channel "a"));
           Item (set_label "exam" (new Channel "b"))] 7).
Proof.
  pose proof (X23_channel_is_found_by_its_identifier "b" None
                (mkLists []
                   [Item (set_label "general" (new Channel "a"));
                    Item (set_label "exam" (new Channel "b"))] 7)) as Hb.
  pose proof (X23_channel_is_found_by_its_identifier "c" None
                (mkLists []
                   [Item (set_label "general" (new Channel "a"));
                    Item (set_label "exam" (new Channel "b"))] 7)) as Hc.
  split.
  - apply (proj1 (Hb ltac:(apply (bool_decide_unpack _); vm_compute;
                           exact I)));
      apply (bool_decide_unpack _); vm_compute; exact I.
  - apply (proj2 (Hc ltac:(apply (bool_decide_unpack _); vm_compute;
                           exact I))).
    apply (bool_decide_unpack _). vm_compute. exact I.
Defined.

End ItemLife.

(** ** A channel made with the create button *)

Section NewChannel.

Import ContainerItem View ContainerList.

Lemma find_child_last (id : string) (it : ContainerItem.t)
    (children : list Child) :
  id ∉ ids children -> data_id it = id ->
  find_child id (children ++ [Item it]) = Some (length children, it).
Proof.
  intros Hout Hid. induction children as [|[x|m] cs IH].
  - simpl. now rewrite Hid, String.eqb_refl.
  - rewrite ids_cons_item, not_elem_of_cons in Hout.
    destruct Hout as [Hne Hcs]. simpl.
    destruct (String.eqb_spec (data_id x) id); [congruence|].
    now rewrite IH.
  - rewrite ids_cons_paragraph in Hout. simpl. now rewrite IH.
Qed.

Lemma insert_last {A} (l : list A) (x y : A) :
  <[length l := y]> (l ++ [x]) = l ++ [y].
Proof.
  induction l as [|a l IH]; [reflexivity|]. simpl. now rewrite IH.
Qed.

Lemma lookup_last {A} (l : list A) (x : A) :
  (l ++ [x]) !! length l = Some x.
Proof. induction l as [|a l IH]; [reflexivity | exact IH]. Qed.

Lemma delete_last {A} (l : list A) (x : A) :
  base.delete (length l) (l ++ [x]) = l.
Proof.
  induction l as [|a l IH]; [reflexivity|]. simpl. now rewrite IH.
Qed.

(** X28.  The create button of the channel view puts a new item with
    an open editor at the end of the channel list.  When the user types
    a name that is accepted and presses Enter, the item dispatches
    [createChannelEvent] with the current workspace, the name and its
    identifier; [updateChannel] with that identifier then leaves the
    list as it was with the new item at its end, enabled, showing the
    name, and selectable as that channel; [deleteChannel] instead
    leaves the list as it was. *)
Theorem X28_created_channel_joins_the_list
    (currWorkspace v : string) (s : ContainerList.t) :
  ~ rejected_name v -> uuid (nextUuid s) ∉ ids (channelList s) ->
  let id := uuid (nextUuid s) in
  let s1 := ChannelView_create currWorkspace s in
  let typed := type_and_enter (length (channelList s)) v (channelList s1) in
  let s2 := mkLists (workspaceList s1) (fst typed) (nextUuid s1) in
  snd typed = [mkEvent "createChannelEvent" currWorkspace v id]
  /\ (exists confirmed,
        updateChannel id None s2
        = (Returned,
           mkLists (workspaceList s) (channelList s ++ [Item confirmed])
             (S (nextUuid s)))
        /\ getName confirmed = v /\ parentName confirmed = currWorkspace
        /\ data_id confirmed = id /\ disabled confirmed = false
        /\ selectContainer confirmed
           = [mkEvent "selectChannelEvent" currWorkspace v id])
  /\ deleteChannel id s2
     = (Returned,
        mkLists (workspaceList s) (channelList s) (S (nextUuid s))).
Proof.
  intros Hname Hfresh id s1 typed s2.
  set (it0 := clickEditBtn
                (setParentName currWorkspace (new Channel id))).
  assert (Et : typed
               = (channelList s
                  ++ [Item (settle_label
                              (disableItem
                                 (removeError (type_text v it0))))],
                  [mkEvent "createChannelEvent" currWorkspace v id])).
  { unfold typed, type_and_enter, s1, ChannelView_create. simpl channelList.
    fold id. fold it0. rewrite lookup_last.
    rewrite (submit_accepts (type_text v it0) eq_refl Hname).
    simpl fst. simpl snd. now rewrite insert_last. }
  unfold s2. rewrite Et. simpl fst. simpl snd.
  set (it2 := settle_label (disableItem (removeError (type_text v it0)))).
  assert (Ef : find_child id (channelList s ++ [Item it2])
               = Some (length (channelList s), it2))
    by now apply find_child_last.
  split; [reflexivity|]. split.
  - exists (show_message None (enableItem it2)).
    unfold updateChannel, on_channels, with_item. simpl. rewrite Ef. simpl.
    rewrite insert_last. repeat split; reflexivity.
  - unfold deleteChannel, on_channels, with_item. simpl. rewrite Ef. simpl.
    now rewrite delete_last.
Qed.

Lemma X28_created_channel_joins_the_list_witness :
  snd (type_and_enter 0 "general"
         (channelList (ChannelView_create "cs-team" (mkLists [] [] 4))))
  = [mkEvent "createChannelEvent" "cs-team" "general" "4"].
Proof.
  pose proof (X28_created_channel_joins_the_list "cs-team" "general"
                (mkLists [] [] 4) valid_general) as H.
  cbv zeta in H. destruct H as (H & _).
  - apply (bool_decide_unpack _). vm_compute. exact I.
  - exact H.
Defined.

End NewChannel.

(** ** The ends of a retriable banner *)

Section Banner.

Import ErrorView ErrorHistory.

Lemma abort_unsignalled (s : ErrorView.t) :
  Forall (listener_ok s) (listeners s) ->
  Forall unsignalled (listeners (abort s)).
Proof.
  intros H. simpl. induction H as [|l ls Hl _ IH]; [constructor|].
  destruct (decide (signal l ≠ Some (controller s))) as [Hd|Hd].
  - rewrite filter_cons_True by exact Hd. constructor; [|exact IH].
    destruct Hl as [Hl|Hl]; [contradiction | exact Hl].
  - rewrite filter_cons_False by exact Hd. exact IH.
Qed.




Lemma unsignalled_ok (s : ErrorView.t) (ls : list Listener) :
  Forall unsignalled ls -> Forall (listener_ok s) ls.
Proof. intros H. eapply Forall_impl; [exact H|]. intros l Hl. now right. Qed.






Lemma find_last {A} (id : nat) (ts : list (nat * A)) (x : A) :
  id ∉ (fst <$> ts) ->
  List.find (fun p => Nat.eqb (fst p) id) (ts ++ [(id, x)]) = Some (id, x).
Proof.
  induction ts as [|p ts IH]; intros H.
  - simpl. now rewrite Nat.eqb_refl.
  - simpl. destruct (Nat.eqb_spec (fst p) id) as [E|E].
    + exfalso. apply H. rewrite fmap_cons, E. left.
    + apply IH. intros Hin. apply H. rewrite fmap_cons. now right.
Qed.



(** The three listeners and timers of the banner, on top of what the
    bar held. *)
Lemma banner_state (event m reverseEvent : Event) (seconds : nat)
    (s0 : ErrorView.t) :
  let s := showRetriableError event m reverseEvent seconds s0 in
  listeners s
  = listeners (abort s0)
    ++ [mkListener CancelBtn (AbortCloseHandler reverseEvent)
          (Some (nextController s0));
        mkListener RetryBtn (RetryHandler event) (Some (nextController s0))]
  /\ controller s = nextController s0
  /\ timeouts s = timeouts s0 ++ [(nextTimer s0, event)]
  /\ timeoutId s = Some (nextTimer s0)
  /\ dispatched s = dispatched s0
  /\ intervals s = intervals s0 ++ [(S (nextTimer s0), seconds)]
  /\ msg s = m /\ errorMsg s = m.
Proof. simpl. rewrite <- app_assoc. repeat split; reflexivity. Qed.



(** *** Every history leaves a consistent bar *)

Lemma Forall_filter_keeps {A} (P Q : A -> Prop) `{!forall x, Decision (P x)}
    (l : list A) :
  Forall Q l -> Forall Q (filter P l).
Proof.
  intros HQ. apply Forall_forall. intros x Hx.
  apply list_elem_of_filter in Hx as [_ Hx].
  rewrite Forall_forall in HQ. now apply HQ.
Qed.

Lemma consistent_dispatchEvent (e : Event) (s : ErrorView.t) :
  consistent s -> consistent (dispatchEvent e s).
Proof. intros H. exact H. Qed.

Lemma consistent_abort (s : ErrorView.t) :
  consistent s -> consistent (abort s).
Proof.
  intros (Hl & Ht & Hi). repeat split; simpl; try assumption.
  now apply Forall_filter_keeps.
Qed.

Lemma consistent_close (reverseEvent : option Event) (s : ErrorView.t) :
  consistent s -> consistent (close reverseEvent s).
Proof.
  intros (Hl & Ht & Hi). unfold close.
  destruct reverseEvent as [e|]; simpl;
    destruct (timeoutId s) as [id|]; simpl; repeat split; simpl;
    try assumption; now apply Forall_filter_keeps.
Qed.

Lemma consistent_run (h : Handler) (s : ErrorView.t) :
  consistent s -> consistent (run h s).
Proof.
  intros H. destruct h; simpl.
  - now apply consistent_close.
  - unfold abortClose. now apply consistent_close, consistent_abort.
  - unfold retry.
    now apply consistent_close, consistent_abort, consistent_dispatchEvent.
Qed.

Lemma consistent_click (b : ButtonName) (s : ErrorView.t) :
  consistent s -> consistent (click b s).
Proof.
  unfold click. generalize (filter (fun l => target l = b) (listeners s)).
  intros ls. revert s. induction ls as [|l ls IH]; intros s H; [exact H|].
  simpl. apply IH. now apply consistent_run.
Qed.

Lemma consistent_show (m : string) (s : ErrorView.t) :
  consistent s -> consistent (show m s).
Proof.
  intros (Hl & Ht & Hi). repeat split; simpl; try assumption.
  apply Forall_app. split.
  - apply unsignalled_ok. now apply abort_unsignalled.
  - constructor; [|constructor]. right. repeat split; reflexivity.
Qed.

Lemma consistent_showRetriableError (event m reverseEvent : Event)
    (seconds : nat) (s : ErrorView.t) :
  consistent s ->
  consistent (showRetriableError event m reverseEvent seconds s).
Proof.
  intros (Hl & Ht & Hi). repeat split; simpl.
  - rewrite <- app_assoc. apply Forall_app. split.
    + apply unsignalled_ok. now apply abort_unsignalled.
    + constructor; [now left|]. constructor; [now left | constructor].
  - apply Forall_app. split.
    + eapply Forall_impl; [exact Ht|]. simpl. intros p Hp. lia.
    + constructor; [simpl; lia | constructor].
  - apply Forall_app. split.
    + eapply Forall_impl; [exact Hi|]. simpl. intros p Hp. lia.
    + constructor; [simpl; lia | constructor].
Qed.

Lemma consistent_fire_timeout (id : nat) (s : ErrorView.t) :
  consistent s -> consistent (fire_timeout id s).
Proof.
  intros H. unfold fire_timeout.
  destruct (List.find _ (timeouts s)) as [[i event]|]; [|exact H].
  apply (consistent_run (RetryHandler event)).
  destruct H as (Hl & Ht & Hi). repeat split; simpl; try assumption.
  now apply Forall_filter_keeps.
Qed.

Lemma consistent_tick (id : nat) (s : ErrorView.t) :
  consistent s -> consistent (tick id s).
Proof.
  intros H. unfold tick.
  destruct (List.find _ (intervals s)) as [[i timeRemaining]|] eqn:Ef;
    [|exact H].
  destruct H as (Hl & Ht & Hi).
  destruct timeRemaining as [|rest]; repeat split; simpl; try assumption.
  - now apply Forall_filter_keeps.
  - apply Forall_forall. intros p Hp.
    apply (list_elem_of_fmap_1 _ (intervals s)) in Hp as (q & -> & Hq).
    rewrite Forall_forall in Hi. specialize (Hi q Hq).
    destruct (Nat.eqb_spec (fst q) id) as [E|E]; simpl; lia.
Qed.

Lemma consistent_step (a : Action) (s : ErrorView.t) :
  consistent s -> consistent (step a s).
Proof.
  destruct a; simpl.
  - apply consistent_show.
  - apply consistent_showRetriableError.
  - apply consistent_close.
  - apply consistent_click.
  - apply consistent_fire_timeout.
  - apply consistent_tick.
Qed.

Lemma consistent_after (history : list Action) : consistent (after history).
Proof.
  unfold after.
  assert (H0 : consistent init) by (repeat split; constructor).
  revert H0. generalize init.
  induction history as [|a history IH]; intros s H; [exact H|].
  simpl. apply IH. now apply consistent_step.
Qed.

(** *** The banner ends once *)




End Banner.

(** ** The countdown of a retriable banner *)

Section Countdown.

Import ErrorView ErrorHistory.

Lemma map_other_timers (id rest : nat) (ts : list (nat * nat)) :
  id ∉ (fst <$> ts) ->
  map (fun p => if Nat.eqb (fst p) id then (id, rest) else p) ts = ts.
Proof.
  induction ts as [|p ts IH]; intros H; [reflexivity|].
  simpl. destruct (Nat.eqb_spec (fst p) id) as [E|E].
  - exfalso. apply H. rewrite fmap_cons, E. left.
  - f_equal. apply IH. intros Hin. apply H. rewrite fmap_cons. now right.
Qed.

Lemma filter_other_timers (id : nat) (ts : list (nat * nat)) :
  id ∉ (fst <$> ts) -> filter (fun p => fst p ≠ id) ts = ts.
Proof.
  induction ts as [|p ts IH]; intros H; [reflexivity|].
  rewrite fmap_cons, not_elem_of_cons in H. destruct H as [Hp H].
  rewrite filter_cons_True by congruence. now rewrite IH.
Qed.

(** A turn of a countdown that has seconds left. *)
Lemma tick_counting (id t : nat) (s : ErrorView.t) (ts : list (nat * nat)) :
  intervals s = ts ++ [(id, S t)] -> id ∉ (fst <$> ts) ->
  errorMsg (tick id s) = countdown_text (msg s) (S t)
  /\ intervals (tick id s) = ts ++ [(id, t)]
  /\ msg (tick id s) = msg s.
Proof.
  intros Hi Hf. unfold tick. rewrite Hi, find_last by exact Hf. simpl.
  split; [reflexivity|]. split; [|reflexivity].
  rewrite map_app, map_other_timers by exact Hf. simpl.
  now rewrite Nat.eqb_refl.
Qed.

(** The turn of a countdown that has none left. *)
Lemma tick_done (id : nat) (s : ErrorView.t) (ts : list (nat * nat)) :
  intervals s = ts ++ [(id, 0%nat)] -> id ∉ (fst <$> ts) ->
  errorMsg (tick id s) = errorMsg s /\ intervals (tick id s) = ts.
Proof.
  intros Hi Hf. unfold tick. rewrite Hi, find_last by exact Hf. simpl.
  split; [reflexivity|].
  rewrite filter_app, filter_other_timers by exact Hf.
  rewrite filter_cons_False by (intros H; now apply H).
  now rewrite filter_nil, app_nil_r.
Qed.

Lemma ticks_counting (id n : nat) (s : ErrorView.t) (ts : list (nat * nat)) :
  intervals s = ts ++ [(id, n)] -> id ∉ (fst <$> ts) ->
  forall k, (k < n)%nat ->
    errorMsg (ticks (S k) id s) = countdown_text (msg s) (n - k)
    /\ intervals (ticks (S k) id s) = ts ++ [(id, (n - S k)%nat)]
    /\ msg (ticks (S k) id s) = msg s.
Proof.
  intros Hi Hf. induction k as [|k IH]; intros Hk.
  - destruct n as [|t]; [lia|]. rewrite Nat.sub_0_r.
    replace (S t - 1)%nat with t by lia.
    now apply tick_counting.
  - destruct IH as (_ & Ii & Im); [lia|].
    replace (n - S k)%nat with (S (n - S (S k))) in Ii |- * by lia.
    change (ticks (S (S k)) id s) with (tick id (ticks (S k) id s)).
    destruct (tick_counting id _ _ ts Ii Hf) as (E1 & E2 & E3).
    rewrite E1, E2, E3, Im. repeat split; reflexivity.
Qed.

(** The countdown of a banner on a consistent bar. *)
Lemma banner_countdown (event m reverseEvent : Event) (seconds : nat)
    (s0 : ErrorView.t) :
  consistent s0 ->
  let s := showRetriableError event m reverseEvent seconds s0 in
  let id := S (nextTimer s0) in
  (forall k, (k < seconds)%nat ->
     errorMsg (ticks (S k) id s) = countdown_text m (seconds - k))
  /\ errorMsg (ticks (S seconds) id s) = errorMsg (ticks seconds id s)
  /\ intervals (ticks (S seconds) id s) = intervals s0.
Proof.
  intros (_ & _ & Hi) s id.
  destruct (banner_state event m reverseEvent seconds s0)
    as (_ & _ & _ & _ & _ & Ei & Em & _).
  fold s in Ei, Em.
  assert (Hf : id ∉ (fst <$> intervals s0)).
  { intros Hin. apply list_elem_of_fmap_1 in Hin as (p & Hp & Hin).
    rewrite Forall_forall in Hi. specialize (Hi p Hin). unfold id in Hp.
    lia. }
  split.
  - intros k Hk. rewrite <- Em. now apply (ticks_counting id seconds s _ Ei Hf).
  - assert (Hlast : intervals (ticks seconds id s)
                    = intervals s0 ++ [(id, 0%nat)]).
    { destruct seconds as [|t]; [exact Ei|].
      destruct (ticks_counting id (S t) s _ Ei Hf t) as (_ & E & _); [lia|].
      now rewrite Nat.sub_diag in E. }
    change (ticks (S seconds) id s) with (tick id (ticks seconds id s)).
    now apply tick_done.
Qed.

(** X25.  After every history of the bar, the countdown of a retriable
    banner of [seconds] seconds writes, at its turn number [k + 1], the
    banner's message followed by [. Retrying in n seconds] for
    [n = seconds - k], down to 1; the turn after that writes nothing
    and ends the interval. *)
Theorem X25_countdown_counts_down
    (history : list Action) (event m reverseEvent : Event)
    (seconds k : nat) :
  let s0 := after history in
  let s := showRetriableError event m reverseEvent seconds s0 in
  let id := S (nextTimer s0) in
  (k < seconds)%nat ->
  errorMsg (ticks (S k) id s) = countdown_text m (seconds - k)
  /\ errorMsg (ticks (S seconds) id s) = errorMsg (ticks seconds id s)
  /\ intervals (ticks (S seconds) id s) = intervals s0.
Proof.
  intros s0 s id Hk.
  destruct (banner_countdown event m reverseEvent seconds s0
              (consistent_after history)) as (H1 & H2 & H3).
  split; [now apply H1|]. split; [exact H2 | exact H3].
Qed.

Lemma X25_countdown_counts_down_witness :
  errorMsg
    (ticks 3 2
       (showRetriableError "createPostEvent" "Server not responding"
          "rollback" 10 (after [])))
  = "Server not responding. Retrying in 8 seconds"%string.
Proof.
  pose proof (X25_countdown_counts_down [] "createPostEvent"
                "Server not responding" "rollback" 10 2) as H.
  cbv zeta in H. destruct H as (H & _); [lia|]. exact H.
Defined.

(** X26.  Nothing stops the countdown when the banner is replaced: a
    plain error shown by [show] while the countdown of a retriable
    banner is running hides the retry button, and the next turn of
    the countdown writes that plain message followed by
    [. Retrying in n seconds]. *)
Theorem X26_countdown_outlives_its_banner
    (history : list Action) (event m reverseEvent : Event) (left : nat)
    (plain : string) :
  let s0 := after history in
  let s := show plain (showRetriableError event m reverseEvent (S left) s0) in
  errorMsg s = plain /\ retryHidden s = true /\ shown s = true
  /\ errorMsg (tick (S (nextTimer s0)) s) = countdown_text plain (S left)
  /\ shown (tick (S (nextTimer s0)) s) = true.
Proof.
  intros s0 s.
  destruct (consistent_after history) as (_ & _ & Hi). fold s0 in Hi.
  assert (Hf : S (nextTimer s0) ∉ (fst <$> intervals s0)).
  { intros Hin. apply list_elem_of_fmap_1 in Hin as (p & Hp & Hin).
    rewrite Forall_forall in Hi. specialize (Hi p Hin). lia. }
  assert (Ei : intervals s = intervals s0 ++ [(S (nextTimer s0), S left)])
    by reflexivity.
  destruct (tick_counting _ _ s _ Ei Hf) as (E1 & _).
  repeat split; try reflexivity.
  - exact E1.
  - unfold tick. rewrite Ei, find_last by exact Hf. reflexivity.
Qed.

End Countdown.

(** ** Reply mode: opening a reply box and quitting it *)

Section ReplyMode.

Import View.

Lemma remove_node_fresh (n : Node) (l : list Node) :
  n ∉ l -> remove_node n l = l.
Proof.
  unfold remove_node. induction l as [|m l IH]; intros H; [reflexivity|].
  rewrite not_elem_of_cons in H. destruct H as [Hm H].
  rewrite filter_cons_True by congruence. now rewrite IH.
Qed.

Lemma remove_node_last (n : Node) (l : list Node) :
  n ∉ l -> remove_node n (l ++ [n]) = l.
Proof.
  intros H. unfold remove_node. rewrite filter_app.
  fold (remove_node n l). rewrite remove_node_fresh by exact H.
  rewrite filter_cons_False by (intros E; now apply E).
  now rewrite filter_nil, app_nil_r.
Qed.

Lemma set_replies_same (el : PostElement.t) :
  PostElement.set_replies (PostElement.replies el) el = el.
Proof. now destruct el. Qed.

(** Taking out a node that is in no list changes nothing. *)
Lemma heap_without_node (n : Node) (h : gmap nat PostElement.t) :
  map_Forall (fun _ el => n ∉ PostElement.replies el) h ->
  (fun el => PostElement.set_replies
               (remove_node n (PostElement.replies el)) el) <$> h = h.
Proof.
  intros Hh. apply map_eq. intros i. rewrite lookup_fmap.
  destruct (h !! i) as [el|] eqn:E; [|reflexivity]. simpl.
  rewrite remove_node_fresh by exact (Hh i el E).
  now rewrite set_replies_same.
Qed.

Lemma detach_fresh (n : Node) (s : View.t) :
  every_list (fun l => n ∉ l) s -> detach n s = s.
Proof.
  intros (Ht & Hh). destruct s as [h ni cc tl pv ap rb ar ab].
  simpl in Ht, Hh. unfold detach, set_topLevelPosts, set_heap. simpl.
  now rewrite remove_node_fresh, heap_without_node.
Qed.

(** X27.  Opening reply mode on a post of the active index, with no
    reply open, hides the post box and puts a new reply box at the end
    of the post's replies; quitting reply mode for that post then takes
    the box out again and shows the post box: every list of the view is
    as it was before, and no reply is active. *)
Theorem X27_reply_mode_round_trip
    (postId channelName workspaceName : string) (target : nat)
    (el : PostElement.t) (s : View.t) :
  activeReply s = None ->
  activePosts s !! postId = Some target ->
  heap s !! target = Some el ->
  every_list (fun l => ReplyBoxNode (nextId s) ∉ l) s ->
  let opened := replyModeOn postId channelName workspaceName s in
  fst opened = Returned
  /\ children (Some target) (snd opened)
     = Some (PostElement.replies el ++ [ReplyBoxNode (nextId s)])
  /\ topLevelPosts (snd opened) = topLevelPosts s
  /\ postBoxVisible (snd opened) = false
  /\ activeReply (snd opened) = Some postId
  /\ replyModeOff postId (snd opened)
     = mkView (alter PostElement.closeReplyMode target (heap s))
         (S (nextId s)) (currContent s) (topLevelPosts s) true
         (activePosts s) (replyBuffer s) None None.
Proof.
  intros Har Hap Hel Hfresh.
  destruct s as [h ni cc tl pv ap rb ar ab]. simpl in Har, Hap, Hel.
  subst ar. destruct Hfresh as (Ht & Hh). simpl in Ht, Hh.
  pose proof (Hh target el Hel) as Hl. simpl in Hl.
  unfold replyModeOn. simpl. rewrite Hap. simpl.
  unfold append. simpl.
  rewrite (heap_without_node _ _ Hh), Hel. simpl.
  split; [reflexivity|]. split.
  { rewrite lookup_alter_eq, Hel. reflexivity. }
  split; [now apply remove_node_fresh|].
  split; [reflexivity|]. split; [reflexivity|].
  rewrite detach_fresh by (split; [exact Ht | exact Hh]).
  unfold replyModeOff. simpl. rewrite Hap. simpl.
  unfold detach, set_reply, set_topLevelPosts, set_heap. simpl.
  rewrite remove_node_fresh by exact Ht. f_equal.
  apply map_eq. intros i. rewrite lookup_fmap.
  destruct (decide (i = target)) as [->|Hne].
  - rewrite !lookup_alter_eq, Hel. simpl. f_equal.
    rewrite remove_node_last by exact Hl. now destruct el.
  - rewrite !lookup_alter_ne by congruence.
    destruct (h !! i) as [x|] eqn:E; [|reflexivity]. simpl.
    rewrite remove_node_fresh by exact (Hh i x E).
    now rewrite set_replies_same.
Qed.

Lemma X27_reply_mode_round_trip_witness :
  replyModeOff "/w/channels/c/posts/p1"
    (snd (replyModeOn "/w/channels/c/posts/p1" "c" "w"
            (Scenario.run [Scenario.p1])))
  = mkView
      (alter PostElement.closeReplyMode 0%nat
         (heap (Scenario.run [Scenario.p1])))
      (S (nextId (Scenario.run [Scenario.p1])))
      (currContent (Scenario.run [Scenario.p1]))
      (topLevelPosts (Scenario.run [Scenario.p1])) true
      (activePosts (Scenario.run [Scenario.p1]))
      (replyBuffer (Scenario.run [Scenario.p1])) None None.
Proof.
  destruct (heap (Scenario.run [Scenario.p1]) !! 0%nat) as [el|] eqn:E;
    [|vm_compute in E; discriminate].
  apply (X27_reply_mode_round_trip "/w/channels/c/posts/p1" "c" "w" 0 el
           (Scenario.run [Scenario.p1])).
  - reflexivity.
  - vm_compute. reflexivity.
  - exact E.
  - apply (bool_decide_unpack _). vm_compute. exact I.
Defined.

End ReplyMode.
